(** * brain_car: the signal-to-command pipeline

    A shallow embedding of [BrainLinkParser/converter.py],
    [BrainLinkParser/generator.py], [BrainLinkParser/command_map.py],
    [BrainLinkParser/connector.py], the control loop of
    [BrainLinkParser/main.py] and [config/car_control_config.py], and the
    properties of the pipeline proved about it.

    Python numbers are modelled as they are at run time: an [int] is an
    unbounded integer ([Z]), a [float] is a binary64 value (Rocq's primitive
    [float], the same IEEE 754 format CPython uses), and every arithmetic
    operator follows Python's coercion rules.  Dictionaries are finite maps
    with string keys. *)

From Stdlib Require Import ZArith Floats Reals Lra String Ascii.
From stdpp Require Import base option list gmap strings pretty.

#[local] Open Scope string_scope.
#[local] Open Scope Z_scope.

(** ** config/car_control_config.py *)

Module Config.

Definition BASE_SPEED : Z := 500.
Definition MAX_SPEED : Z := 800.
Definition MEDITATION_THRESHOLD : Z := 95.

Definition MIN_DIRECTION : Z := 500.
Definition MAX_DIRECTION : Z := 2500.
Definition CENTER_DIRECTION : Z := 1500.

Definition MAX_ATTENTION_VALUE : Z := 100.
Definition MAX_MEDITATION_VALUE : Z := 100.
Definition MAX_GYRO_ANGLE : Z := 180.

Definition DIRECTION_RANGE_PER_SIDE : Z := 400.
Definition CENTER_GYRO_ANGLE : Z := 90.
(** [STEERING_GAIN = 2.0] is a Python float. *)
Definition STEERING_GAIN : float := 2%float.

Definition LOOP_INTERVAL_MS : Z := 100.

End Config.

(** ** Python values and exceptions *)

Inductive exn := TypeError | ValueError | OverflowError | ZeroDivisionError | AttributeError.

(** The outcome of evaluating a Python expression: a value, or a raised
    exception. *)
Inductive result (A : Type) :=
| Ok (a : A)
| Raise (e : exn).
Arguments Ok {A} a.
Arguments Raise {A} e.

#[export] Instance result_ret : MRet result := @Ok.
#[export] Instance result_bind : MBind result := fun A B f r =>
  match r with
  | Ok a => f a
  | Raise e => Raise e
  end.

(** A Python number: [int] or [float]. *)
Inductive pynum :=
| PyInt (z : Z)
| PyFloat (f : float).

(** The Python values a sample can hold: [None], a number, a string, or a
    dictionary with string keys. *)
#[warnings="-register-all"]
Inductive pyval :=
| VNone
| VNum (n : pynum)
| VStr (s : string)
| VDict (d : gmap string pyval).

(** ** Python's numeric operators *)

Module PyNum.

(** [float(z)]: the binary64 value nearest to [z] (ties to even); an integer
    too large for a float raises [OverflowError]. *)
Definition float_of_Z (z : Z) : result float :=
  match binary_normalize prec emax z 0 false with
  | S754_infinity _ => Raise OverflowError
  | sf => Ok (SF2Prim sf)
  end.

(** Python compares an [int] with a [float] exactly, by value.  [None] when
    the float is a NaN, against which every ordering test is false. *)
Definition Z_compare_float (z : Z) (f : float) : option comparison :=
  match Prim2SF f with
  | S754_nan => None
  | S754_infinity s => Some (if s then Gt else Lt)
  | S754_zero _ => Some (z ?= 0)
  | S754_finite s m e =>
      let v := if s then Z.neg m else Z.pos m in
      Some (if 0 <=? e then z ?= v * 2 ^ e else z * 2 ^ (- e) ?= v)
  end.

(** [a < b] *)
Definition lt (a b : pynum) : bool :=
  match a, b with
  | PyInt x, PyInt y => x <? y
  | PyFloat x, PyFloat y => PrimFloat.ltb x y
  | PyInt x, PyFloat y =>
      match Z_compare_float x y with Some Lt => true | _ => false end
  | PyFloat x, PyInt y =>
      match Z_compare_float y x with Some Gt => true | _ => false end
  end.

(** [a > b] *)
Definition gt (a b : pynum) : bool := lt b a.

(** [a <= b] *)
Definition le (a b : pynum) : bool :=
  match a, b with
  | PyInt x, PyInt y => x <=? y
  | PyFloat x, PyFloat y => PrimFloat.leb x y
  | PyInt x, PyFloat y =>
      match Z_compare_float x y with Some (Lt | Eq) => true | _ => false end
  | PyFloat x, PyInt y =>
      match Z_compare_float y x with Some (Gt | Eq) => true | _ => false end
  end.

(** [a == b] *)
Definition eq (a b : pynum) : bool :=
  match a, b with
  | PyInt x, PyInt y => x =? y
  | PyFloat x, PyFloat y => PrimFloat.eqb x y
  | PyInt x, PyFloat y | PyFloat y, PyInt x =>
      match Z_compare_float x y with Some Eq => true | _ => false end
  end.

(** The builtin [min(a, b)]: the second argument replaces the first only
    when it is strictly smaller. *)
Definition min (a b : pynum) : pynum := if lt b a then b else a.

(** The builtin [max(a, b)]: the second argument replaces the first only
    when it is strictly greater. *)
Definition max (a b : pynum) : pynum := if gt b a then b else a.

Definition to_float (a : pynum) : result float :=
  match a with
  | PyInt z => float_of_Z z
  | PyFloat f => Ok f
  end.

Definition is_zero (a : pynum) : bool := eq a (PyInt 0).

(** [a / b], true division: always a float.  For integer operands below
    [2^53] in magnitude, the only ones the converter divides, the conversion
    to float is exact and the quotient is the correctly rounded one. *)
Definition truediv (a b : pynum) : result pynum :=
  if is_zero b then Raise ZeroDivisionError
  else
    x ← to_float a;
    y ← to_float b;
    mret (PyFloat (PrimFloat.div x y)).

Definition arith (fz : Z → Z → Z) (ff : float → float → float)
    (a b : pynum) : result pynum :=
  match a, b with
  | PyInt x, PyInt y => mret (PyInt (fz x y))
  | _, _ =>
      x ← to_float a;
      y ← to_float b;
      mret (PyFloat (ff x y))
  end.

(** [a * b], [a + b], [a - b] *)
Definition mul : pynum → pynum → result pynum := arith Z.mul PrimFloat.mul.
Definition add : pynum → pynum → result pynum := arith Z.add PrimFloat.add.
Definition sub : pynum → pynum → result pynum := arith Z.sub PrimFloat.sub.

(** [int(a)]: truncation toward zero; [int(nan)] raises [ValueError] and
    [int(inf)] raises [OverflowError]. *)
Definition int (a : pynum) : result Z :=
  match a with
  | PyInt z => Ok z
  | PyFloat f =>
      match Prim2SF f with
      | S754_nan => Raise ValueError
      | S754_infinity _ => Raise OverflowError
      | S754_zero _ => Ok 0
      | S754_finite s m e =>
          let t := if 0 <=? e then Z.pos m * 2 ^ e else Z.pos m / 2 ^ (- e) in
          Ok (if s then - t else t)
      end
  end.

End PyNum.

(** ** BrainLinkParser/converter.py *)

(** The converter's [car_status] dictionary; its three keys are fixed at
    construction and only ever reassigned. *)
Record car_status_t := {
  status_direction : Z;
  status_speed : Z;
  status_is_forward : bool
}.

(** The attributes of a [BrainDataConverter] object. *)
Record BrainDataConverter := {
  _previous_direction : Z;
  _previous_gyro_y : option pynum;
  _last_direction_state : bool;
  car_status : car_status_t
}.

(** The control signal [{'speed', 'direction', 'is_forward'}] the converter
    returns. *)
Record control_signal := {
  speed : Z;
  direction : Z;
  is_forward : bool
}.

(** A method of the converter: it reads and mutates the object's attributes,
    and returns a value or raises.  An exception leaves in place whatever the
    method had assigned before raising. *)
Definition Conv (A : Type) : Type :=
  BrainDataConverter → result A * BrainDataConverter.

#[export] Instance Conv_ret : MRet Conv := fun A a self => (Ok a, self).
#[export] Instance Conv_bind : MBind Conv := fun A B f m self =>
  match m self with
  | (Ok a, self') => f a self'
  | (Raise e, self') => (Raise e, self')
  end.

Module Converter.
Import Config.

(** Evaluate an expression that does not touch the object. *)
Definition eval {A} (r : result A) : Conv A := fun self => (r, self).

Definition get {A} (field : BrainDataConverter → A) : Conv A :=
  fun self => (Ok (field self), self).

Definition with_previous_direction (d : Z) (self : BrainDataConverter)
    : BrainDataConverter :=
  {| _previous_direction := d;
     _previous_gyro_y := _previous_gyro_y self;
     _last_direction_state := _last_direction_state self;
     car_status := car_status self |}.

Definition with_car_status (f : car_status_t → car_status_t)
    (self : BrainDataConverter) : BrainDataConverter :=
  {| _previous_direction := _previous_direction self;
     _previous_gyro_y := _previous_gyro_y self;
     _last_direction_state := _last_direction_state self;
     car_status := f (car_status self) |}.

(** [self._previous_direction = d] *)
Definition set_previous_direction (d : Z) : Conv unit := fun self =>
  (Ok (), with_previous_direction d self).

(** [self.car_status[key] = v], as the update [f] of the dictionary. *)
Definition set_car_status (f : car_status_t → car_status_t) : Conv unit :=
  fun self => (Ok (), with_car_status f self).

Definition with_speed (v : Z) (c : car_status_t) : car_status_t :=
  {| status_direction := status_direction c; status_speed := v;
     status_is_forward := status_is_forward c |}.
Definition with_direction (v : Z) (c : car_status_t) : car_status_t :=
  {| status_direction := v; status_speed := status_speed c;
     status_is_forward := status_is_forward c |}.
Definition with_is_forward (v : bool) (c : car_status_t) : car_status_t :=
  {| status_direction := status_direction c; status_speed := status_speed c;
     status_is_forward := v |}.

(** [BrainDataConverter.__init__] *)
Definition init : BrainDataConverter :=
  {| _previous_direction := CENTER_DIRECTION;
     _previous_gyro_y := None;
     _last_direction_state := true;
     car_status := {| status_direction := CENTER_DIRECTION;
                      status_speed := BASE_SPEED;
                      status_is_forward := true |} |}.

(** [max(0, min(v, hi))], the clamp applied to attention and meditation. *)
Definition clamp_percent (v : pynum) (hi : Z) : pynum :=
  PyNum.max (PyInt 0) (PyNum.min v (PyInt hi)).

(** The linear mapping of the clamped attention onto the speed range
    (lines 80-82). *)
Definition mapped_speed_of (attention : pynum) : result Z :=
  let speed_range := MAX_SPEED - BASE_SPEED in
  ratio ← PyNum.truediv attention (PyInt MAX_ATTENTION_VALUE);
  scaled ← PyNum.mul ratio (PyInt speed_range);
  mapped_speed ← PyNum.add (PyInt BASE_SPEED) scaled;
  truncated ← PyNum.int mapped_speed;
  mret (Z.max BASE_SPEED (Z.min truncated MAX_SPEED)).

(** The speed computed by [calculate_speed], before it is stored
    (lines 72-82). *)
Definition speed_of (attention meditation : pynum) : result Z :=
  let attention := clamp_percent attention MAX_ATTENTION_VALUE in
  let meditation := clamp_percent meditation MAX_MEDITATION_VALUE in
  if PyNum.gt meditation (PyInt MEDITATION_THRESHOLD) then
    mret BASE_SPEED
  else
    mapped_speed_of attention.

(** [calculate_speed(attention, meditation)] *)
Definition calculate_speed (attention meditation : pynum) : Conv Z :=
  speed ← eval (speed_of attention meditation);
  _ ← set_car_status (with_speed speed);
  mret speed.

(** [calculate_forward_direction(gyro_y)]; the argument may be [None]. *)
Definition calculate_forward_direction (gyro_y : pyval) : Conv bool :=
  match gyro_y with
  | VNone => mret false
  | VNum y =>
      let current_direction := PyNum.lt y (PyInt 10) in
      _ ← set_car_status (with_is_forward current_direction);
      mret current_direction
  | VStr _ | VDict _ => eval (Raise TypeError)
  end.

(** [0.01] as Python reads it: the binary64 value nearest to 1/100. *)
Definition one_percent : float := 0x1.47ae147ae147bp-7%float.

(** [max(-90, min(gyro_z, 90))] *)
Definition clamp_tilt (gyro_z : pynum) : pynum :=
  PyNum.max (PyInt (-90)) (PyNum.min gyro_z (PyInt 90)).

(** The steering value for a clamped tilt, itself clamped and truncated
    (lines 137-163). *)
Definition steering_of (gyro_z : pynum) : result Z :=
  direction ←
    (if PyNum.gt gyro_z (PyInt 0) then
       ratio ← PyNum.truediv gyro_z (PyInt 90);
       left_ratio ← PyNum.mul ratio (PyFloat STEERING_GAIN);
       offset ← PyNum.mul left_ratio (PyInt DIRECTION_RANGE_PER_SIDE);
       PyNum.sub (PyInt CENTER_DIRECTION) offset
     else if PyNum.lt gyro_z (PyInt 0) then
       let normalized_z :=
         if PyNum.lt gyro_z (PyInt (-75)) then PyInt (-75) else gyro_z in
       shifted ← PyNum.add normalized_z (PyInt 75);
       ratio ← PyNum.truediv shifted (PyInt 75);
       right_ratio ← PyNum.mul ratio (PyFloat STEERING_GAIN);
       offset ← PyNum.mul right_ratio (PyInt DIRECTION_RANGE_PER_SIDE);
       PyNum.add (PyInt CENTER_DIRECTION) offset
     else mret (PyInt CENTER_DIRECTION));
  truncated ← PyNum.int direction;
  mret (Z.max MIN_DIRECTION (Z.min truncated MAX_DIRECTION)).

(** The steering value computed by [calculate_direction] from the tilt,
    before the hysteresis test (lines 135-163). *)
Definition direction_of (gyro_z : pynum) : result Z :=
  steering_of (clamp_tilt gyro_z).

(** [change_threshold = total_range * 0.01] *)
Definition change_threshold : result pynum :=
  let total_range := MAX_DIRECTION - MIN_DIRECTION in
  PyNum.mul (PyInt total_range) (PyFloat one_percent).

(** [calculate_direction(gyro_z)] *)
Definition calculate_direction (gyro_z : pynum) : Conv Z :=
  direction ← eval (direction_of gyro_z);
  change_threshold ← eval change_threshold;
  previous ← get _previous_direction;
  if PyNum.lt (PyInt (Z.abs (direction - previous))) change_threshold then
    mret previous
  else
    _ ← set_previous_direction direction;
    _ ← set_car_status (with_direction direction);
    mret direction.

End Converter.

Module ConverterPipeline.
Import Config Converter.

(** [key in d] *)
Definition has_key (d : gmap string pyval) (key : string) : bool :=
  match d !! key with Some _ => true | None => false end.

(** [d.get(key)]: [None] when the key is absent. *)
Definition dict_get (d : gmap string pyval) (key : string) : pyval :=
  default VNone (d !! key).

(** [d.get(key, fallback)] *)
Definition dict_get_default (d : gmap string pyval) (key : string)
    (fallback : pyval) : pyval :=
  default fallback (d !! key).

Definition is_none (v : pyval) : bool :=
  match v with VNone => true | _ => false end.

(** A value used where the code compares it with a number: anything but an
    [int] or a [float] makes the comparison raise [TypeError]. *)
Definition as_number (v : pyval) : result pynum :=
  match v with
  | VNum n => Ok n
  | VNone | VStr _ | VDict _ => Raise TypeError
  end.

(** [gyro.get(axis, 0) if isinstance(gyro, dict) else 0] *)
Definition gyro_axis (gyro : pyval) (axis : string) : pyval :=
  match gyro with
  | VDict g => dict_get_default g axis (VNum (PyInt 0))
  | VNone | VNum _ | VStr _ => VNum (PyInt 0)
  end.

(** The body of the [try] block of [convert_essential_data], from the
    extraction of the gyro axes on (lines 209-229). *)
Definition convert_body (attention meditation gyro : pyval)
    : Conv control_signal :=
  let gyro_y := gyro_axis gyro "y" in
  let gyro_z := gyro_axis gyro "z" in
  a ← eval (as_number attention);
  m ← eval (as_number meditation);
  speed ← calculate_speed a m;
  z ← eval (as_number gyro_z);
  direction ← calculate_direction z;
  is_forward ← calculate_forward_direction gyro_y;
  mret {| speed := speed; direction := direction; is_forward := is_forward |}.

(** [convert_essential_data(essential_data)]: the control signal, or [None].
    Whatever is raised inside is caught by the [except Exception] clause and
    turned into [None]; a value that is not a dictionary is either falsy or
    makes the membership test or [.get] raise, so it yields [None] too. *)
Definition convert_essential_data (essential_data : pyval)
    (self : BrainDataConverter) : option control_signal * BrainDataConverter :=
  match essential_data with
  | VDict d =>
      if negb (has_key d "attention") || negb (has_key d "meditation")
         || negb (has_key d "gyro")
      then (None, self)
      else
        let attention := dict_get d "attention" in
        let meditation := dict_get d "meditation" in
        let gyro := dict_get d "gyro" in
        if is_none attention || is_none meditation || is_none gyro
        then (None, self)
        else
          match convert_body attention meditation gyro self with
          | (Ok signal, self') => (Some signal, self')
          | (Raise _, self') => (None, self')
          end
  | VNone | VNum _ | VStr _ => (None, self)
  end.

End ConverterPipeline.

(** ** BrainLinkParser/command_map.py *)

Module command_map.

Definition COMMAND_MAP : gmap string string :=
  list_to_map
    [ ("forward", "<BUPD>");
      ("backward", "<BDND>");
      ("left", "<BLTD>");
      ("right", "<BRTD>");
      ("speed_up", "BUAD");
      ("speed_down", "BUMD");
      ("stop_forward", "<BUPU>");
      ("stop_backward", "<BDNU>");
      ("stop_left", "<BLTU>");
      ("stop_right", "<BRTU>");
      ("stop_all", "BSTD");
      ("speed", "<SPD-") ].

Record command_param := {
  has_parameter : bool;
  min_value : Z;
  max_value : Z;
  format : string;
  parameter_name : string
}.

Definition COMMAND_PARAMS : gmap string command_param :=
  list_to_map
    [ ("steering",
       {| has_parameter := true; min_value := 500; max_value := 2500;
          format := "<SUP-{angle}>"; parameter_name := "angle" |});
      ("speed",
       {| has_parameter := true; min_value := 500; max_value := 1000;
          format := "<SPD-{speed}>"; parameter_name := "speed" |}) ].

(** [COMMAND_MAP.get(name)]: [None] stands for Python's [None]. *)
Definition get_command (command_name : string) : option string :=
  COMMAND_MAP !! command_name.

Definition get_forward_command : option string := COMMAND_MAP !! "forward".
Definition get_backward_command : option string := COMMAND_MAP !! "backward".
Definition get_left_command : option string := COMMAND_MAP !! "left".
Definition get_right_command : option string := COMMAND_MAP !! "right".
Definition get_speed_up_command : option string := COMMAND_MAP !! "speed_up".
Definition get_speed_down_command : option string := COMMAND_MAP !! "speed_down".
Definition get_stop_forward_command : option string := COMMAND_MAP !! "stop_forward".
Definition get_stop_backward_command : option string := COMMAND_MAP !! "stop_backward".
Definition get_stop_left_command : option string := COMMAND_MAP !! "stop_left".
Definition get_stop_right_command : option string := COMMAND_MAP !! "stop_right".
Definition get_stop_all_command : option string := COMMAND_MAP !! "stop_all".

(** [f"<SPD-{speed}>"] *)
Definition speed_token (speed : Z) : string := "<SPD-" +:+ pretty speed +:+ ">".

(** [f'<SUP-{angle:d}>'] *)
Definition steering_token (angle : Z) : string := "<SUP-" +:+ pretty angle +:+ ">".

(** [get_speed_command(speed)]: [None] when the speed is out of range. *)
Definition get_speed_command (speed : Z) : option string :=
  match COMMAND_PARAMS !! "speed" with
  | Some speed_info =>
      if has_parameter speed_info
         && (min_value speed_info <=? speed) && (speed <=? max_value speed_info)
      then Some (speed_token speed)
      else None
  | None => None
  end.

(** [get_steering_command(angle)]: an out-of-range angle is clamped, never
    refused. *)
Definition get_steering_command (angle : Z) : string :=
  let angle :=
    if (angle <? 500) || (2500 <? angle)
    then Z.max 500 (Z.min 2500 angle)
    else angle in
  steering_token angle.

Definition is_valid_command (command_name : string) : bool :=
  match COMMAND_MAP !! command_name with Some _ => true | None => false end.

End command_map.

(** ** BrainLinkParser/generator.py *)

(** The attributes of a [CommandGenerator] object. *)
Record CommandGenerator := {
  _current_speed : Z;
  _last_is_forward : option bool;
  _previous_angle : option Z
}.

(** The [car_control_data] dictionary handed to the generator.  A field is
    [None] when its key is absent; the values have the types the converter
    gives them. *)
Record car_control_data := {
  speed_field : option Z;
  direction_field : option Z;
  is_forward_field : option bool
}.

(** The dictionary holding a complete control triple. *)
Definition control_triple (speed direction : Z) (is_forward : bool)
    : car_control_data :=
  {| speed_field := Some speed;
     direction_field := Some direction;
     is_forward_field := Some is_forward |}.

Definition of_signal (s : control_signal) : car_control_data :=
  control_triple (speed s) (direction s) (is_forward s).

(** A method of the generator: it reads and mutates the object's attributes
    and returns a value. *)
Definition Gen (A : Type) : Type := CommandGenerator → A * CommandGenerator.

#[export] Instance Gen_ret : MRet Gen := fun A a self => (a, self).
#[export] Instance Gen_bind : MBind Gen := fun A B f m self =>
  let '(a, self') := m self in f a self'.

Module Generator.
Import Config command_map.

Definition get {A} (field : CommandGenerator → A) : Gen A :=
  fun self => (field self, self).

Definition with_current_speed (v : Z) (self : CommandGenerator)
    : CommandGenerator :=
  {| _current_speed := v;
     _last_is_forward := _last_is_forward self;
     _previous_angle := _previous_angle self |}.

Definition with_last_is_forward (v : bool) (self : CommandGenerator)
    : CommandGenerator :=
  {| _current_speed := _current_speed self;
     _last_is_forward := Some v;
     _previous_angle := _previous_angle self |}.

Definition with_previous_angle (v : Z) (self : CommandGenerator)
    : CommandGenerator :=
  {| _current_speed := _current_speed self;
     _last_is_forward := _last_is_forward self;
     _previous_angle := Some v |}.

(** [self._current_speed = v] *)
Definition set_current_speed (v : Z) : Gen unit := fun self =>
  ((), with_current_speed v self).

(** [self._last_is_forward = v] *)
Definition set_last_is_forward (v : bool) : Gen unit := fun self =>
  ((), with_last_is_forward v self).

(** [self._previous_angle = v] *)
Definition set_previous_angle (v : Z) : Gen unit := fun self =>
  ((), with_previous_angle v self).

(** [CommandGenerator.__init__] *)
Definition init : CommandGenerator :=
  {| _current_speed := BASE_SPEED;
     _last_is_forward := None;
     _previous_angle := None |}.

(** Truth value of a string that may be [None]: false for [None] and for the
    empty string. *)
Definition truthy (s : option string) : bool :=
  match s with
  | Some (String _ _) => true
  | Some EmptyString | None => false
  end.

(** The characters [str.strip()] removes. *)
Definition is_space (c : ascii) : bool :=
  let n := Z.of_N (N_of_ascii c) in
  ((9 <=? n) && (n <=? 13)) || ((28 <=? n) && (n <=? 32)).

Fixpoint all_space (s : string) : bool :=
  match s with
  | EmptyString => true
  | String c s' => is_space c && all_space s'
  end.

(** [s and s.strip()] as a condition: the string has a character that is not
    white space. *)
Definition strip_truthy (s : string) : bool := negb (all_space s).

(** [commands.append(c)] guarded by [if c:] *)
Definition append_if_truthy (commands : list string) (c : option string)
    : list string :=
  match c with
  | Some (String a s) => (commands ++ [String a s])%list
  | Some EmptyString | None => commands
  end.

(** [generate_speed_commands(target_speed)] *)
Definition generate_speed_commands (target_speed : Z) : Gen (list string) :=
  current ← get _current_speed;
  let speed_commands :=
    if target_speed =? 0 then
      append_if_truthy [] get_stop_all_command
    else if (500 <=? target_speed) && (target_speed <=? 1000) then
      if negb (target_speed =? current)
      then append_if_truthy [] (get_speed_command target_speed)
      else []
    else [] in
  match speed_commands with
  | _ :: _ => _ ← set_current_speed target_speed; mret speed_commands
  | [] => mret speed_commands
  end.

(** The dictionary of [_get_direction_command], each entry already applied:
    the four functions it holds are constant. *)
Definition direction_command_map : gmap string (option string) :=
  list_to_map
    [ ("forward", get_forward_command);
      ("backward", get_backward_command);
      ("left", get_left_command);
      ("right", get_right_command) ].

(** [_get_direction_command(direction)] *)
Definition _get_direction_command (direction : string) : option string :=
  match direction_command_map !! direction with
  | Some command => command
  | None => None
  end.

(** [generate_movement_command(is_forward)] *)
Definition generate_movement_command (is_forward : bool) : Gen string :=
  let direction := if is_forward then "forward" else "backward" in
  let movement_command := _get_direction_command direction in
  match movement_command with
  | Some (String a s) =>
      _ ← set_last_is_forward is_forward; mret (String a s)
  | Some EmptyString | None => mret ""
  end.

(** [generate_direction_command(angle)].  [get_steering_command] always
    returns a string, so the branch for a [None] command is never taken. *)
Definition generate_direction_command (angle : Z) : Gen string :=
  previous ← get _previous_angle;
  match previous with
  | Some p => if angle =? p then mret ""
              else _ ← set_previous_angle angle; mret (get_steering_command angle)
  | None => _ ← set_previous_angle angle; mret (get_steering_command angle)
  end.

(** [commands.append(c)] guarded by [if c and c.strip():] *)
Definition append_if_stripped (commands : list string) (c : string)
    : list string :=
  if strip_truthy c then (commands ++ [c])%list else commands.

(** [generate_commands_from_car_control(car_control_data)] *)
Definition generate_commands_from_car_control (d : car_control_data)
    : Gen (list string) :=
  match speed_field d, direction_field d, is_forward_field d with
  | Some target_speed, Some target_direction, Some is_forward =>
      speed_commands ← generate_speed_commands target_speed;
      let commands_sent := ([] ++ speed_commands)%list in
      if negb (target_speed =? 0) then
        let angle := target_direction in
        last ← get _last_is_forward;
        commands_sent ←
          match last with
          | Some l =>
              if negb (eqb l is_forward) then
                movement_command ← generate_movement_command is_forward;
                mret (append_if_stripped commands_sent movement_command)
              else mret commands_sent
          | None =>
              movement_command ← generate_movement_command is_forward;
              mret (append_if_stripped commands_sent movement_command)
          end;
        steering_command ← generate_direction_command angle;
        mret (append_if_stripped commands_sent steering_command)
      else mret commands_sent
  | _, _, _ => mret []
  end.

(** [generate_stop_command()] *)
Definition generate_stop_command : Gen (option string) :=
  _ ← set_current_speed 0; mret get_stop_all_command.

End Generator.

(** ** The wire vocabulary, as the properties below speak of it *)

Module Wire.
Import command_map Generator.

(** The token announcing the facing: forward-start or backward-start. *)
Definition facing_token (is_forward : bool) : string :=
  if is_forward then "<BUPD>" else "<BDND>".

(** [s.startswith(p)] *)
Fixpoint starts_with (p s : string) : bool :=
  match p, s with
  | EmptyString, _ => true
  | String a p', String b s' => Ascii.eqb a b && starts_with p' s'
  | String _ _, EmptyString => false
  end.

(** A speed command: the stop-all token or a [<SPD-n>] command. *)
Definition is_speed_command (c : string) : bool :=
  String.eqb c "BSTD" || starts_with "<SPD-" c.

(** A facing command: forward-start or backward-start. *)
Definition is_facing_command (c : string) : bool :=
  String.eqb c "<BUPD>" || String.eqb c "<BDND>".

(** A steering command: [<SUP-n>]. *)
Definition is_steering_command (c : string) : bool :=
  starts_with "<SUP-" c.

Fixpoint ends_with_gt (s : string) : bool :=
  match s with
  | EmptyString => false
  | String c EmptyString => Ascii.eqb c ">"
  | String _ s' => ends_with_gt s'
  end.

(** A bracket-delimited token: it opens with [<] and closes with [>]. *)
Definition bracket_delimited (s : string) : bool :=
  match s with
  | String c s' => Ascii.eqb c "<" && ends_with_gt s'
  | EmptyString => false
  end.

(** The commands the generator can put on the wire. *)
Inductive wire_command : string → Prop :=
| wire_stop_all : wire_command "BSTD"
| wire_forward : wire_command "<BUPD>"
| wire_backward : wire_command "<BDND>"
| wire_speed (n : Z) : 500 ≤ n ≤ 1000 → wire_command (speed_token n)
| wire_steering (n : Z) : 500 ≤ n ≤ 2500 → wire_command (steering_token n).

(** The facing step of one cycle (lines 173-181), in closed form. *)
Definition facing_step (is_forward : bool) (self : CommandGenerator)
    : list string * CommandGenerator :=
  match _last_is_forward self with
  | Some l =>
      if eqb l is_forward then ([], self)
      else ([facing_token is_forward], with_last_is_forward is_forward self)
  | None => ([facing_token is_forward], with_last_is_forward is_forward self)
  end.

(** The steering step of one cycle (lines 184-187), in closed form. *)
Definition steering_step (angle : Z) (self : CommandGenerator)
    : list string * CommandGenerator :=
  match _previous_angle self with
  | Some p =>
      if angle =? p then ([], self)
      else ([get_steering_command angle], with_previous_angle angle self)
  | None => ([get_steering_command angle], with_previous_angle angle self)
  end.

End Wire.

(** ** Auxiliary definitions for the proofs *)

Module Enumerate.

(** A decidable property holds on the [n] integers from [lo] on. *)
Definition range_check (P : Z → bool) (lo : Z) (n : nat) : bool :=
  forallb (λ i, P (lo + Z.of_nat i)) (seq 0 n).

(** The result is the value [v]. *)
Definition returns (r : result Z) (v : Z) : bool :=
  match r with Ok a => a =? v | Raise _ => false end.

(** The result is a value between [lo] and [hi]. *)
Definition returns_within (lo hi : Z) (r : result Z) : bool :=
  match r with Ok a => (lo <=? a) && (a <=? hi) | Raise _ => false end.

(** [float(k)] is a float of value [k] below [2^B]: a zero when [k] is 0,
    otherwise a positive mantissa [k * 2^(-e)] at an exponent [e <= 0]. *)
Definition exact_float (B k : Z) : bool :=
  match PyNum.float_of_Z k with
  | Ok f =>
      match Prim2SF f with
      | S754_zero _ => k =? 0
      | S754_finite false m e =>
          (e <=? 0) && (Z.pos m =? k * 2 ^ (- e))
          && (Z.pos (digits2_pos m) + e <=? B)
      | S754_finite true _ _ | S754_infinity _ | S754_nan => false
      end
  | Raise _ => false
  end.

End Enumerate.

Module Magnitude.

(** A float that is a zero or a finite number below [2^B] in magnitude, read
    on its sign, mantissa and exponent. *)
Definition small (B : Z) (x : spec_float) : Prop :=
  match x with
  | S754_zero _ => True
  | S754_finite _ m e => Z.pos (digits2_pos m) + e ≤ B
  | S754_infinity _ | S754_nan => False
  end.

End Magnitude.

(** The real numbers binary64 floats stand for, and rounding to nearest
    as a relation on them. *)

Module RealValue.

(** [2^e] as a real number, for an exponent of either sign. *)
Definition bpow (e : Z) : R := powerRZ 2 e.

(** The real number a finite float stands for (0 for the others). *)
Definition V (x : spec_float) : R :=
  match x with
  | S754_finite s m e =>
      ((if s then - IZR (Z.pos m) else IZR (Z.pos m)) * bpow e)%R
  | S754_zero _ | S754_infinity _ | S754_nan => 0%R
  end.

(** [m] is an integer nearest to [u], the even one when two are as near. *)
Definition rne (u : R) (m : Z) : Prop :=
  (IZR m - / 2 <= u <= IZR m + / 2)%R
  ∧ ((u = IZR m - / 2 ∨ u = IZR m + / 2)%R → Z.even m = true).

(** Where [u] lies between [m] and [m + 1], as a location says it. *)
Definition inb (u : R) (m : Z) (l : location) : Prop :=
  match l with
  | loc_Exact => u = IZR m
  | loc_Inexact Lt => (IZR m < u < IZR m + / 2)%R
  | loc_Inexact Eq => u = (IZR m + / 2)%R
  | loc_Inexact Gt => (IZR m + / 2 < u < IZR m + 1)%R
  end.

(** [k] is the magnitude of [v]: [2^(k-1) <= v < 2^k]. *)
Definition mag (v : R) (k : Z) : Prop := (bpow (k - 1) <= v < bpow k)%R.

(** [x] holds the binary64 rounding to nearest, ties to even, of the positive
    real [v]. *)
Definition rounded (v : R) (x : spec_float) : Prop :=
  ∃ k m, mag v k
         ∧ rne (v / bpow (fexp prec emax k)) m
         ∧ V x = (IZR m * bpow (fexp prec emax k))%R.

End RealValue.

Module RoundDefs.
(** The last step of [binary_round_aux]: the rounded mantissa is brought
    back to the canonical exponent and packed. *)
Definition pack (sx : bool) (m e : Z) : spec_float :=
  let '(mrs, e') := shr_fexp prec emax m e loc_Exact in
  match shr_m mrs with
  | Z0 => S754_zero sx
  | Zpos p => if e' <=? emax - prec then S754_finite sx p e' else S754_infinity sx
  | Zneg _ => S754_nan
  end.
End RoundDefs.

Module OpDefs.
Import RealValue.

(** A float that is a zero or a positive finite number. *)
Definition nonneg_float (x : spec_float) : Prop :=
  match x with
  | S754_zero _ | S754_finite false _ _ => True
  | S754_finite true _ _ | S754_infinity _ | S754_nan => False
  end.

(** [x] holds what a binary64 operation returns for the exact result [v],
    not negative: a zero when [v] is 0, the rounding of [v] otherwise. *)
Definition approx (v : R) (x : spec_float) : Prop :=
  nonneg_float x
  ∧ ((v = 0 ∧ V x = 0)%R ∨ ((0 < v)%R ∧ rounded v x)).

End OpDefs.

Module Order.
Import RealValue.

(** What a Python number stands for: a real number, an infinity, or no
    number at all. *)
Inductive value :=
  | NotANumber
  | MinusInfinity
  | PlusInfinity
  | Finite (v : R).

Definition value_of_float (x : spec_float) : value :=
  match x with
  | S754_nan => NotANumber
  | S754_infinity s => if s then MinusInfinity else PlusInfinity
  | S754_zero _ | S754_finite _ _ _ => Finite (V x)
  end.

Definition value_of (a : pynum) : value :=
  match a with
  | PyInt z => Finite (IZR z)
  | PyFloat f => value_of_float (Prim2SF f)
  end.

(** The strict and the large order of values; nothing compares with
    [NotANumber]. *)
Definition vlt (a b : value) : Prop :=
  match a, b with
  | Finite x, Finite y => (x < y)%R
  | MinusInfinity, (Finite _ | PlusInfinity) => True
  | Finite _, PlusInfinity => True
  | _, _ => False
  end.

Definition vle (a b : value) : Prop :=
  match a, b with
  | Finite x, Finite y => (x <= y)%R
  | MinusInfinity, (MinusInfinity | Finite _ | PlusInfinity) => True
  | (Finite _ | PlusInfinity), PlusInfinity => True
  | _, _ => False
  end.

(** What a comparison says of two reals. *)
Definition compares (u v : R) (c : comparison) : Prop :=
  match c with
  | Lt => (u < v)%R
  | Eq => u = v
  | Gt => (v < u)%R
  end.

End Order.

Module Samples.

(** The gyro dictionary [{'x': 0, 'z': 0}]: the [y] key is absent. *)
Definition gyro_without_y : gmap string pyval :=
  <["x" := VNum (PyInt 0)]> (<["z" := VNum (PyInt 0)]> ∅).

(** The sample [{'attention': 50, 'meditation': 50,
    'gyro': {'x': 0, 'z': 0}}]. *)
Definition sample_without_y : gmap string pyval :=
  <["attention" := VNum (PyInt 50)]>
    (<["meditation" := VNum (PyInt 50)]>
       (<["gyro" := VDict gyro_without_y]> ∅)).

(** The same sample with the [y] key present and [None]:
    [{'attention': 50, 'meditation': 50,
      'gyro': {'x': 0, 'y': None, 'z': 0}}]. *)
Definition sample_with_none_y : gmap string pyval :=
  <["attention" := VNum (PyInt 50)]>
    (<["meditation" := VNum (PyInt 50)]>
       (<["gyro" := VDict (<["y" := VNone]> gyro_without_y)]> ∅)).

End Samples.

(** ** Exact formulas for integer readings *)

Module ExactFormulas.
Import Config.

(** The steering value of an integer tilt, in exact arithmetic: the linear
    mapping of each side as a fraction, rounded down. *)
Definition steering_formula (z : Z) : Z :=
  let z := Z.max (-90) (Z.min z 90) in
  if 0 <? z then
    (CENTER_DIRECTION * 90 - z * 2 * DIRECTION_RANGE_PER_SIDE) / 90
  else if z <? 0 then
    (CENTER_DIRECTION * 75 + (Z.max z (-75) + 75) * 2 * DIRECTION_RANGE_PER_SIDE)
    / 75
  else CENTER_DIRECTION.

(** The speed for an integer attention, in exact arithmetic. *)
Definition speed_formula (attention : Z) : Z :=
  let a := Z.max 0 (Z.min attention MAX_ATTENTION_VALUE) in
  BASE_SPEED + a * (MAX_SPEED - BASE_SPEED) / MAX_ATTENTION_VALUE.

End ExactFormulas.

(** ** The samples the conversion accepts *)

Module ConvertDefs.
Import Config Converter ConverterPipeline.

(** The control signal and the state a successful conversion leaves, from
    the speed [s] and the steering value [raw] computed for the sample and
    the value of its [y] axis. *)
Definition converted (s raw : Z) (gyro_y : pyval) (self : BrainDataConverter)
    : control_signal * BrainDataConverter :=
  let self1 := with_car_status (with_speed s) self in
  let '(d, self2) :=
    if Z.abs (raw - _previous_direction self) <? 20
    then (_previous_direction self, self1)
    else (raw, with_car_status (with_direction raw)
                 (with_previous_direction raw self1)) in
  match gyro_y with
  | VNum y =>
      let f := PyNum.lt y (PyInt 10) in
      ({| speed := s; direction := d; is_forward := f |},
       with_car_status (with_is_forward f) self2)
  | VNone | VStr _ | VDict _ =>
      ({| speed := s; direction := d; is_forward := false |}, self2)
  end.

(** The samples the conversion accepts: a dictionary whose attention and
    meditation are numbers, whose gyro is not [None], and whose [z] and [y]
    axes, read with the default 0, are a number and a number or [None]. *)
Definition well_formed (d : gmap string pyval) : Prop :=
  ∃ a m gyro,
    d !! "attention" = Some (VNum a) ∧ d !! "meditation" = Some (VNum m)
    ∧ d !! "gyro" = Some gyro ∧ gyro ≠ VNone
    ∧ (∃ z, gyro_axis gyro "z" = VNum z)
    ∧ (gyro_axis gyro "y" = VNone ∨ ∃ y, gyro_axis gyro "y" = VNum y).

End ConvertDefs.

(** ** BrainLinkParser/connector.py *)

(** A serial port object of the [cushy_serial] library, as the connector
    holds it: the port it was opened on and the baud rate.  Being an object
    it counts as true where the code tests [self.serial]. *)
Record serial_port := {
  device : string;
  baud : Z
}.

(** What the connector asks of the serial library, in the order of the
    calls: opening a port, writing bytes to an open port, closing it.  [ok]
    is false when the call raised an exception. *)
Inductive serial_event :=
| Opened (port : serial_port) (ok : bool)
| Wrote (port : serial_port) (data : string) (ok : bool)
| Closed (port : serial_port) (ok : bool).

(** The world outside the program: the calls made so far, the latest last,
    and for the calls to come whether each one raises ([true]); past the end
    of the list no call raises. *)
Record world := {
  trace : list serial_event;
  faults : list bool
}.

(** The attributes of a [CarConnector] object. *)
Record CarConnector := {
  serial : option serial_port;
  port : option string;
  baud_rate : Z;
  running : bool
}.

(** A method of the connector: it mutates the object and acts on the world.
    No method lets an exception out. *)
Definition Conn (A : Type) : Type :=
  CarConnector * world → A * (CarConnector * world).

Module Serial.

(** The next call on the serial library: whether it returns normally, and
    the faults left for the calls after it. *)
Definition next (w : world) : bool * list bool :=
  match faults w with
  | [] => (true, [])
  | fault :: rest => (negb fault, rest)
  end.

(** [CushySerial(port, baud)] *)
Definition open (p : serial_port) (w : world) : bool * world :=
  let '(ok, rest) := next w in
  (ok, {| trace := trace w ++ [Opened p ok]; faults := rest |}).

(** [serial.write(data)] *)
Definition write (p : serial_port) (data : string) (w : world) : bool * world :=
  let '(ok, rest) := next w in
  (ok, {| trace := trace w ++ [Wrote p data ok]; faults := rest |}).

(** [serial.close()] *)
Definition close (p : serial_port) (w : world) : bool * world :=
  let '(ok, rest) := next w in
  (ok, {| trace := trace w ++ [Closed p ok]; faults := rest |}).

End Serial.

Module Connector.
Import Generator.

(** [CarConnector.__init__] *)
Definition init : CarConnector :=
  {| serial := None; port := None; baud_rate := 9600; running := false |}.

(** The state every exit of [disconnect] and the failure of [connect]
    leave. *)
Definition reset (self : CarConnector) : CarConnector :=
  {| serial := None; port := None; baud_rate := baud_rate self;
     running := false |}.

(** [full_command = command + "\r\n"], sent as its UTF-8 bytes; the strings
    of the model are byte strings already. *)
Definition frame (command : string) : string :=
  command +:+ String "013" (String "010" EmptyString).

(** The stop command sent on both ends of a connection: a new
    [CommandGenerator] is asked for it, and it is written if it is neither
    [None] nor empty.  An exception raised by the write is caught on the
    spot. *)
Definition send_stop (p : serial_port) (w : world) : world :=
  let '(stop_command, _) := generate_stop_command Generator.init in
  match stop_command with
  | Some (String a s) => (Serial.write p (frame (String a s)) w).2
  | Some EmptyString | None => w
  end.

(** [disconnect()] *)
Definition disconnect : Conn unit := fun '(self, w) =>
  let w :=
    match serial self with
    | Some p =>
        if running self then
          let w := send_stop p w in
          (Serial.close p w).2
        else w
    | None => w
    end in
  ((), (reset self, w)).

(** [connect(port)] *)
Definition connect (name : string) : Conn bool := fun '(self, w) =>
  let '(self, w) :=
    match serial self with
    | Some _ => (disconnect (self, w)).2
    | None => (self, w)
    end in
  let p := {| device := name; baud := baud_rate self |} in
  let '(ok, w) := Serial.open p w in
  if ok then
    let self := {| serial := Some p; port := Some name;
                   baud_rate := baud_rate self; running := true |} in
    (true, (self, send_stop p w))
  else (false, (reset self, w)).

(** [send_command(command)] *)
Definition send_command (command : string) : Conn bool := fun '(self, w) =>
  if negb (running self) then (false, (self, w))
  else
    match command with
    | EmptyString => (false, (self, w))
    | String _ _ =>
        match serial self with
        | None => (false, (self, w))
        | Some p =>
            let '(ok, w) := Serial.write p (frame command) w in
            (ok, (self, w))
        end
    end.

(** [is_connected()] *)
Definition is_connected (self : CarConnector) : bool :=
  match serial self with Some _ => running self | None => false end.

End Connector.

(** ** BrainLinkParser/main.py *)

Module Main.
Import Converter ConverterPipeline Generator Connector.

(** The objects one device pair's thread works on, and the world. *)
Record pair_state := {
  converter : BrainDataConverter;
  generator : CommandGenerator;
  connector : CarConnector;
  outside : world
}.

(** [for command in commands: if command and not should_stop:
    connector.send_command(command)].  [should_stop] is a global flag that a
    signal handler sets from another thread: [stop k] is the value read
    before the command at position [k]. *)
Fixpoint send_commands (stop : nat → bool) (k : nat) (commands : list string)
    (c : CarConnector * world) : CarConnector * world :=
  match commands with
  | [] => c
  | command :: rest =>
      let c :=
        match command with
        | String _ _ =>
            if stop k then c else (send_command command c).2
        | EmptyString => c
        end in
      send_commands stop (S k) rest c
  end.

(** One pass through the body of the [while] loop of [run_control_loop], on
    the dictionary [get_essential_data] returned.  When the conversion
    returns [None] the generator, asked to look for keys in [None], catches
    the [TypeError] and returns no command, and the report that follows
    raises [AttributeError] on [control_signal.get]: the [except] clause of
    the loop catches it and nothing is sent.  The calls of [print] are taken
    to return, and no other thread touches the three objects during the
    pass; the pause that ends the pass leaves them as they are. *)
Definition run_control_loop_body (essential_data : gmap string pyval)
    (stop : nat → bool) (st : pair_state) : pair_state :=
  if has_key essential_data "attention" && has_key essential_data "meditation"
     && has_key essential_data "gyro"
  then
    let '(control_signal, conv) :=
      convert_essential_data (VDict essential_data) (converter st) in
    match control_signal with
    | Some signal =>
        let '(commands, gen) :=
          generate_commands_from_car_control (of_signal signal) (generator st) in
        let '(conn, w) :=
          send_commands stop 0 commands (connector st, outside st) in
        {| converter := conv; generator := gen; connector := conn;
           outside := w |}
    | None =>
        {| converter := conv; generator := generator st;
           connector := connector st; outside := outside st |}
    end
  else st.

End Main.

(** ** The calls on the serial port *)

Module TraceDefs.
Import Connector.

(** A call on the serial library, whatever came of it. *)
Inductive serial_call :=
| CallOpen (port : serial_port)
| CallWrite (port : serial_port) (data : string)
| CallClose (port : serial_port).

Definition call_of (e : serial_event) : serial_call :=
  match e with
  | Opened p _ => CallOpen p
  | Wrote p data _ => CallWrite p data
  | Closed p _ => CallClose p
  end.

(** The calls made so far, in order. *)
Definition calls (w : world) : list serial_call := map call_of (trace w).

(** The attributes of a connector agree: there is a serial port exactly when
    the connector is running, and exactly when a port name is kept. *)
Definition coherent (self : CarConnector) : Prop :=
  (serial self = None ↔ running self = false)
  ∧ (serial self = None ↔ port self = None).

(** The commands sent one after the other, the results ignored. *)
Definition send_all (commands : list string) (c : CarConnector * world)
    : CarConnector * world :=
  foldl (λ c command, (send_command command c).2) c commands.

(** The commands [send_command] does not refuse for being empty. *)
Definition nonempty (s : string) : bool :=
  match s with EmptyString => false | String _ _ => true end.

(** The calls that end a connection on port [p]. *)
Definition closing_calls (self : CarConnector) : list serial_call :=
  match serial self with
  | Some p =>
      if running self then [CallWrite p (frame "BSTD"); CallClose p] else []
  | None => []
  end.

End TraceDefs.

Module MainDefs.
Import Generator Connector Main TraceDefs.

(** The flag [should_stop] stays down. *)
Definition never (stop : nat → bool) : Prop := ∀ k, stop k = false.

End MainDefs.


(** ** Binary64 arithmetic keeps small numbers finite

    The operations of primitive floats are specified by the functions of
    [SpecFloat]; on these, a magnitude bound on the operands gives one on the
    result, so that no infinity or NaN can arise. *)

Module FloatBounds.
Import Magnitude.

Lemma small_weaken (B B' : Z) (x : spec_float) : B ≤ B' → small B x → small B' x.
Proof. destruct x; simpl; auto. lia. Qed.

Lemma digits2_pos_bounds (p : positive) :
  2 ^ (Z.pos (digits2_pos p) - 1) ≤ Z.pos p < 2 ^ Z.pos (digits2_pos p).
Proof.
  induction p as [p IH|p IH|]; simpl digits2_pos;
    rewrite ?Pos2Z.inj_succ.
  - replace (Z.succ (Z.pos (digits2_pos p)) - 1)
      with (Z.succ (Z.pos (digits2_pos p) - 1)) by lia.
    rewrite !Z.pow_succ_r by lia. lia.
  - replace (Z.succ (Z.pos (digits2_pos p)) - 1)
      with (Z.succ (Z.pos (digits2_pos p) - 1)) by lia.
    rewrite !Z.pow_succ_r by lia. lia.
  - simpl. lia.
Qed.

Lemma Zdigits2_nonneg (m : Z) : 0 ≤ Zdigits2 m.
Proof. destruct m; simpl; lia. Qed.

Lemma Zdigits2_lt (m : Z) : 0 ≤ m → m < 2 ^ Zdigits2 m.
Proof.
  destruct m as [|p|p]; simpl; [lia| |lia].
  intros _. apply digits2_pos_bounds.
Qed.

Lemma Zdigits2_le (m k : Z) : 0 ≤ k → 0 ≤ m < 2 ^ k → Zdigits2 m ≤ k.
Proof.
  intros Hk [Hm Hlt]. destruct m as [|p|p]; simpl; [lia| |lia].
  destruct (digits2_pos_bounds p) as [Hlo _].
  apply Z.nlt_ge. intros Hgt.
  assert (2 ^ k ≤ 2 ^ (Z.pos (digits2_pos p) - 1)) by (apply Z.pow_le_mono_r; lia).
  lia.
Qed.

Lemma shr_1_m (mrs : shr_record) :
  0 ≤ shr_m mrs → shr_m (shr_1 mrs) = shr_m mrs / 2.
Proof.
  destruct mrs as [m r s]. simpl. intros Hm.
  rewrite <- Z.div2_div.
  destruct m as [|[p|p|]|p]; simpl; try reflexivity; lia.
Qed.

Lemma iter_pos_shr_1 (p : positive) (mrs : shr_record) :
  0 ≤ shr_m mrs → shr_m (SpecFloat.iter_pos shr_1 p mrs) = shr_m mrs / 2 ^ Z.pos p.
Proof.
  revert mrs. induction p as [p IH|p IH|]; intros mrs Hm; simpl SpecFloat.iter_pos.
  - assert (H1 : 0 ≤ shr_m (shr_1 mrs)).
    { rewrite shr_1_m by assumption. apply Z.div_pos; lia. }
    assert (H2 : 0 ≤ shr_m (SpecFloat.iter_pos shr_1 p (shr_1 mrs))).
    { rewrite IH by assumption. apply Z.div_pos; [lia|apply Z.pow_pos_nonneg; lia]. }
    rewrite IH, IH, shr_1_m by assumption.
    rewrite !Z.div_div by (try apply Z.pow_pos_nonneg; lia).
    f_equal. rewrite (Pos2Z.inj_xI p).
    replace (2 * Z.pos p + 1) with (1 + Z.pos p + Z.pos p) by lia.
    rewrite !Z.pow_add_r by lia. lia.
  - assert (H2 : 0 ≤ shr_m (SpecFloat.iter_pos shr_1 p mrs)).
    { rewrite IH by assumption. apply Z.div_pos; [lia|apply Z.pow_pos_nonneg; lia]. }
    rewrite IH, IH by assumption.
    rewrite !Z.div_div by (try apply Z.pow_pos_nonneg; lia).
    f_equal. rewrite (Pos2Z.inj_xO p).
    replace (2 * Z.pos p) with (Z.pos p + Z.pos p) by lia.
    rewrite !Z.pow_add_r by lia. lia.
  - apply shr_1_m. assumption.
Qed.

Lemma fexp64 (e : Z) : fexp prec emax e = Z.max (e - 53) (-1074).
Proof. reflexivity. Qed.

Lemma shr_record_of_loc_m (m : Z) (l : location) :
  shr_m (shr_record_of_loc m l) = m.
Proof. destruct l as [|[]]; reflexivity. Qed.

Lemma div_pow2_digits (m n : Z) :
  0 ≤ m → 0 < n →
  0 ≤ m / 2 ^ n ∧ Zdigits2 (m / 2 ^ n) ≤ Z.max (Zdigits2 m - n) 0.
Proof.
  intros Hm Hn.
  assert (Hp : 0 < 2 ^ n) by (apply Z.pow_pos_nonneg; lia).
  split; [apply Z.div_pos; lia|].
  pose proof (Zdigits2_lt m Hm) as Hd.
  pose proof (Zdigits2_nonneg m) as Hd0.
  destruct (Z.le_gt_cases n (Zdigits2 m)) as [Hle|Hgt].
  - rewrite Z.max_l by lia. apply Zdigits2_le; [lia|].
    split; [apply Z.div_pos; lia|].
    apply Z.div_lt_upper_bound; [lia|].
    rewrite <- Z.pow_add_r by lia.
    replace (n + (Zdigits2 m - n)) with (Zdigits2 m) by lia. exact Hd.
  - rewrite Z.max_r by lia.
    rewrite Z.div_small; [reflexivity|].
    split; [lia|].
    eapply Z.lt_le_trans; [exact Hd|]. apply Z.pow_le_mono_r; lia.
Qed.

(** Shifting to the canonical exponent keeps the magnitude bound. *)
Lemma shr_fexp_bound (m e : Z) (l : location) (B : Z) :
  0 ≤ m → Zdigits2 m + e ≤ B → -1074 ≤ B →
  0 ≤ shr_m (shr_fexp prec emax m e l).1
  ∧ Zdigits2 (shr_m (shr_fexp prec emax m e l).1) + (shr_fexp prec emax m e l).2 ≤ B.
Proof.
  intros Hm Hd HB. unfold shr_fexp, shr. rewrite fexp64.
  destruct (Z.max (Zdigits2 m + e - 53) (-1074) - e) as [|p|p] eqn:Hn; simpl;
    rewrite ?shr_record_of_loc_m; try (split; [assumption|lia]).
  rewrite iter_pos_shr_1 by (rewrite shr_record_of_loc_m; assumption).
  rewrite shr_record_of_loc_m.
  destruct (div_pow2_digits m (Z.pos p) Hm ltac:(lia)) as [H0 H1].
  split; [assumption|]. lia.
Qed.

Lemma round_nearest_even_bound (m : Z) (l : location) :
  0 ≤ m →
  0 ≤ round_nearest_even m l
  ∧ Zdigits2 (round_nearest_even m l) ≤ Zdigits2 m + 1.
Proof.
  intros Hm.
  assert (Hs : 0 ≤ m + 1 ∧ Zdigits2 (m + 1) ≤ Zdigits2 m + 1).
  { split; [lia|]. pose proof (Zdigits2_nonneg m).
    apply Zdigits2_le; [lia|]. split; [lia|].
    pose proof (Zdigits2_lt m Hm). rewrite Z.pow_add_r by lia. lia. }
  unfold round_nearest_even.
  destruct l as [|[]]; try destruct (Z.even m); try (split; [assumption|lia]);
    exact Hs.
Qed.

(** Rounding a nonnegative mantissa: the result is a zero or a finite float,
    at most one binade above the bound of the input. *)
Lemma binary_round_aux_small (sx : bool) (mx ex : Z) (lx : location) (B : Z) :
  0 ≤ mx → Zdigits2 mx + ex ≤ B → -1074 ≤ B ≤ 970 →
  small (B + 1) (binary_round_aux prec emax sx mx ex lx).
Proof.
  intros Hm Hd HB. unfold binary_round_aux.
  destruct (shr_fexp_bound mx ex lx B Hm Hd ltac:(lia)) as [H0 H1].
  destruct (shr_fexp prec emax mx ex lx) as [mrs' e']. simpl in H0, H1.
  destruct (round_nearest_even_bound (shr_m mrs') (loc_of_shr_record mrs') H0)
    as [H2 H3].
  set (m1 := round_nearest_even (shr_m mrs') (loc_of_shr_record mrs')) in *.
  destruct (shr_fexp_bound m1 e' loc_Exact (B + 1) H2 ltac:(lia) ltac:(lia))
    as [H4 H5].
  destruct (shr_fexp prec emax m1 e' loc_Exact) as [mrs'' e'']. simpl in H4, H5.
  destruct (shr_m mrs'') as [|p|p]; simpl in *; [exact I| |lia].
  destruct (Z.leb_spec e'' (emax - prec)) as [_|Hgt]; simpl; [lia|].
  unfold emax, prec in Hgt. lia.
Qed.

Lemma digits_pos (p : positive) : Zdigits2 (Z.pos p) = Z.pos (digits2_pos p).
Proof. reflexivity. Qed.

Lemma pos_lt_pow_digits (p : positive) : Z.pos p < 2 ^ Z.pos (digits2_pos p).
Proof. apply digits2_pos_bounds. Qed.

(** The product of two small floats is small. *)
Lemma SFmul_small (x y : spec_float) (B1 B2 : Z) :
  small B1 x → small B2 y → -1074 ≤ B1 + B2 ≤ 970 →
  small (B1 + B2 + 1) (SF64mul x y).
Proof.
  destruct x as [sx|sx| |sx mx ex]; destruct y as [sy|sy| |sy my ey];
    simpl; try tauto.
  intros Hx Hy HB.
  apply binary_round_aux_small; [lia| |lia].
  assert (Zdigits2 (Z.pos (mx * my))
          ≤ Z.pos (digits2_pos mx) + Z.pos (digits2_pos my)); [|lia].
  apply Zdigits2_le; [lia|]. split; [lia|].
  rewrite Z.pow_add_r by lia. rewrite Pos2Z.inj_mul.
  pose proof (pos_lt_pow_digits mx). pose proof (pos_lt_pow_digits my).
  nia.
Qed.

(** The quotient of a small float by a finite nonzero float is small. *)
Lemma SFdiv_small (x : spec_float) (sy : bool) (my : positive) (ey : Z) (B1 : Z) :
  small B1 x →
  let D := Z.pos (digits2_pos my) + ey in
  -1074 ≤ B1 - D + 1 ≤ 970 →
  small (B1 - D + 2) (SF64div x (S754_finite sy my ey)).
Proof.
  intros Hx D HB.
  destruct x as [sx|sx| |sx mx ex]; simpl in *; try tauto.
  unfold SFdiv_core_binary. rewrite fexp64, !digits_pos.
  set (d1 := Z.pos (digits2_pos mx)) in *.
  set (d2 := Z.pos (digits2_pos my)) in *.
  set (e' := Z.min (Z.max (d1 + ex - (d2 + ey) - 53) (-1074)) (ex - ey)).
  set (s := ex - ey - e').
  assert (Hs : 0 ≤ s) by (unfold s, e'; lia).
  set (m' := match s with
             | 0 => Z.pos mx
             | Z.pos _ => Z.shiftl (Z.pos mx) s
             | Z.neg _ => 0
             end).
  assert (Hm' : m' = Z.pos mx * 2 ^ s).
  { unfold m'. destruct s as [|p|p] eqn:Es; [simpl; lia| |lia].
    apply Z.shiftl_mul_pow2. lia. }
  clearbody m'.
  assert (Hdiv : Z.div_eucl m' (Z.pos my) = (m' / Z.pos my, m' mod Z.pos my)).
  { unfold Z.div, Z.modulo. destruct (Z.div_eucl m' (Z.pos my)); reflexivity. }
  rewrite Hdiv.
  replace (B1 - D + 2) with (B1 - D + 1 + 1) by lia.
  assert (H2s : 0 < 2 ^ s) by (apply Z.pow_pos_nonneg; lia).
  assert (Hq0 : 0 ≤ m' / Z.pos my) by (apply Z.div_pos; nia).
  apply binary_round_aux_small; [exact Hq0| |lia].
  pose proof (pos_lt_pow_digits mx) as Hmx. fold d1 in Hmx.
  destruct (digits2_pos_bounds my) as [Hmy _]. fold d2 in Hmy.
  set (K := d1 + s - d2 + 1).
  assert (Hq : Zdigits2 (m' / Z.pos my) ≤ Z.max K 0).
  { destruct (Z.le_gt_cases 0 K) as [HK|HK].
    - rewrite Z.max_l by lia. apply Zdigits2_le; [lia|].
      split; [exact Hq0|].
      apply Z.div_lt_upper_bound; [lia|].
      assert (2 ^ (d1 + s) = 2 ^ (d2 - 1) * 2 ^ K) as Hpow.
      { rewrite <- Z.pow_add_r by lia. f_equal. unfold K. lia. }
      assert (m' < 2 ^ (d1 + s)).
      { rewrite Hm', Z.pow_add_r by lia. nia. }
      assert (0 < 2 ^ K) by (apply Z.pow_pos_nonneg; lia).
      nia.
    - rewrite Z.max_r by lia. rewrite Z.div_small; [reflexivity|].
      split; [nia|].
      assert (m' < 2 ^ (d1 + s)).
      { rewrite Hm', Z.pow_add_r by lia. nia. }
      assert (2 ^ (d1 + s) ≤ 2 ^ (d2 - 1)) by (apply Z.pow_le_mono_r; lia).
      lia. }
  unfold K, s in Hq. unfold D. lia.
Qed.

Lemma pos_iter_xO (m d : positive) :
  Z.pos (Pos.iter xO m d) = Z.pos m * 2 ^ Z.pos d.
Proof.
  revert m. induction d as [|d IH] using Pos.peano_ind; intros m.
  - simpl. lia.
  - rewrite Pos.iter_succ, Pos2Z.inj_xO, IH, Pos2Z.inj_succ, Z.pow_succ_r by lia.
    lia.
Qed.

(** Aligning a mantissa to a lower exponent keeps the value. *)
Lemma shl_align_value (m : positive) (e e' : Z) :
  (shl_align m e e').2 ≤ e
  ∧ Z.pos (shl_align m e e').1 = Z.pos m * 2 ^ (e - (shl_align m e e').2).
Proof.
  unfold shl_align. destruct (e' - e) as [|d|d] eqn:Hd; simpl;
    rewrite ?Z.sub_diag, ?Z.mul_1_r; try (split; [lia|reflexivity]).
  split; [lia|]. rewrite pos_iter_xO. do 2 f_equal. lia.
Qed.

Lemma shifted_lt (m : positive) (k e B : Z) :
  0 ≤ k → Z.pos (digits2_pos m) + e ≤ B →
  Z.pos m * 2 ^ k < 2 ^ (B - e + k).
Proof.
  intros Hk Hd. pose proof (pos_lt_pow_digits m) as Hm.
  assert (2 ^ Z.pos (digits2_pos m) ≤ 2 ^ (B - e)) by (apply Z.pow_le_mono_r; lia).
  rewrite Z.pow_add_r by lia.
  assert (0 < 2 ^ k) by (apply Z.pow_pos_nonneg; lia). nia.
Qed.

Lemma binary_round_small (sx : bool) (m : positive) (e B : Z) :
  Z.pos m < 2 ^ (B - e) → 0 ≤ B - e → -1074 ≤ B ≤ 970 →
  small (B + 1) (binary_round prec emax sx m e).
Proof.
  intros Hm He HB. unfold binary_round.
  destruct (shl_align_value m e (fexp prec emax (Z.pos (digits2_pos m) + e)))
    as [H1 H2].
  destruct (shl_align m e _) as [mz ez]. simpl in H1, H2.
  apply binary_round_aux_small; [lia| |lia].
  assert (Zdigits2 (Z.pos mz) ≤ B - ez); [|lia].
  apply Zdigits2_le; [lia|]. split; [lia|].
  rewrite H2. replace (B - ez) with (B - e + (e - ez)) by lia.
  rewrite Z.pow_add_r by lia.
  assert (0 < 2 ^ (e - ez)) by (apply Z.pow_pos_nonneg; lia). nia.
Qed.

Lemma binary_normalize_small (m e B : Z) (szero : bool) :
  Z.abs m < 2 ^ (B - e) → 0 ≤ B - e → -1074 ≤ B ≤ 970 →
  small (B + 1) (binary_normalize prec emax m e szero).
Proof.
  intros Hm He HB. destruct m as [|p|p]; simpl; [exact I| |];
    apply binary_round_small; assumption || lia.
Qed.

(** The aligned mantissas of a sum or a difference. *)
Lemma aligned_sum_small (sx sy : bool) (mx my : positive) (ex ey B : Z)
    (op : Z → Z → Z) :
  (∀ a b, Z.abs (op a b) ≤ Z.abs a + Z.abs b) →
  Z.pos (digits2_pos mx) + ex ≤ B → Z.pos (digits2_pos my) + ey ≤ B →
  -1074 ≤ B + 1 ≤ 970 →
  small (B + 2)
    (binary_normalize prec emax
       (op (cond_Zopp sx (Z.pos (shl_align mx ex (Z.min ex ey)).1))
           (cond_Zopp sy (Z.pos (shl_align my ey (Z.min ex ey)).1)))
       (Z.min ex ey) false).
Proof.
  intros Hop Hx Hy HB.
  set (ez := Z.min ex ey).
  assert (Hax : Z.pos (shl_align mx ex ez).1 < 2 ^ (B - ez)).
  { unfold shl_align. destruct (ez - ex) as [|d|d] eqn:Hd; simpl.
    - replace ez with ex by lia.
      replace (B - ex) with (B - ex + 0) by lia.
      rewrite <- (Z.mul_1_r (Z.pos mx)), <- (Z.pow_0_r 2) at 1.
      apply shifted_lt; lia.
    - unfold ez in Hd. lia.
    - rewrite pos_iter_xO. replace (B - ez) with (B - ex + Z.pos d) by lia.
      apply shifted_lt; lia. }
  assert (Hay : Z.pos (shl_align my ey ez).1 < 2 ^ (B - ez)).
  { unfold shl_align. destruct (ez - ey) as [|d|d] eqn:Hd; simpl.
    - replace ez with ey by lia.
      replace (B - ey) with (B - ey + 0) by lia.
      rewrite <- (Z.mul_1_r (Z.pos my)), <- (Z.pow_0_r 2) at 1.
      apply shifted_lt; lia.
    - unfold ez in Hd. lia.
    - rewrite pos_iter_xO. replace (B - ez) with (B - ey + Z.pos d) by lia.
      apply shifted_lt; lia. }
  replace (B + 2) with (B + 1 + 1) by lia.
  apply binary_normalize_small; [|unfold ez; lia|lia].
  replace (B + 1 - ez) with (Z.succ (B - ez)) by lia.
  rewrite Z.pow_succ_r by (unfold ez; lia).
  eapply Z.le_lt_trans; [apply Hop|].
  assert (∀ b z, Z.abs (cond_Zopp b z) = Z.abs z) as Habs
    by (intros [] z; simpl; lia).
  rewrite !Habs. simpl Z.abs. lia.
Qed.

(** The sum and the difference of two small floats are small. *)
Lemma SFadd_small (x y : spec_float) (B : Z) :
  small B x → small B y → -1074 ≤ B + 1 ≤ 970 →
  small (B + 2) (SF64add x y).
Proof.
  destruct x as [sx|sx| |sx mx ex]; destruct y as [sy|sy| |sy my ey];
    simpl; try tauto; intros Hx Hy HB.
  - destruct sx, sy; exact I.
  - lia.
  - lia.
  - apply (aligned_sum_small sx sy mx my ex ey B Z.add); try assumption.
    intros a b. lia.
Qed.

Lemma SFsub_small (x y : spec_float) (B : Z) :
  small B x → small B y → -1074 ≤ B + 1 ≤ 970 →
  small (B + 2) (SF64sub x y).
Proof.
  destruct x as [sx|sx| |sx mx ex]; destruct y as [sy|sy| |sy my ey];
    simpl; try tauto; intros Hx Hy HB.
  - destruct sx, sy; exact I.
  - lia.
  - lia.
  - apply (aligned_sum_small sx sy mx my ex ey B Z.sub); try assumption.
    intros a b. lia.
Qed.

End FloatBounds.

(** ** Binary64 arithmetic rounds to nearest

    The operations of [SpecFloat] on positive operands return the rounding
    to nearest, ties to even, of the exact result; rounding is monotone. *)

Module RealFacts.
Import RealValue.

Lemma bpow_pos (e : Z) : (0 < bpow e)%R.
Proof. apply powerRZ_lt. lra. Qed.

Lemma bpow_add (a b : Z) : bpow (a + b) = (bpow a * bpow b)%R.
Proof. apply powerRZ_add. lra. Qed.

Lemma bpow_IZR (e : Z) : 0 ≤ e → bpow e = IZR (2 ^ e).
Proof.
  intros He. unfold bpow. destruct e as [|p|p]; [reflexivity| |lia].
  simpl powerRZ. rewrite pow_IZR. f_equal. rewrite positive_nat_Z. reflexivity.
Qed.

Lemma bpow_0 : bpow 0 = 1%R.
Proof. reflexivity. Qed.

Lemma bpow_1 : bpow 1 = 2%R.
Proof. unfold bpow. simpl. lra. Qed.

Lemma bpow_lt (a b : Z) : a < b → (bpow a < bpow b)%R.
Proof.
  intros H. replace b with (a + (b - a)) by lia. rewrite bpow_add.
  assert (2 <= bpow (b - a))%R.
  { rewrite bpow_IZR by lia. apply IZR_le.
    replace (b - a) with (Z.succ (b - a - 1)) by lia.
    rewrite Z.pow_succ_r by lia.
    assert (0 < 2 ^ (b - a - 1)) by (apply Z.pow_pos_nonneg; lia). lia. }
  pose proof (bpow_pos a). nra.
Qed.

Lemma bpow_le (a b : Z) : a ≤ b → (bpow a <= bpow b)%R.
Proof.
  intros H. destruct (Z.eq_dec a b) as [->|Hne]; [lra|].
  apply Rlt_le, bpow_lt. lia.
Qed.

Lemma bpow_lt_inv (a b : Z) : (bpow a < bpow b)%R → a < b.
Proof.
  intros H. destruct (Z.lt_ge_cases a b) as [|Hge]; [assumption|].
  pose proof (bpow_le b a Hge). lra.
Qed.

Lemma bpow_succ (e : Z) : bpow (e + 1) = (2 * bpow e)%R.
Proof. rewrite bpow_add, bpow_1. lra. Qed.

Lemma bpow_pred (e : Z) : bpow (e - 1) = (bpow e / 2)%R.
Proof.
  replace e with (e - 1 + 1) at 2 by lia. rewrite bpow_succ. lra.
Qed.

Lemma bpow_div (a b : Z) : (bpow a / bpow b)%R = bpow (a - b).
Proof.
  replace a with (a - b + b) at 1 by lia. rewrite bpow_add.
  pose proof (bpow_pos b). field. lra.
Qed.

(** ** Nearest integers *)

Lemma rne_exact (n : Z) : rne (IZR n) n.
Proof. split; [lra|]. intros [H|H]; lra. Qed.

Lemma rne_ge (u : R) (m n : Z) : (IZR n <= u)%R → rne u m → n ≤ m.
Proof.
  intros Hu [[_ Hhi] _].
  assert (IZR n < IZR (m + 1))%R by (rewrite plus_IZR; lra).
  apply lt_IZR in H. lia.
Qed.

Lemma rne_le (u : R) (m n : Z) : (u <= IZR n)%R → rne u m → m ≤ n.
Proof.
  intros Hu [[Hlo _] _].
  assert (IZR m < IZR (n + 1))%R by (rewrite plus_IZR; lra).
  apply lt_IZR in H. lia.
Qed.

Lemma rne_mono (u1 u2 : R) (m1 m2 : Z) :
  (u1 <= u2)%R → rne u1 m1 → rne u2 m2 → m1 ≤ m2.
Proof.
  intros Hu [[Hlo1 Hhi1] He1] [[Hlo2 Hhi2] He2].
  destruct (Z.le_gt_cases m1 m2) as [|Hgt]; [assumption|exfalso].
  assert (IZR m2 + 1 <= IZR m1)%R.
  { rewrite <- plus_IZR. apply IZR_le. lia. }
  assert (Hm : m1 = m2 + 1).
  { apply eq_IZR. rewrite plus_IZR. lra. }
  assert (Z.even m1 = true) by (apply He1; left; lra).
  assert (Z.even m2 = true) by (apply He2; right; lra).
  subst m1. rewrite Z.add_1_r, Z.even_succ, <- Z.negb_even in H0.
  rewrite H1 in H0. discriminate.
Qed.

Lemma inb_bounds (u : R) (m : Z) (l : location) :
  inb u m l → (IZR m <= u < IZR m + 1)%R.
Proof. destruct l as [|[]]; simpl; lra. Qed.

Lemma rne_round (u : R) (m : Z) (l : location) :
  inb u m l → rne u (round_nearest_even m l).
Proof.
  destruct l as [|[]]; simpl; intros H.
  - subst u. apply rne_exact.
  - subst u. destruct (Z.even m) eqn:E.
    + split; [lra|]. intros _. exact E.
    + split; [rewrite plus_IZR; lra|]. intros _.
      rewrite Z.add_1_r, Z.even_succ, <- Z.negb_even, E. reflexivity.
  - split; [lra|]. intros [H'|H']; lra.
  - split; [rewrite plus_IZR; lra|]. rewrite plus_IZR. intros [H'|H']; lra.
Qed.

End RealFacts.

Module ShiftFacts.
Import Magnitude FloatBounds RealValue RealFacts.

Lemma IZR_xO (p : positive) : IZR (Z.pos p~0) = (2 * IZR (Z.pos p))%R.
Proof. rewrite Pos2Z.inj_xO, mult_IZR. reflexivity. Qed.

Lemma IZR_xI (p : positive) : IZR (Z.pos p~1) = (2 * IZR (Z.pos p) + 1)%R.
Proof. rewrite Pos2Z.inj_xI, plus_IZR, mult_IZR. reflexivity. Qed.

(** One step of the right shift halves the number and keeps its location. *)
Lemma inb_shr_1 (u : R) (mrs : shr_record) :
  0 ≤ shr_m mrs →
  inb u (shr_m mrs) (loc_of_shr_record mrs) →
  inb (u / 2) (shr_m (shr_1 mrs)) (loc_of_shr_record (shr_1 mrs)).
Proof.
  destruct mrs as [m r s]. cbn [shr_m]. intros Hm.
  destruct m as [|[p|p|]|p]; [| | | |exfalso; lia];
    destruct r, s; cbn [shr_1 shr_m loc_of_shr_record inb orb];
    try rewrite (IZR_xO p); try rewrite (IZR_xI p); intros H; lra.
Qed.

Lemma inb_iter_shr (p : positive) (u : R) (mrs : shr_record) :
  0 ≤ shr_m mrs →
  inb u (shr_m mrs) (loc_of_shr_record mrs) →
  inb (u / bpow (Z.pos p)) (shr_m (SpecFloat.iter_pos shr_1 p mrs))
      (loc_of_shr_record (SpecFloat.iter_pos shr_1 p mrs)).
Proof.
  revert u mrs. induction p as [p IH|p IH|]; intros u mrs Hm H;
    simpl SpecFloat.iter_pos.
  - assert (H1 : 0 ≤ shr_m (shr_1 mrs)).
    { rewrite shr_1_m by assumption. apply Z.div_pos; lia. }
    assert (H2 : 0 ≤ shr_m (SpecFloat.iter_pos shr_1 p (shr_1 mrs))).
    { rewrite iter_pos_shr_1 by assumption.
      apply Z.div_pos; [lia|apply Z.pow_pos_nonneg; lia]. }
    replace (u / bpow (Z.pos p~1))%R
      with (u / 2 / bpow (Z.pos p) / bpow (Z.pos p))%R.
    + apply IH; [assumption|]. apply IH; [assumption|].
      apply inb_shr_1; assumption.
    + rewrite (Pos2Z.inj_xI p).
      replace (2 * Z.pos p + 1) with (1 + Z.pos p + Z.pos p) by lia.
      rewrite !bpow_add, bpow_1. pose proof (bpow_pos (Z.pos p)). field. lra.
  - assert (H2 : 0 ≤ shr_m (SpecFloat.iter_pos shr_1 p mrs)).
    { rewrite iter_pos_shr_1 by assumption.
      apply Z.div_pos; [lia|apply Z.pow_pos_nonneg; lia]. }
    replace (u / bpow (Z.pos p~0))%R with (u / bpow (Z.pos p) / bpow (Z.pos p))%R.
    + apply IH; [assumption|]. apply IH; assumption.
    + rewrite (Pos2Z.inj_xO p).
      replace (2 * Z.pos p) with (Z.pos p + Z.pos p) by lia.
      rewrite !bpow_add. pose proof (bpow_pos (Z.pos p)). field. lra.
  - rewrite bpow_1. apply inb_shr_1; assumption.
Qed.

Lemma loc_of_shr_record_of_loc (m : Z) (l : location) :
  loc_of_shr_record (shr_record_of_loc m l) = l.
Proof. destruct l as [|[]]; reflexivity. Qed.

(** The shift to the exponent [e + n] of a number located at exponent
    [e]. *)
Lemma inb_shr (m e n : Z) (l : location) (v : R) :
  0 ≤ m → inb (v / bpow e) m l →
  let r := shr (shr_record_of_loc m l) e n in
  0 ≤ shr_m r.1
  ∧ r.2 = e + Z.max n 0
  ∧ inb (v / bpow r.2) (shr_m r.1) (loc_of_shr_record r.1).
Proof.
  intros Hm H. unfold shr.
  destruct n as [|p|p]; simpl;
    rewrite ?shr_record_of_loc_m, ?loc_of_shr_record_of_loc.
  - rewrite Z.add_0_r. auto.
  - split; [|split; [lia|]].
    + rewrite iter_pos_shr_1 by (rewrite shr_record_of_loc_m; assumption).
      rewrite shr_record_of_loc_m.
      apply Z.div_pos; [lia|apply Z.pow_pos_nonneg; lia].
    + replace (v / bpow (e + Z.pos p))%R with (v / bpow e / bpow (Z.pos p))%R.
      * apply inb_iter_shr;
          rewrite ?shr_record_of_loc_m, ?loc_of_shr_record_of_loc; assumption.
      * rewrite bpow_add. pose proof (bpow_pos e). pose proof (bpow_pos (Z.pos p)).
        field. lra.
  - rewrite Z.add_0_r. auto.
Qed.

(** ** Magnitudes *)

Lemma mag_le (v1 v2 : R) (k1 k2 : Z) :
  mag v1 k1 → mag v2 k2 → (v1 <= v2)%R → k1 ≤ k2.
Proof.
  intros [H1 _] [_ H2] Hv.
  assert (bpow (k1 - 1) < bpow k2)%R by lra.
  apply bpow_lt_inv in H. lia.
Qed.

Lemma mag_unique (v : R) (k1 k2 : Z) : mag v k1 → mag v k2 → k1 = k2.
Proof.
  intros H1 H2.
  pose proof (mag_le v v k1 k2 H1 H2 ltac:(lra)).
  pose proof (mag_le v v k2 k1 H2 H1 ltac:(lra)). lia.
Qed.

Lemma IZR_digits (m : Z) :
  0 < m → (bpow (Zdigits2 m - 1) <= IZR m ∧ IZR m + 1 <= bpow (Zdigits2 m))%R.
Proof.
  intros Hm. destruct m as [|p|p]; try lia.
  destruct (digits2_pos_bounds p) as [Hlo Hhi]. simpl Zdigits2.
  rewrite !bpow_IZR by lia. split.
  - apply IZR_le. exact Hlo.
  - rewrite <- plus_IZR. apply IZR_le. lia.
Qed.

(** The magnitude of a number located above a positive mantissa. *)
Lemma mag_located (m e : Z) (l : location) (v : R) :
  0 < m → inb (v / bpow e) m l → mag v (Zdigits2 m + e).
Proof.
  intros Hm H%inb_bounds. destruct (IZR_digits m Hm) as [Hlo Hhi].
  pose proof (bpow_pos e) as He.
  assert (Hv : v = (v / bpow e * bpow e)%R) by (field; lra).
  revert H Hv. generalize (v / bpow e)%R. intros u H ->.
  unfold mag.
  replace (Zdigits2 m + e - 1) with (Zdigits2 m - 1 + e) by lia.
  rewrite !bpow_add. split.
  - apply Rmult_le_compat_r; lra.
  - apply Rmult_lt_compat_r; lra.
Qed.

End ShiftFacts.

Module RoundFacts.
Import Magnitude FloatBounds RealValue RealFacts ShiftFacts RoundDefs.

Lemma binary_round_aux_pack (sx : bool) (mx ex : Z) (lx : location) :
  binary_round_aux prec emax sx mx ex lx
  = pack sx (round_nearest_even (shr_m (shr_fexp prec emax mx ex lx).1)
                                (loc_of_shr_record (shr_fexp prec emax mx ex lx).1))
            (shr_fexp prec emax mx ex lx).2.
Proof.
  unfold binary_round_aux, pack.
  destruct (shr_fexp prec emax mx ex lx) as [mrs' e']. reflexivity.
Qed.

Lemma fexp_mono (a b : Z) : a ≤ b → fexp prec emax a ≤ fexp prec emax b.
Proof. rewrite !fexp64. lia. Qed.

(** Packing keeps the value when the mantissa needs no shift, or only one
    that drops zero bits. *)
Lemma pack_value (m e B : Z) :
  0 ≤ m →
  (let n := fexp prec emax (Zdigits2 m + e) - e in
   n ≤ 0 ∨ (0 < n ∧ Z.modulo m (2 ^ n) = 0)) →
  Zdigits2 m + e ≤ B → B ≤ 972 →
  V (pack false m e) = (IZR m * bpow e)%R.
Proof.
  intros Hm Hn Hd HB. unfold pack, shr_fexp, shr.
  cbv zeta in Hn.
  destruct (fexp prec emax (Zdigits2 m + e) - e) as [|p|p] eqn:En.
  - rewrite shr_record_of_loc_m.
    destruct m as [|q|q]; [simpl; lra| |lia].
    assert ((e <=? emax - prec) = true) as ->.
    { apply Z.leb_le. unfold emax, prec. simpl Zdigits2 in Hd. lia. }
    reflexivity.
  - destruct Hn as [Hn|[_ Hn]]; [lia|].
    rewrite iter_pos_shr_1 by (rewrite shr_record_of_loc_m; assumption).
    rewrite shr_record_of_loc_m.
    assert (Hp : 0 < 2 ^ Z.pos p) by (apply Z.pow_pos_nonneg; lia).
    assert (Hdiv : m = m / 2 ^ Z.pos p * 2 ^ Z.pos p).
    { pose proof (Z.div_mod m (2 ^ Z.pos p) ltac:(lia)). lia. }
    destruct (div_pow2_digits m (Z.pos p) Hm ltac:(lia)) as [Hq0 Hqd].
    destruct (m / 2 ^ Z.pos p) as [|q|q] eqn:Eq; [|  |lia].
    + assert (m = 0) as -> by lia. cbn [V]. lra.
    + assert ((e + Z.pos p <=? emax - prec) = true) as ->.
      { apply Z.leb_le. unfold emax, prec. simpl Zdigits2 in Hqd. lia. }
      cbn [V]. rewrite Hdiv, mult_IZR, bpow_add.
      rewrite (bpow_IZR (Z.pos p)) by lia. lra.
  - rewrite shr_record_of_loc_m.
    destruct m as [|q|q]; [simpl; lra| |lia].
    assert ((e <=? emax - prec) = true) as ->.
    { apply Z.leb_le. unfold emax, prec. simpl Zdigits2 in Hd. lia. }
    reflexivity.
Qed.

Lemma rne_nonneg (u : R) (m : Z) : (0 <= u)%R → rne u m → 0 ≤ m.
Proof. intros Hu H. apply (rne_ge u m 0); assumption. Qed.

(** [binary_round_aux] rounds to nearest, ties to even: given a positive
    real located by a mantissa at an exponent not above the canonical one
    (or given exactly), the float it returns is the rounding of that real. *)
Lemma binary_round_aux_correct (mx ex : Z) (lx : location) (v : R) (k B : Z) :
  0 ≤ mx → (0 < v)%R → inb (v / bpow ex) mx lx → mag v k →
  ex ≤ fexp prec emax k ∨ lx = loc_Exact →
  Zdigits2 mx + ex ≤ B → -1074 ≤ B ≤ 970 →
  rounded v (binary_round_aux prec emax false mx ex lx).
Proof.
  intros Hmx Hv Hin Hk Hcase Hd HB.
  rewrite binary_round_aux_pack.
  destruct (shr_fexp_bound mx ex lx B Hmx Hd ltac:(lia)) as [_ Hb1].
  pose proof (inb_shr mx ex (fexp prec emax (Zdigits2 mx + ex) - ex) lx v Hmx Hin)
    as (H0 & He & Hin').
  cbv zeta in H0, He, Hin'.
  change (shr (shr_record_of_loc mx lx) ex
              (fexp prec emax (Zdigits2 mx + ex) - ex))
    with (shr_fexp prec emax mx ex lx) in *.
  set (r := shr_fexp prec emax mx ex lx) in *.
  pose proof (rne_round _ _ _ Hin') as Hrne.
  destruct (round_nearest_even_bound (shr_m r.1) (loc_of_shr_record r.1) H0)
    as [Hm1 Hd1].
  set (m1 := round_nearest_even (shr_m r.1) (loc_of_shr_record r.1)) in *.
  pose proof (bpow_pos ex) as Hpex.
  exists k.
  destruct (Z.le_gt_cases ex (fexp prec emax k)) as [Hle|Hgt].
  - (* the mantissa is shifted to the canonical exponent, then rounded *)
    assert (He' : r.2 = fexp prec emax k).
    { rewrite He. destruct (Z.eq_dec mx 0) as [->|Hne].
      - apply inb_bounds in Hin. destruct Hk as [Hk1 Hk2].
        assert (v < bpow ex)%R.
        { apply (Rmult_lt_reg_r (/ bpow ex)); [apply Rinv_0_lt_compat; lra|].
          rewrite Rinv_r by lra. unfold Rdiv in Hin. lra. }
        assert (k - 1 < ex) by (apply bpow_lt_inv; lra).
        simpl Zdigits2. rewrite !fexp64 in *. lia.
      - assert (k = Zdigits2 mx + ex).
        { eapply mag_unique; [exact Hk|].
          eapply mag_located; [lia|exact Hin]. }
        subst k. lia. }
    exists m1. split; [exact Hk|]. split; [rewrite <- He'; exact Hrne|].
    rewrite <- He'.
    apply (pack_value m1 r.2 (B + 1)); [assumption| |lia|lia].
    cbv zeta.
    assert (Hu : (v / bpow r.2 < bpow (k - r.2))%R).
    { rewrite <- bpow_div. destruct Hk as [_ Hk2]. pose proof (bpow_pos r.2).
      apply Rmult_lt_compat_r; [apply Rinv_0_lt_compat; lra|lra]. }
    destruct (Z.lt_ge_cases (k - r.2) 0) as [Hneg|Hpos].
    + assert (m1 = 0).
      { assert (bpow (k - r.2) <= bpow (-1))%R by (apply bpow_le; lia).
        replace (bpow (-1)) with (/ 2)%R in H by (unfold bpow; simpl; lra).
        destruct Hrne as [[Hlo _] _].
        assert (IZR m1 < IZR 1)%R by lra. apply lt_IZR in H1. lia. }
      rewrite H. simpl Zdigits2. rewrite He', !fexp64. left. lia.
    + rewrite (bpow_IZR (k - r.2)) in Hu by assumption.
      assert (Hle1 : m1 ≤ 2 ^ (k - r.2)).
      { apply (rne_le (v / bpow r.2)); [lra|exact Hrne]. }
      destruct (Z.eq_dec m1 (2 ^ (k - r.2))) as [Heq|Hne].
      * assert (Zdigits2 m1 ≤ k - r.2 + 1).
        { apply Zdigits2_le; [lia|]. split; [lia|].
          rewrite Heq, Z.pow_add_r by lia. simpl (2 ^ 1).
          assert (0 < 2 ^ (k - r.2)) by (apply Z.pow_pos_nonneg; lia). lia. }
        destruct (Z.le_gt_cases (fexp prec emax (Zdigits2 m1 + r.2) - r.2) 0)
          as [Hn|Hn]; [left; exact Hn|right].
        split; [exact Hn|].
        assert (fexp prec emax (Zdigits2 m1 + r.2) - r.2 = 1) as ->
          by (rewrite He', !fexp64 in *; lia).
        assert (1 ≤ k - r.2) by (rewrite He', !fexp64 in *; lia).
        rewrite Heq. replace (k - r.2) with (Z.succ (k - r.2 - 1)) by lia.
        rewrite Z.pow_succ_r by lia. simpl (2 ^ 1).
        rewrite Z.mul_comm. apply Z.mod_mul. lia.
      * left. assert (Zdigits2 m1 ≤ k - r.2) by (apply Zdigits2_le; lia).
        rewrite He', !fexp64 in *. lia.
  - (* an exact value above the canonical exponent is returned as it is *)
    destruct Hcase as [Hc|Hc]; [lia|]. subst lx. simpl in Hin.
    assert (Hmx0 : 0 < mx).
    { destruct (Z.eq_dec mx 0) as [->|]; [|lia].
      unfold Rdiv in Hin. assert (v * / bpow ex <> 0)%R; [|lra].
      apply Rmult_integral_contrapositive_currified; [lra|].
      apply Rinv_neq_0_compat. lra. }
    assert (k = Zdigits2 mx + ex).
    { eapply mag_unique; [exact Hk|].
      apply (mag_located mx ex loc_Exact); [lia|exact Hin]. }
    assert (He' : r.2 = ex) by (rewrite He, <- H; lia).
    rewrite He' in *. rewrite Hin in Hrne.
    assert (m1 = mx).
    { pose proof (rne_ge (IZR mx) m1 mx ltac:(lra) Hrne).
      pose proof (rne_le (IZR mx) m1 mx ltac:(lra) Hrne). lia. }
    rewrite H1.
    assert (Hval : V (pack false mx ex) = (IZR mx * bpow ex)%R).
    { apply (pack_value mx ex B); [lia| |lia|lia]. cbv zeta. left. lia. }
    set (d := ex - fexp prec emax k) in *.
    assert (Hd0 : 0 ≤ d) by (unfold d; lia).
    exists (mx * 2 ^ d).
    assert (Hex : bpow ex = (bpow d * bpow (fexp prec emax k))%R).
    { rewrite <- bpow_add. f_equal. unfold d. lia. }
    pose proof (bpow_pos (fexp prec emax k)) as Hpf.
    split; [exact Hk|]. split.
    + replace (v / bpow (fexp prec emax k))%R with (IZR (mx * 2 ^ d)).
      * apply rne_exact.
      * rewrite mult_IZR, <- bpow_IZR by assumption.
        assert (v = (IZR mx * bpow ex)%R).
        { rewrite <- Hin. field. lra. }
        rewrite H2, Hex. field. lra.
    + rewrite Hval, mult_IZR, <- bpow_IZR, Hex by assumption. ring.
Qed.

End RoundFacts.

Module MonoFacts.
Import Magnitude FloatBounds RealValue RealFacts ShiftFacts RoundDefs.
Import RoundFacts.

Lemma rounded_nonneg (v : R) (x : spec_float) :
  (0 < v)%R → rounded v x → (0 <= V x)%R.
Proof.
  intros Hv (k & m & Hk & Hr & ->).
  pose proof (bpow_pos (fexp prec emax k)) as Hp.
  assert (0 ≤ m).
  { apply (rne_nonneg (v / bpow (fexp prec emax k))); [|exact Hr].
    apply Rlt_le, Rdiv_lt_0_compat; lra. }
  apply IZR_le in H. nra.
Qed.

(** Rounding to nearest is monotone. *)
Lemma rounded_mono (v1 v2 : R) (x1 x2 : spec_float) :
  (0 < v1 <= v2)%R → rounded v1 x1 → rounded v2 x2 → (V x1 <= V x2)%R.
Proof.
  intros [Hv1 Hv] (k1 & m1 & Hk1 & Hr1 & ->) (k2 & m2 & Hk2 & Hr2 & ->).
  pose proof (mag_le v1 v2 k1 k2 Hk1 Hk2 Hv) as Hk.
  pose proof (fexp_mono k1 k2 Hk) as Hf.
  set (e1 := fexp prec emax k1) in *. set (e2 := fexp prec emax k2) in *.
  pose proof (bpow_pos e1) as Hp1. pose proof (bpow_pos e2) as Hp2.
  destruct (Z.eq_dec e1 e2) as [Heq|Hne].
  - rewrite Heq in *.
    assert (m1 ≤ m2).
    { apply (rne_mono (v1 / bpow e2) (v2 / bpow e2)); [|assumption|assumption].
      apply Rmult_le_compat_r; [apply Rlt_le, Rinv_0_lt_compat; lra|lra]. }
    apply IZR_le in H. nra.
  - (* the two numbers lie in different binades: a power of two separates
       their roundings *)
    assert (He2 : e2 = k2 - 53) by (unfold e1, e2 in *; rewrite !fexp64 in *; lia).
    assert (Hk12 : k1 ≤ k2 - 1) by (unfold e1, e2 in *; rewrite !fexp64 in *; lia).
    assert (Hhi : (bpow (k2 - 1) <= IZR m2 * bpow e2)%R).
    { assert (2 ^ 52 ≤ m2).
      { apply (rne_ge (v2 / bpow e2)); [|exact Hr2].
        rewrite <- bpow_IZR by lia.
        replace 52 with (k2 - 1 - e2) by lia. rewrite <- bpow_div.
        destruct Hk2 as [Hlo _].
        apply Rmult_le_compat_r; [apply Rlt_le, Rinv_0_lt_compat; lra|lra]. }
      apply IZR_le in H. rewrite <- bpow_IZR in H by lia.
      replace (bpow (k2 - 1)) with (bpow 52 * bpow e2)%R
        by (rewrite <- bpow_add; f_equal; lia).
      nra. }
    assert (Hlo : (IZR m1 * bpow e1 <= bpow k1)%R).
    { assert (Hu : (v1 / bpow e1 < bpow (k1 - e1))%R).
      { rewrite <- bpow_div. destruct Hk1 as [_ Hk1].
        apply Rmult_lt_compat_r; [apply Rinv_0_lt_compat; lra|lra]. }
      destruct (Z.lt_ge_cases (k1 - e1) 0) as [Hneg|Hpos].
      - assert (m1 ≤ 0).
        { assert (bpow (k1 - e1) <= bpow (-1))%R by (apply bpow_le; lia).
          replace (bpow (-1)) with (/ 2)%R in H by (unfold bpow; simpl; lra).
          destruct Hr1 as [[Hl _] _].
          assert (IZR m1 < IZR 1)%R by lra. apply lt_IZR in H0. lia. }
        apply IZR_le in H. pose proof (bpow_pos k1). nra.
      - rewrite (bpow_IZR (k1 - e1)) in Hu by assumption.
        assert (m1 ≤ 2 ^ (k1 - e1)).
        { apply (rne_le (v1 / bpow e1)); [lra|exact Hr1]. }
        apply IZR_le in H. rewrite <- bpow_IZR in H by assumption.
        replace (bpow k1) with (bpow (k1 - e1) * bpow e1)%R
          by (rewrite <- bpow_add; f_equal; lia).
        nra. }
    pose proof (bpow_le k1 (k2 - 1) Hk12). lra.
Qed.

End MonoFacts.

Module OpFacts.
Import Magnitude FloatBounds RealValue RealFacts ShiftFacts RoundDefs.
Import RoundFacts MonoFacts OpDefs.

Lemma V_nonneg (x : spec_float) : nonneg_float x → (0 <= V x)%R.
Proof.
  destruct x as [s|s| |[] m e]; simpl; try tauto; try lra.
  intros _. pose proof (bpow_pos e). pose proof (IZR_lt 0 (Z.pos m) ltac:(lia)).
  nra.
Qed.

Lemma V_finite_pos (m : positive) (e : Z) : (0 < V (S754_finite false m e))%R.
Proof.
  simpl. pose proof (bpow_pos e). pose proof (IZR_lt 0 (Z.pos m) ltac:(lia)).
  nra.
Qed.

(** The sign of what [binary_round_aux] returns is the one it was given. *)
Lemma binary_round_aux_sign (sx : bool) (mx ex : Z) (lx : location) :
  match binary_round_aux prec emax sx mx ex lx with
  | S754_zero s | S754_finite s _ _ => s = sx
  | S754_infinity _ | S754_nan => True
  end.
Proof.
  unfold binary_round_aux.
  destruct (shr_fexp prec emax mx ex lx) as [mrs' e'].
  destruct (shr_fexp prec emax _ e' loc_Exact) as [mrs'' e''].
  destruct (shr_m mrs''); [reflexivity| |exact I].
  destruct (e'' <=? emax - prec); [reflexivity|exact I].
Qed.

Lemma nonneg_of_small (x : spec_float) (B : Z) :
  small B x →
  match x with S754_zero s | S754_finite s _ _ => s = false | _ => True end →
  nonneg_float x.
Proof. destruct x as [s|s| |[] m e]; simpl; auto; discriminate. Qed.

(** The location computed from a remainder. *)
Lemma inb_new_location (n k q : Z) :
  0 < n → 0 ≤ k < n →
  inb (IZR q + IZR k / IZR n) q (new_location n k).
Proof.
  intros Hn Hk.
  assert (HnR : (0 < IZR n)%R) by (apply IZR_lt; lia).
  assert (Ht : (IZR k / IZR n * IZR n = IZR k)%R) by (field; lra).
  unfold new_location, new_location_even, new_location_odd.
  destruct (Z.eqb_spec k 0) as [->|Hk0].
  { destruct (Z.even n); simpl; unfold Rdiv; lra. }
  assert (HkR : (0 < IZR k)%R) by (apply IZR_lt; lia).
  assert (HkR' : (IZR k < IZR n)%R) by (apply IZR_lt; lia).
  revert Ht. generalize (IZR k / IZR n)%R. intros t Ht.
  assert (Ht0 : (0 < t)%R) by (apply (Rmult_lt_reg_r (IZR n)); lra).
  assert (Ht1 : (t < 1)%R) by (apply (Rmult_lt_reg_r (IZR n)); lra).
  assert (Hlt : 2 * k < n → (t < / 2)%R).
  { intros H%IZR_lt. rewrite mult_IZR in H.
    apply (Rmult_lt_reg_r (IZR n)); lra. }
  assert (Hgt : n < 2 * k → (/ 2 < t)%R).
  { intros H%IZR_lt. rewrite mult_IZR in H.
    apply (Rmult_lt_reg_r (IZR n)); lra. }
  pose proof (proj2 (Z.eqb_neq k 0) Hk0) as Hk0'.
  destruct (Z.even n) eqn:En.
  - destruct (Z.compare_spec (2 * k) n) as [H|H|H]; simpl; rewrite ?Hk0'; simpl.
    + assert (2 * IZR k = IZR n)%R by (rewrite <- H, mult_IZR; reflexivity).
      assert (t = / 2)%R by (apply (Rmult_eq_reg_r (IZR n)); lra). lra.
    + specialize (Hlt H). lra.
    + specialize (Hgt H). lra.
  - assert (Hodd : 2 * k ≠ n).
    { intros <-. rewrite Z.even_mul in En. discriminate. }
    destruct (Z.compare_spec (2 * k + 1) n) as [H|H|H]; simpl; rewrite ?Hk0'; simpl.
    + specialize (Hlt ltac:(lia)). lra.
    + specialize (Hlt ltac:(lia)). lra.
    + specialize (Hgt ltac:(lia)). lra.
Qed.

End OpFacts.

Module ArithFacts.
Import Magnitude FloatBounds RealValue RealFacts ShiftFacts RoundDefs.
Import RoundFacts MonoFacts OpDefs OpFacts.

Lemma bpow_neq (e : Z) : bpow e ≠ 0%R.
Proof. pose proof (bpow_pos e). lra. Qed.

Lemma IZR_pos (p : positive) : (0 < IZR (Z.pos p))%R.
Proof. apply IZR_lt. lia. Qed.

(** The magnitude of a positive finite float. *)
Lemma mag_finite (m : positive) (e : Z) :
  mag (V (S754_finite false m e)) (Zdigits2 (Z.pos m) + e).
Proof.
  apply (mag_located (Z.pos m) e loc_Exact); [lia|].
  simpl. field. apply bpow_neq.
Qed.

(** Every positive real has a magnitude between those of two powers of 2
    that enclose it. *)
Lemma mag_between (v : R) (lo hi : Z) :
  (bpow lo <= v < bpow hi)%R → ∃ k, lo < k ≤ hi ∧ mag v k.
Proof.
  intros [Hlo Hhi].
  assert (Hle : lo < hi).
  { apply bpow_lt_inv. lra. }
  revert Hhi. pattern hi. apply (Zlt_lower_bound_ind _ (lo + 1)); [|lia].
  intros h IH Hh Hhi.
  destruct (Rlt_le_dec v (bpow (h - 1))) as [Hlt|Hge].
  - assert (lo + 1 ≤ h - 1).
    { assert (lo < h - 1) by (apply bpow_lt_inv; lra). lia. }
    destruct (IH (h - 1) ltac:(lia) Hlt) as (k & Hk & Hm).
    exists k. split; [lia|exact Hm].
  - exists h. split; [lia|]. split; assumption.
Qed.

(** A float in canonical form is the rounding of its own value. *)
Lemma rounded_canonical (m : positive) (e : Z) :
  canonical_mantissa prec emax m e = true →
  rounded (V (S754_finite false m e)) (S754_finite false m e).
Proof.
  intros Hc%Z.eqb_eq.
  exists (Zdigits2 (Z.pos m) + e), (Z.pos m).
  change (Zdigits2 (Z.pos m)) with (Z.pos (digits2_pos m)).
  rewrite Hc. split; [apply mag_finite|]. split; [|reflexivity].
  replace (V (S754_finite false m e) / bpow e)%R with (IZR (Z.pos m)).
  - apply rne_exact.
  - simpl. field. apply bpow_neq.
Qed.

(** The product of two positive floats is the rounding of the product of
    their values. *)
Lemma SFmul_rounded (mx my : positive) (ex ey B1 B2 : Z) :
  small B1 (S754_finite false mx ex) → small B2 (S754_finite false my ey) →
  -1074 ≤ B1 + B2 ≤ 970 →
  rounded (V (S754_finite false mx ex) * V (S754_finite false my ey))
          (SF64mul (S754_finite false mx ex) (S754_finite false my ey)).
Proof.
  intros Hx Hy HB. simpl in Hx, Hy.
  change (SF64mul (S754_finite false mx ex) (S754_finite false my ey))
    with (binary_round_aux prec emax false (Z.pos (mx * my)) (ex + ey) loc_Exact).
  pose proof (V_finite_pos mx ex) as Vx. pose proof (V_finite_pos my ey) as Vy.
  assert (Hin : inb (V (S754_finite false mx ex) * V (S754_finite false my ey)
                     / bpow (ex + ey)) (Z.pos (mx * my)) loc_Exact).
  { simpl. rewrite Pos2Z.inj_mul, mult_IZR, bpow_add. field.
    split; apply bpow_neq. }
  apply (binary_round_aux_correct _ _ _ _
           (Zdigits2 (Z.pos (mx * my)) + (ex + ey)) (B1 + B2)).
  - lia.
  - apply Rmult_lt_0_compat; assumption.
  - exact Hin.
  - apply (mag_located _ _ loc_Exact); [lia|exact Hin].
  - right. reflexivity.
  - assert (Zdigits2 (Z.pos (mx * my))
            ≤ Z.pos (digits2_pos mx) + Z.pos (digits2_pos my)); [|lia].
    apply Zdigits2_le; [lia|]. split; [lia|].
    rewrite Z.pow_add_r by lia. rewrite Pos2Z.inj_mul.
    pose proof (pos_lt_pow_digits mx). pose proof (pos_lt_pow_digits my).
    nia.
  - lia.
Qed.

(** What the division core computes: a quotient and a remainder of the
    dividend shifted to the exponent of the result. *)
Lemma SFdiv_core_facts (mx my : positive) (ex ey : Z) :
  let d1 := Z.pos (digits2_pos mx) in
  let d2 := Z.pos (digits2_pos my) in
  let e' := Z.min (fexp prec emax (d1 + ex - (d2 + ey))) (ex - ey) in
  let s := ex - ey - e' in
  ∃ q r,
    SFdiv_core_binary prec emax (Z.pos mx) ex (Z.pos my) ey
    = (q, e', new_location (Z.pos my) r)
    ∧ Z.pos mx * 2 ^ s = Z.pos my * q + r
    ∧ 0 ≤ r < Z.pos my ∧ 0 ≤ q
    ∧ Zdigits2 q ≤ Z.max (d1 + s - d2 + 1) 0.
Proof.
  intros d1 d2 e' s.
  unfold SFdiv_core_binary. rewrite !digits_pos.
  fold d1 d2 e' s.
  assert (Hs : 0 ≤ s) by (unfold s, e'; lia).
  set (m' := match s with
             | 0 => Z.pos mx
             | Z.pos _ => Z.shiftl (Z.pos mx) s
             | Z.neg _ => 0
             end).
  assert (Hm' : m' = Z.pos mx * 2 ^ s).
  { unfold m'. destruct s as [|p|p] eqn:Es; [simpl; lia| |lia].
    apply Z.shiftl_mul_pow2. lia. }
  clearbody m'.
  assert (Hdiv : Z.div_eucl m' (Z.pos my) = (m' / Z.pos my, m' mod Z.pos my)).
  { unfold Z.div, Z.modulo. destruct (Z.div_eucl m' (Z.pos my)); reflexivity. }
  rewrite Hdiv. exists (m' / Z.pos my), (m' mod Z.pos my).
  assert (H2s : 0 < 2 ^ s) by (apply Z.pow_pos_nonneg; lia).
  assert (Hq0 : 0 ≤ m' / Z.pos my) by (apply Z.div_pos; nia).
  split; [reflexivity|]. split.
  { rewrite <- Hm'. apply Z.div_mod. lia. }
  split; [apply Z.mod_pos_bound; lia|]. split; [exact Hq0|].
  pose proof (pos_lt_pow_digits mx) as Hmx. fold d1 in Hmx.
  destruct (digits2_pos_bounds my) as [Hmy _]. fold d2 in Hmy.
  set (K := d1 + s - d2 + 1).
  destruct (Z.le_gt_cases 0 K) as [HK|HK].
  - rewrite Z.max_l by lia. apply Zdigits2_le; [lia|].
    split; [exact Hq0|].
    apply Z.div_lt_upper_bound; [lia|].
    assert (2 ^ (d1 + s) = 2 ^ (d2 - 1) * 2 ^ K) as Hpow.
    { rewrite <- Z.pow_add_r by lia. f_equal. unfold K. lia. }
    assert (m' < 2 ^ (d1 + s)).
    { rewrite Hm', Z.pow_add_r by lia. nia. }
    assert (0 < 2 ^ K) by (apply Z.pow_pos_nonneg; lia).
    nia.
  - rewrite Z.max_r by lia. rewrite Z.div_small; [reflexivity|].
    split; [nia|].
    assert (m' < 2 ^ (d1 + s)).
    { rewrite Hm', Z.pow_add_r by lia. nia. }
    assert (2 ^ (d1 + s) ≤ 2 ^ (d2 - 1)) by (apply Z.pow_le_mono_r; lia).
    lia.
Qed.

(** The quotient of two positive floats is the rounding of the quotient of
    their values. *)
Lemma SFdiv_rounded (mx my : positive) (ex ey B1 : Z) :
  small B1 (S754_finite false mx ex) →
  -1074 ≤ B1 - (Z.pos (digits2_pos my) + ey) + 1 ≤ 970 →
  rounded (V (S754_finite false mx ex) / V (S754_finite false my ey))
          (SF64div (S754_finite false mx ex) (S754_finite false my ey)).
Proof.
  intros Hx HB. simpl in Hx.
  pose proof (V_finite_pos mx ex) as Vx. pose proof (V_finite_pos my ey) as Vy.
  pose proof (mag_finite mx ex) as Mx. pose proof (mag_finite my ey) as My.
  rewrite digits_pos in Mx, My.
  destruct (SFdiv_core_facts mx my ex ey) as (q & r & Hcore & Hqr & Hr & Hq & Hd).
  cbv zeta in Hcore, Hqr, Hd.
  set (d1 := Z.pos (digits2_pos mx)) in *.
  set (d2 := Z.pos (digits2_pos my)) in *.
  set (e' := Z.min (fexp prec emax (d1 + ex - (d2 + ey))) (ex - ey)) in *.
  set (s := ex - ey - e') in *.
  assert (Hs : 0 ≤ s) by (unfold s, e'; lia).
  change (SF64div (S754_finite false mx ex) (S754_finite false my ey))
    with (let '(mz, ez, lz) :=
            SFdiv_core_binary prec emax (Z.pos mx) ex (Z.pos my) ey in
          binary_round_aux prec emax false mz ez lz).
  rewrite Hcore.
  set (v := (V (S754_finite false mx ex) / V (S754_finite false my ey))%R).
  assert (Hv : (0 < v)%R) by (apply Rdiv_lt_0_compat; assumption).
  assert (Hbetween : (bpow (d1 + ex - (d2 + ey) - 1) <= v
                      < bpow (d1 + ex - (d2 + ey) + 1))%R).
  { destruct Mx as [Mx1 Mx2], My as [My1 My2].
    replace (d1 + ex - (d2 + ey) - 1) with (d1 + ex - 1 - (d2 + ey)) by lia.
    replace (d1 + ex - (d2 + ey) + 1) with (d1 + ex - (d2 + ey - 1)) by lia.
    rewrite <- (bpow_div (d1 + ex - 1) (d2 + ey)).
    rewrite <- (bpow_div (d1 + ex) (d2 + ey - 1)).
    pose proof (bpow_pos (d2 + ey)). pose proof (bpow_pos (d2 + ey - 1)).
    pose proof (bpow_pos (d1 + ex)). pose proof (bpow_pos (d1 + ex - 1)).
    unfold v. split.
    - apply Rle_trans with (V (S754_finite false mx ex) / bpow (d2 + ey))%R.
      + apply Rmult_le_compat_r; [|lra].
        apply Rlt_le, Rinv_0_lt_compat. lra.
      + apply Rmult_le_compat_l; [lra|].
        apply Rinv_le_contravar; lra.
    - apply Rlt_le_trans with (bpow (d1 + ex) / V (S754_finite false my ey))%R.
      + apply Rmult_lt_compat_r; [|lra].
        apply Rinv_0_lt_compat. lra.
      + apply Rmult_le_compat_l; [lra|].
        apply Rinv_le_contravar; lra. }
  destruct (mag_between v _ _ Hbetween) as (k & Hk & Hmag).
  assert (Hin : inb (v / bpow e') q (new_location (Z.pos my) r)).
  { replace (v / bpow e')%R with (IZR q + IZR r / IZR (Z.pos my))%R.
    - apply inb_new_location; lia.
    - unfold v. simpl V.
      assert (He : bpow ex = (bpow s * bpow ey * bpow e')%R).
      { rewrite <- !bpow_add. f_equal. unfold s. lia. }
      rewrite He, (bpow_IZR s) by lia.
      apply (f_equal IZR) in Hqr. rewrite mult_IZR, plus_IZR, mult_IZR in Hqr.
      pose proof (IZR_pos my). pose proof (bpow_pos ey). pose proof (bpow_pos e').
      apply (Rmult_eq_reg_r (IZR (Z.pos my))); [|lra].
      transitivity (IZR (Z.pos my) * IZR q + IZR r)%R; [field; lra|].
      rewrite <- Hqr. field. lra. }
  apply (binary_round_aux_correct _ _ _ _ k
           (B1 - (d2 + ey) + 1)).
  - exact Hq.
  - exact Hv.
  - exact Hin.
  - exact Hmag.
  - left. transitivity (fexp prec emax (d1 + ex - (d2 + ey))).
    + unfold e'. lia.
    + apply fexp_mono. lia.
  - fold d1 in Hx. unfold s in Hd. unfold e' in *. rewrite fexp64 in *. lia.
  - exact HB.
Qed.

(** Aligning to an exponent that is not above the float's own reaches it. *)
Lemma shl_align_to (m : positive) (e e' : Z) :
  e' ≤ e → (shl_align m e e').2 = e'.
Proof.
  intros He. unfold shl_align.
  destruct (e' - e) as [|d|d] eqn:Hd; simpl; lia.
Qed.

(** The sum of two positive floats is the rounding of the sum of their
    values. *)
Lemma SFadd_rounded (mx my : positive) (ex ey B : Z) :
  small B (S754_finite false mx ex) → small B (S754_finite false my ey) →
  -1074 ≤ B + 1 ≤ 970 →
  rounded (V (S754_finite false mx ex) + V (S754_finite false my ey))
          (SF64add (S754_finite false mx ex) (S754_finite false my ey)).
Proof.
  intros Hx Hy HB. simpl in Hx, Hy.
  pose proof (V_finite_pos mx ex) as Vx. pose proof (V_finite_pos my ey) as Vy.
  set (ez := Z.min ex ey).
  change (SF64add (S754_finite false mx ex) (S754_finite false my ey))
    with (binary_normalize prec emax
            (Z.pos (shl_align mx ex ez).1 + Z.pos (shl_align my ey ez).1)
            ez false).
  destruct (shl_align_value mx ex ez) as [_ Hax].
  destruct (shl_align_value my ey ez) as [_ Hay].
  rewrite shl_align_to in Hax by (unfold ez; lia).
  rewrite shl_align_to in Hay by (unfold ez; lia).
  set (ax := (shl_align mx ex ez).1) in *.
  set (ay := (shl_align my ey ez).1) in *.
  change (Z.pos ax + Z.pos ay) with (Z.pos (ax + ay)).
  unfold binary_normalize, binary_round.
  destruct (shl_align_value (ax + ay) ez
              (fexp prec emax (Z.pos (digits2_pos (ax + ay)) + ez)))
    as [H1 H2].
  destruct (shl_align (ax + ay) ez _) as [mz ez']. simpl in H1, H2.
  set (v := (V (S754_finite false mx ex) + V (S754_finite false my ey))%R).
  assert (Hsum : (v = IZR (Z.pos mz) * bpow ez')%R).
  { rewrite H2, Pos2Z.inj_add, Hax, Hay.
    rewrite mult_IZR, plus_IZR, !mult_IZR.
    rewrite <- !bpow_IZR by (unfold ez; lia).
    unfold v. simpl V.
    replace (bpow ex) with (bpow (ex - ez) * bpow (ez - ez') * bpow ez')%R.
    2:{ rewrite <- !bpow_add. f_equal. lia. }
    replace (bpow ey) with (bpow (ey - ez) * bpow (ez - ez') * bpow ez')%R.
    2:{ rewrite <- !bpow_add. f_equal. lia. }
    ring. }
  assert (Hin : inb (v / bpow ez') (Z.pos mz) loc_Exact).
  { simpl. rewrite Hsum. field. apply bpow_neq. }
  apply (binary_round_aux_correct _ _ _ _ (Zdigits2 (Z.pos mz) + ez') (B + 1)).
  - lia.
  - unfold v. lra.
  - exact Hin.
  - apply (mag_located _ _ loc_Exact); [lia|exact Hin].
  - right. reflexivity.
  - assert (Zdigits2 (Z.pos mz) ≤ B + 1 - ez'); [|lia].
    apply Zdigits2_le; [lia|]. split; [lia|].
    rewrite H2, Pos2Z.inj_add, Hax, Hay.
    pose proof (shifted_lt mx (ex - ez) ex B ltac:(unfold ez; lia) Hx) as Lx.
    pose proof (shifted_lt my (ey - ez) ey B ltac:(unfold ez; lia) Hy) as Ly.
    replace (B - ex + (ex - ez)) with (B - ez) in Lx by lia.
    replace (B - ey + (ey - ez)) with (B - ez) in Ly by lia.
    replace (B + 1 - ez') with (Z.succ (B - ez) + (ez - ez')) by lia.
    assert (0 ≤ B - ez).
    { pose proof (Pos2Z.is_pos (digits2_pos mx)).
      pose proof (Pos2Z.is_pos (digits2_pos my)). unfold ez. lia. }
    rewrite Z.pow_add_r, Z.pow_succ_r by lia.
    assert (0 < 2 ^ (ez - ez')) by (apply Z.pow_pos_nonneg; lia).
    nia.
  - lia.
Qed.

End ArithFacts.


(** ** Python's comparisons are the order of the values *)

Module OrderFacts.
Import Magnitude FloatBounds RealValue RealFacts ShiftFacts RoundFacts.
Import OpDefs OpFacts ArithFacts Order.

Lemma compares_Z (a b : Z) : compares (IZR a) (IZR b) (a ?= b).
Proof.
  destruct (Z.compare_spec a b) as [->|H|H]; simpl;
    [reflexivity|apply IZR_lt; exact H|apply IZR_lt; exact H].
Qed.

Lemma compares_scale (x y p : R) (c : comparison) :
  (0 < p)%R → compares (x * p) (y * p) c → compares x y c.
Proof.
  intros Hp. destruct c; simpl; intros H.
  - apply (Rmult_eq_reg_r p); lra.
  - apply (Rmult_lt_reg_r p); lra.
  - apply (Rmult_lt_reg_r p); lra.
Qed.

(** The signed mantissa of a finite float gives its value. *)
Lemma V_signed (s : bool) (m : positive) (e : Z) :
  V (S754_finite s m e)
  = (IZR (if s then Z.neg m else Z.pos m) * bpow e)%R.
Proof. destruct s; reflexivity. Qed.

Lemma value_finite (x : spec_float) (v : R) :
  value_of_float x = Finite v →
  v = V x ∧ match x with
            | S754_zero _ | S754_finite _ _ _ => True
            | S754_infinity _ | S754_nan => False
            end.
Proof.
  destruct x as [s|[]| |s m e]; try discriminate; cbn [value_of_float];
    intros H; (split; [congruence|exact I]).
Qed.

(** An integer and a finite float compare as their values do. *)
Lemma Z_compare_float_finite (z : Z) (f : float) (v : R) :
  value_of_float (Prim2SF f) = Finite v →
  ∃ c, PyNum.Z_compare_float z f = Some c ∧ compares (IZR z) v c.
Proof.
  unfold PyNum.Z_compare_float.
  destruct (Prim2SF f) as [s|s| |s m e]; try discriminate.
  - intros [= <-]. eexists. split; [reflexivity|]. apply compares_Z.
  - destruct s; discriminate.
  - intros Hv. destruct (value_finite _ _ Hv) as [-> _]. clear Hv.
    eexists. split; [reflexivity|].
    rewrite V_signed. generalize (if s then Z.neg m else Z.pos m). intros n.
    destruct (Z.leb_spec 0 e) as [He|He].
    + rewrite (bpow_IZR e He), <- mult_IZR. apply compares_Z.
    + apply (compares_scale _ _ (bpow (- e))); [apply bpow_pos|].
      rewrite Rmult_assoc, <- bpow_add.
      replace (e + - e) with 0 by lia. rewrite bpow_0, Rmult_1_r.
      rewrite (bpow_IZR (- e)) by lia. rewrite <- mult_IZR.
      apply compares_Z.
Qed.

(** Of two positive floats in canonical form, the one with the lower
    exponent is the lower. *)
Lemma canonical_order (m1 m2 : positive) (e1 e2 : Z) :
  canonical_mantissa prec emax m1 e1 = true →
  canonical_mantissa prec emax m2 e2 = true →
  e1 < e2 →
  (IZR (Z.pos m1) * bpow e1 < IZR (Z.pos m2) * bpow e2)%R.
Proof.
  intros H1%Z.eqb_eq H2%Z.eqb_eq He.
  rewrite fexp64 in H1, H2.
  destruct (mag_finite m1 e1) as [_ Hhi]. destruct (mag_finite m2 e2) as [Hlo _].
  rewrite digits_pos in Hhi, Hlo. simpl V in Hhi, Hlo.
  pose proof (bpow_le (Z.pos (digits2_pos m1) + e1)
                      (Z.pos (digits2_pos m2) + e2 - 1) ltac:(lia)).
  lra.
Qed.

(** Two finite floats in canonical form compare as their values do. *)
Lemma SFcompare_finite (x y : spec_float) (u v : R) :
  SpecFloat.valid_binary prec emax x = true →
  SpecFloat.valid_binary prec emax y = true →
  value_of_float x = Finite u → value_of_float y = Finite v →
  ∃ c, SFcompare x y = Some c ∧ compares u v c.
Proof.
  intros Hx Hy Hu Hv.
  destruct (value_finite x u Hu) as [-> Fx].
  destruct (value_finite y v Hv) as [-> Fy]. clear Hu Hv.
  destruct x as [sx|sx| |sx mx ex]; try contradiction;
    (destruct y as [sy|sy| |sy my ey]; try contradiction);
    (eexists; split; [reflexivity|]).
  - simpl. reflexivity.
  - pose proof (IZR_pos my). pose proof (bpow_pos ey).
    destruct sy; simpl; nra.
  - pose proof (IZR_pos mx). pose proof (bpow_pos ex).
    destruct sx; simpl; nra.
  - simpl in Hx, Hy.
    apply andb_prop in Hx as [Hx _]. apply andb_prop in Hy as [Hy _].
    pose proof (IZR_pos mx). pose proof (bpow_pos ex).
    pose proof (IZR_pos my). pose proof (bpow_pos ey).
    destruct sx, sy; [| simpl; nra | simpl; nra |].
    + destruct (Z.compare_spec ex ey) as [->|He|He].
      * change (Pos.compare_cont Eq mx my) with (Z.pos mx ?= Z.pos my).
        pose proof (compares_Z (Z.pos mx) (Z.pos my)) as Hc.
        destruct (Z.pos mx ?= Z.pos my); simpl in *; nra.
      * pose proof (canonical_order mx my ex ey Hx Hy He). simpl. lra.
      * pose proof (canonical_order my mx ey ex Hy Hx He). simpl. lra.
    + destruct (Z.compare_spec ex ey) as [->|He|He].
      * change (Pos.compare_cont Eq mx my) with (Z.pos mx ?= Z.pos my).
        pose proof (compares_Z (Z.pos mx) (Z.pos my)) as Hc.
        destruct (Z.pos mx ?= Z.pos my); simpl in *; nra.
      * pose proof (canonical_order mx my ex ey Hx Hy He). simpl. lra.
      * pose proof (canonical_order my mx ey ex Hy Hx He). simpl. lra.
Qed.

(** The cases where a NaN or an infinity decides the comparison. *)
Ltac settle_infinite :=
  simpl; split; intros H;
  try discriminate H; try contradiction; try reflexivity; exact I.

(** [a < b] and [a <= b] hold exactly when the values of [a] and [b] are so
    ordered. *)
Lemma lt_spec (a b : pynum) :
  PyNum.lt a b = true ↔ vlt (value_of a) (value_of b).
Proof.
  destruct a as [x|x], b as [y|y]; simpl.
  - rewrite Z.ltb_lt. split; [apply IZR_lt|apply lt_IZR].
  - destruct (value_of_float (Prim2SF y)) as [| | |v] eqn:Hy.
    + unfold PyNum.Z_compare_float.
      destruct (Prim2SF y) as [s|[]| |s m e]; try discriminate.
      settle_infinite.
    + unfold PyNum.Z_compare_float.
      destruct (Prim2SF y) as [s|[]| |s m e]; try discriminate.
      settle_infinite.
    + unfold PyNum.Z_compare_float.
      destruct (Prim2SF y) as [s|[]| |s m e]; try discriminate.
      settle_infinite.
    + destruct (Z_compare_float_finite x y v Hy) as (c & -> & Hc).
      destruct c; simpl in Hc |- *; split; intros H;
        try discriminate H; try reflexivity; lra.
  - destruct (value_of_float (Prim2SF x)) as [| | |v] eqn:Hx.
    + unfold PyNum.Z_compare_float.
      destruct (Prim2SF x) as [s|[]| |s m e]; try discriminate.
      settle_infinite.
    + unfold PyNum.Z_compare_float.
      destruct (Prim2SF x) as [s|[]| |s m e]; try discriminate.
      settle_infinite.
    + unfold PyNum.Z_compare_float.
      destruct (Prim2SF x) as [s|[]| |s m e]; try discriminate.
      settle_infinite.
    + destruct (Z_compare_float_finite y x v Hx) as (c & -> & Hc).
      destruct c; simpl in Hc |- *; split; intros H;
        try discriminate H; try reflexivity; lra.
  - rewrite ltb_spec. unfold SFltb.
    pose proof (Prim2SF_valid x) as Vx. pose proof (Prim2SF_valid y) as Vy.
    destruct (value_of_float (Prim2SF x)) as [| | |u] eqn:Hx;
      destruct (value_of_float (Prim2SF y)) as [| | |v] eqn:Hy;
      try (destruct (SFcompare_finite _ _ u v Vx Vy Hx Hy) as (c & -> & Hc);
           destruct c; simpl in Hc |- *; split; intros H;
           try discriminate H; try reflexivity; lra);
      destruct (Prim2SF x) as [sx|[]| |sx mx ex]; try discriminate;
      destruct (Prim2SF y) as [sy|[]| |sy my ey]; try discriminate;
      settle_infinite.
Qed.

Lemma le_spec (a b : pynum) :
  PyNum.le a b = true ↔ vle (value_of a) (value_of b).
Proof.
  destruct a as [x|x], b as [y|y]; simpl.
  - rewrite Z.leb_le. split; [apply IZR_le|apply le_IZR].
  - destruct (value_of_float (Prim2SF y)) as [| | |v] eqn:Hy.
    + unfold PyNum.Z_compare_float.
      destruct (Prim2SF y) as [s|[]| |s m e]; try discriminate.
      settle_infinite.
    + unfold PyNum.Z_compare_float.
      destruct (Prim2SF y) as [s|[]| |s m e]; try discriminate.
      settle_infinite.
    + unfold PyNum.Z_compare_float.
      destruct (Prim2SF y) as [s|[]| |s m e]; try discriminate.
      settle_infinite.
    + destruct (Z_compare_float_finite x y v Hy) as (c & -> & Hc).
      destruct c; simpl in Hc |- *; split; intros H;
        try discriminate H; try reflexivity; lra.
  - destruct (value_of_float (Prim2SF x)) as [| | |v] eqn:Hx.
    + unfold PyNum.Z_compare_float.
      destruct (Prim2SF x) as [s|[]| |s m e]; try discriminate.
      settle_infinite.
    + unfold PyNum.Z_compare_float.
      destruct (Prim2SF x) as [s|[]| |s m e]; try discriminate.
      settle_infinite.
    + unfold PyNum.Z_compare_float.
      destruct (Prim2SF x) as [s|[]| |s m e]; try discriminate.
      settle_infinite.
    + destruct (Z_compare_float_finite y x v Hx) as (c & -> & Hc).
      destruct c; simpl in Hc |- *; split; intros H;
        try discriminate H; try reflexivity; lra.
  - rewrite leb_spec. unfold SFleb.
    pose proof (Prim2SF_valid x) as Vx. pose proof (Prim2SF_valid y) as Vy.
    destruct (value_of_float (Prim2SF x)) as [| | |u] eqn:Hx;
      destruct (value_of_float (Prim2SF y)) as [| | |v] eqn:Hy;
      try (destruct (SFcompare_finite _ _ u v Vx Vy Hx Hy) as (c & -> & Hc);
           destruct c; simpl in Hc |- *; split; intros H;
           try discriminate H; try reflexivity; lra);
      destruct (Prim2SF x) as [sx|[]| |sx mx ex]; try discriminate;
      destruct (Prim2SF y) as [sy|[]| |sy my ey]; try discriminate;
      settle_infinite.
Qed.

End OrderFacts.

(** ** Facts about the command vocabulary and the generator's steps *)

Module GeneratorFacts.
Import Config command_map Generator Wire.

Lemma stop_all_token : get_stop_all_command = Some "BSTD".
Proof. vm_compute. reflexivity. Qed.

Lemma direction_command_token (is_forward : bool) :
  _get_direction_command (if is_forward then "forward" else "backward")
  = Some (facing_token is_forward).
Proof. destruct is_forward; vm_compute; reflexivity. Qed.

Lemma speed_params :
  COMMAND_PARAMS !! "speed"
  = Some {| has_parameter := true; min_value := 500; max_value := 1000;
            format := "<SPD-{speed}>"; parameter_name := "speed" |}.
Proof. vm_compute. reflexivity. Qed.

Lemma get_speed_command_eq (s : Z) :
  get_speed_command s
  = if (500 <=? s) && (s <=? 1000) then Some (speed_token s) else None.
Proof. unfold get_speed_command. rewrite speed_params. reflexivity. Qed.

(** The steering builder always answers with a token whose angle lies in
    [500, 2500]. *)
Lemma get_steering_command_eq (a : Z) :
  get_steering_command a = steering_token (Z.max 500 (Z.min 2500 a)).
Proof.
  unfold get_steering_command.
  destruct (a <? 500) eqn:Hlo; destruct (2500 <? a) eqn:Hhi; simpl;
    try reflexivity.
  f_equal. lia.
Qed.

Lemma generate_speed_commands_eq (s : Z) (g : CommandGenerator) :
  generate_speed_commands s g
  = if s =? 0 then (["BSTD"], with_current_speed 0 g)
    else if (500 <=? s) && (s <=? 1000) && negb (s =? _current_speed g)
         then ([speed_token s], with_current_speed s g)
         else ([], g).
Proof.
  unfold generate_speed_commands, mbind, Gen_bind, get. simpl.
  rewrite stop_all_token, get_speed_command_eq.
  destruct (Z.eqb_spec s 0) as [->|Hs]; [reflexivity|].
  destruct ((500 <=? s) && (s <=? 1000)); simpl; [|reflexivity].
  destruct (s =? _current_speed g); reflexivity.
Qed.

Lemma generate_movement_command_eq (f : bool) (g : CommandGenerator) :
  generate_movement_command f g = (facing_token f, with_last_is_forward f g).
Proof.
  unfold generate_movement_command. rewrite direction_command_token.
  destruct f; reflexivity.
Qed.

Lemma strip_truthy_facing (f : bool) : strip_truthy (facing_token f) = true.
Proof. destruct f; reflexivity. Qed.

Lemma strip_truthy_steering (a : Z) : strip_truthy (get_steering_command a) = true.
Proof. reflexivity. Qed.

(** One cycle on a complete triple with a nonzero speed is the speed step,
    then the facing step, then the steering step, each appending to the
    list. *)
Lemma steering_part (d : Z) (acc : list string) (g2 : CommandGenerator) :
  (let '(a0, g3) := generate_direction_command d g2 in
   (append_if_stripped acc a0, g3))
  = (let '(st, g3) := steering_step d g2 in ((acc ++ st)%list, g3)).
Proof.
  unfold generate_direction_command, steering_step, mbind, Gen_bind, get,
    mret, Gen_ret, set_previous_angle, append_if_stripped.
  destruct (_previous_angle g2) as [p|]; [destruct (d =? p)|]; simpl;
    rewrite ?app_nil_r; reflexivity.
Qed.

Lemma generate_decompose (s d : Z) (f : bool) (g : CommandGenerator) :
  s ≠ 0 →
  generate_commands_from_car_control (control_triple s d f) g
  = let '(sp, g1) := generate_speed_commands s g in
    let '(fc, g2) := facing_step f g1 in
    let '(st, g3) := steering_step d g2 in
    (sp ++ fc ++ st, g3)%list.
Proof.
  intros Hs.
  unfold generate_commands_from_car_control, control_triple; simpl.
  unfold mbind, Gen_bind.
  destruct (generate_speed_commands s g) as [sp g1].
  apply Z.eqb_neq in Hs. rewrite Hs. simpl.
  unfold facing_step, get, mret, Gen_ret.
  destruct (_last_is_forward g1) as [l|]; [destruct (eqb l f)|]; simpl;
    rewrite ?generate_movement_command_eq; rewrite steering_part;
    unfold append_if_stripped; rewrite ?strip_truthy_facing;
    destruct (steering_step d _) as [st g3]; rewrite <- ?app_assoc;
    reflexivity.
Qed.

(** What a cycle leaves behind, when the speed was not zero: the facing and
    the angle of the triple, and its speed if that was a valid one. *)
Lemma generate_state_after (s d : Z) (f : bool) (g : CommandGenerator) :
  s ≠ 0 →
  let g' := (generate_commands_from_car_control (control_triple s d f) g).2 in
  _last_is_forward g' = Some f ∧ _previous_angle g' = Some d
  ∧ (500 ≤ s ≤ 1000 → _current_speed g' = s).
Proof.
  intros Hs. rewrite generate_decompose by assumption.
  rewrite generate_speed_commands_eq.
  apply Z.eqb_neq in Hs. rewrite Hs.
  unfold facing_step, steering_step.
  destruct g as [cur last prev]; simpl.
  destruct ((500 <=? s) && (s <=? 1000) && negb (s =? cur)) eqn:Hr; simpl;
    (destruct last as [l|]; [destruct (eqb l f) eqn:Hlf|]; simpl);
    (destruct prev as [p|]; [destruct (Z.eqb_spec d p)|]; simpl);
    repeat split; try congruence;
    try (apply eqb_prop in Hlf; congruence);
    intros; lia.
Qed.

(** A cycle started from such a state has nothing to send. *)
Lemma generate_nothing_to_send (s d : Z) (f : bool) (g : CommandGenerator) :
  s ≠ 0 →
  _last_is_forward g = Some f → _previous_angle g = Some d →
  (500 ≤ s ≤ 1000 → _current_speed g = s) →
  generate_commands_from_car_control (control_triple s d f) g = ([], g).
Proof.
  intros Hs Hl Hp Hc. rewrite generate_decompose by assumption.
  rewrite generate_speed_commands_eq.
  apply Z.eqb_neq in Hs. rewrite Hs.
  assert ((500 <=? s) && (s <=? 1000) && negb (s =? _current_speed g) = false)
    as ->.
  { destruct ((500 <=? s) && (s <=? 1000)) eqn:Hr; [|reflexivity]. simpl.
    rewrite Hc by lia. rewrite Z.eqb_refl. reflexivity. }
  unfold facing_step, steering_step. rewrite Hl, eqb_reflx.
  cbv beta iota. rewrite Hp, Z.eqb_refl. reflexivity.
Qed.

Lemma ends_with_gt_app (s : string) : ends_with_gt (s +:+ ">") = true.
Proof.
  induction s as [|c s IH]; [reflexivity|].
  simpl. destruct (s +:+ ">") eqn:E; [|exact IH].
  destruct s; discriminate.
Qed.

Lemma bracket_delimited_speed (n : Z) : bracket_delimited (speed_token n) = true.
Proof. unfold speed_token. simpl. apply (ends_with_gt_app ("SPD-" +:+ pretty n)). Qed.

Lemma bracket_delimited_steering (n : Z) :
  bracket_delimited (steering_token n) = true.
Proof. unfold steering_token. simpl. apply (ends_with_gt_app ("SUP-" +:+ pretty n)). Qed.


(** The three steps of a cycle, each with the one kind of command it can
    contribute. *)
Lemma speed_step_shape (s : Z) (g : CommandGenerator) :
  s ≠ 0 →
  (generate_speed_commands s g).1 = []
  ∨ (generate_speed_commands s g).1 = [speed_token s] ∧ 500 ≤ s ≤ 1000.
Proof.
  intros Hs. rewrite generate_speed_commands_eq.
  apply Z.eqb_neq in Hs. rewrite Hs.
  destruct ((500 <=? s) && (s <=? 1000)) eqn:Hr; simpl; [|left; reflexivity].
  destruct (negb (s =? _current_speed g)); [right|left; reflexivity].
  split; [reflexivity|]. apply andb_true_iff in Hr as [H1 H2].
  apply Z.leb_le in H1, H2. lia.
Qed.

Lemma facing_step_shape (f : bool) (g : CommandGenerator) :
  (facing_step f g).1 = [] ∨ (facing_step f g).1 = [facing_token f].
Proof.
  unfold facing_step.
  destruct (_last_is_forward g) as [l|]; [destruct (eqb l f)|]; simpl; auto.
Qed.

Lemma steering_step_shape (d : Z) (g : CommandGenerator) :
  (steering_step d g).1 = [] ∨ (steering_step d g).1 = [get_steering_command d].
Proof.
  unfold steering_step.
  destruct (_previous_angle g) as [p|]; [destruct (d =? p)|]; simpl; auto.
Qed.

Lemma generate_output (s d : Z) (f : bool) (g : CommandGenerator) :
  s ≠ 0 →
  ∃ g1 g2,
    (generate_commands_from_car_control (control_triple s d f) g).1
    = ((generate_speed_commands s g).1 ++ (facing_step f g1).1
       ++ (steering_step d g2).1)%list.
Proof.
  intros Hs. rewrite generate_decompose by assumption.
  destruct (generate_speed_commands s g) as [sp g1].
  exists g1. destruct (facing_step f g1) as [fc g2] eqn:Hf.
  exists g2. destruct (steering_step d g2) as [st g3]. reflexivity.
Qed.

Lemma generate_stop (d : Z) (f : bool) (g : CommandGenerator) :
  generate_commands_from_car_control (control_triple 0 d f) g
  = (["BSTD"], with_current_speed 0 g).
Proof.
  unfold generate_commands_from_car_control, control_triple; simpl.
  unfold mbind, Gen_bind. rewrite generate_speed_commands_eq. reflexivity.
Qed.

(** A dictionary that lacks one of the three keys yields no command. *)
Lemma generate_incomplete (data : car_control_data) (g : CommandGenerator) :
  speed_field data = None ∨ direction_field data = None
  ∨ is_forward_field data = None →
  generate_commands_from_car_control data g = ([], g).
Proof.
  unfold generate_commands_from_car_control.
  destruct data as [[s|] [d|] [f|]]; simpl; intros [H|[H|H]];
    try discriminate; reflexivity.
Qed.

Lemma speed_token_kind (n : Z) :
  is_speed_command (speed_token n) = true
  ∧ is_facing_command (speed_token n) = false
  ∧ is_steering_command (speed_token n) = false.
Proof. repeat split; reflexivity. Qed.

Lemma facing_token_kind (f : bool) :
  is_speed_command (facing_token f) = false
  ∧ is_facing_command (facing_token f) = true
  ∧ is_steering_command (facing_token f) = false.
Proof. destruct f; repeat split; reflexivity. Qed.

Lemma steering_command_kind (a : Z) :
  is_speed_command (get_steering_command a) = false
  ∧ is_facing_command (get_steering_command a) = false
  ∧ is_steering_command (get_steering_command a) = true.
Proof. repeat split; reflexivity. Qed.

End GeneratorFacts.


(** ** Facts about the converter *)

Module ConverterFacts.
Import Config Converter Enumerate Magnitude FloatBounds.

Lemma range_check_spec (P : Z → bool) (lo : Z) (n : nat) :
  range_check P lo n = true →
  ∀ z, lo ≤ z < lo + Z.of_nat n → P z = true.
Proof.
  unfold range_check. rewrite forallb_forall. intros H z Hz.
  replace z with (lo + Z.of_nat (Z.to_nat (z - lo))) by lia.
  apply H. apply in_seq. lia.
Qed.

Lemma bind_Ok {A B} (r : result A) (k : A → result B) (b : B) :
  r ≫= k = Ok b → ∃ a, r = Ok a ∧ k a = Ok b.
Proof. destruct r as [a|]; [|discriminate]. intros H. exists a. auto. Qed.

Lemma returns_spec (r : result Z) (v : Z) : returns r v = true → r = Ok v.
Proof. destruct r; simpl; [|discriminate]. intros H%Z.eqb_eq. congruence. Qed.

Lemma returns_within_spec (lo hi : Z) (r : result Z) :
  returns_within lo hi r = true → ∃ v, r = Ok v ∧ lo ≤ v ≤ hi.
Proof.
  destruct r as [v|]; simpl; [|discriminate].
  intros [H1 H2]%andb_true_iff. exists v. split; [reflexivity|lia].
Qed.

Lemma min_int (a b : Z) : PyNum.min (PyInt a) (PyInt b) = PyInt (Z.min a b).
Proof.
  unfold PyNum.min, PyNum.lt.
  destruct (Z.ltb_spec b a); f_equal; lia.
Qed.

Lemma max_int (a b : Z) : PyNum.max (PyInt a) (PyInt b) = PyInt (Z.max a b).
Proof.
  unfold PyNum.max, PyNum.gt, PyNum.lt.
  destruct (Z.ltb_spec a b); f_equal; lia.
Qed.

Lemma clamp_percent_int (v hi : Z) :
  clamp_percent (PyInt v) hi = PyInt (Z.max 0 (Z.min v hi)).
Proof. unfold clamp_percent. rewrite min_int, max_int. reflexivity. Qed.

Lemma clamp_tilt_int (z : Z) :
  clamp_tilt (PyInt z) = PyInt (Z.max (-90) (Z.min z 90)).
Proof. unfold clamp_tilt. rewrite min_int, max_int. reflexivity. Qed.

(** On the 101 integer attention values the binary64 computation is exact:
    the truncated result is [500 + 3 * attention]. *)
Lemma mapped_speed_exact (a : Z) :
  0 ≤ a ≤ 100 → mapped_speed_of (PyInt a) = Ok (BASE_SPEED + 3 * a).
Proof.
  intros Ha. apply returns_spec.
  apply (range_check_spec
           (λ a, returns (mapped_speed_of (PyInt a)) (BASE_SPEED + 3 * a)) 0 101);
    [vm_compute; reflexivity | lia].
Qed.

Lemma speed_of_int (a m : Z) :
  speed_of (PyInt a) (PyInt m)
  = Ok (if MEDITATION_THRESHOLD <? Z.max 0 (Z.min m MAX_MEDITATION_VALUE)
        then BASE_SPEED
        else BASE_SPEED + 3 * Z.max 0 (Z.min a MAX_ATTENTION_VALUE)).
Proof.
  unfold speed_of. rewrite !clamp_percent_int.
  unfold PyNum.gt, PyNum.lt.
  destruct (MEDITATION_THRESHOLD <? _); [reflexivity|].
  apply mapped_speed_exact. unfold MAX_ATTENTION_VALUE. lia.
Qed.

(** Whatever the numbers, a speed that is returned lies in the speed
    range. *)
Lemma speed_of_bounds (attention meditation : pynum) (s : Z) :
  speed_of attention meditation = Ok s → BASE_SPEED ≤ s ≤ MAX_SPEED.
Proof.
  unfold speed_of.
  destruct (PyNum.gt _ _).
  - intros [= <-]. unfold BASE_SPEED, MAX_SPEED. lia.
  - unfold mapped_speed_of, mbind, result_bind.
    repeat match goal with
           | |- context [match ?r with Ok _ => _ | Raise _ => _ end] =>
               destruct r; try discriminate
           end.
    intros [= <-]. unfold BASE_SPEED, MAX_SPEED. lia.
Qed.

Lemma calculate_speed_eq (attention meditation : pynum)
    (self : BrainDataConverter) :
  calculate_speed attention meditation self
  = match speed_of attention meditation with
    | Ok s => (Ok s, with_car_status (with_speed s) self)
    | Raise e => (Raise e, self)
    end.
Proof.
  unfold calculate_speed, mbind, Conv_bind, eval.
  destruct (speed_of attention meditation); reflexivity.
Qed.

(** On the 181 integer tilts of the clamped range the steering value is
    computed without an exception and lies between 700 and 2300. *)
Lemma steering_of_int (z : Z) :
  -90 ≤ z ≤ 90 → ∃ d, steering_of (PyInt z) = Ok d ∧ 700 ≤ d ≤ 2300.
Proof.
  intros Hz. apply returns_within_spec.
  apply (range_check_spec
           (λ z, returns_within 700 2300 (steering_of (PyInt z))) (-90) 181);
    [vm_compute; reflexivity | lia].
Qed.

Lemma direction_of_int (z : Z) :
  ∃ d, direction_of (PyInt z) = Ok d ∧ 700 ≤ d ≤ 2300.
Proof.
  unfold direction_of. rewrite clamp_tilt_int. apply steering_of_int. lia.
Qed.

(** Whatever the tilt, a steering value that is returned lies in the
    steering range. *)
Lemma direction_of_bounds (gyro_z : pynum) (d : Z) :
  direction_of gyro_z = Ok d → MIN_DIRECTION ≤ d ≤ MAX_DIRECTION.
Proof.
  unfold direction_of, steering_of.
  intros (x & _ & (t & _ & [= <-])%bind_Ok)%bind_Ok.
  unfold MIN_DIRECTION, MAX_DIRECTION. lia.
Qed.

(** The threshold of the hysteresis test is the float 20.0, and an integer
    is below it exactly when it is below 20. *)
Lemma change_threshold_eq : change_threshold = Ok (PyFloat 20%float).
Proof. vm_compute. reflexivity. Qed.

Lemma lt_twenty (n : Z) : PyNum.lt (PyInt n) (PyFloat 20%float) = (n <? 20).
Proof.
  unfold PyNum.lt, PyNum.Z_compare_float.
  replace (Prim2SF 20%float) with (S754_finite false 5629499534213120 (-48))
    by (vm_compute; reflexivity).
  change (0 <=? -48) with false. cbv iota.
  change (Z.pos 5629499534213120) with (20 * 2 ^ 48).
  change (- -48) with 48.
  destruct (Z.compare_spec (n * 2 ^ 48) (20 * 2 ^ 48));
    destruct (Z.ltb_spec n 20); try reflexivity; lia.
Qed.

Lemma calculate_direction_eq (gyro_z : pynum) (self : BrainDataConverter) :
  calculate_direction gyro_z self
  = match direction_of gyro_z with
    | Ok d =>
        if Z.abs (d - _previous_direction self) <? 20
        then (Ok (_previous_direction self), self)
        else (Ok d, with_car_status (with_direction d)
                      (with_previous_direction d self))
    | Raise e => (Raise e, self)
    end.
Proof.
  unfold calculate_direction, mbind, Conv_bind, eval.
  destruct (direction_of gyro_z) as [d|e]; [|reflexivity].
  rewrite change_threshold_eq. unfold get. rewrite lt_twenty.
  destruct (_ <? 20); reflexivity.
Qed.

Lemma digits_of_scaled (m : positive) (e B : Z) :
  0 ≤ B →
  (0 ≤ e → Z.pos m * 2 ^ e < 2 ^ B) →
  (e < 0 → Z.pos m < 2 ^ B * 2 ^ (- e)) →
  Z.pos (digits2_pos m) + e ≤ B.
Proof.
  intros HB Hpos Hneg.
  assert (He : e ≤ B).
  { destruct (Z.le_gt_cases e B) as [|Hgt]; [assumption|].
    assert (0 ≤ e) as H0 by lia. specialize (Hpos H0).
    assert (2 ^ B ≤ 2 ^ e) by (apply Z.pow_le_mono_r; lia).
    assert (0 < 2 ^ e) by (apply Z.pow_pos_nonneg; lia). nia. }
  assert (Z.pos m < 2 ^ (B - e)) as Hm.
  { destruct (Z.le_gt_cases 0 e) as [H0|H0].
    - specialize (Hpos H0).
      replace B with (B - e + e) in Hpos by lia.
      rewrite Z.pow_add_r in Hpos by lia.
      assert (0 < 2 ^ e) by (apply Z.pow_pos_nonneg; lia). nia.
    - specialize (Hneg H0). rewrite <- Z.pow_add_r in Hneg by lia.
      replace (B + - e) with (B - e) in Hneg by lia. exact Hneg. }
  change (Z.pos (digits2_pos m)) with (Zdigits2 (Z.pos m)).
  assert (Zdigits2 (Z.pos m) ≤ B - e); [|lia].
  apply Zdigits2_le; lia.
Qed.

(** A float that the comparisons of a clamp place strictly above [lo] and
    not above [hi] is finite, and small when [lo] and [hi] are. *)
Lemma small_between (f : float) (lo hi B : Z) :
  PyNum.Z_compare_float lo f = Some Lt →
  PyNum.Z_compare_float hi f ≠ Some Lt →
  0 ≤ B → - 2 ^ B ≤ lo → hi < 2 ^ B →
  small B (Prim2SF f).
Proof.
  unfold PyNum.Z_compare_float.
  destruct (Prim2SF f) as [s|s| |s m e]; simpl; intros Hlo Hhi HB Hl Hh.
  - exact I.
  - destruct s; congruence.
  - discriminate.
  - assert (∀ k, 0 ≤ k → 0 < 2 ^ k) as Hpow
      by (intros; apply Z.pow_pos_nonneg; lia).
    revert Hlo Hhi. change (Z.neg m) with (- Z.pos m).
    destruct (Z.leb_spec 0 e) as [He|He]; intros Hlo Hhi;
      (apply digits_of_scaled; [assumption| |]; intros He'; try lia);
      pose proof (Pos2Z.is_pos m) as HM; revert Hlo Hhi HM;
      generalize (Z.pos m); intros M Hlo Hhi HM.
    + destruct s.
      * injection Hlo as Hlo. change (lo < - M * 2 ^ e) in Hlo. lia.
      * assert (¬ hi < M * 2 ^ e) as Hn
          by (intros Hc; apply Hhi; f_equal; exact Hc). lia.
    + pose proof (Hpow (- e) ltac:(lia)).
      destruct s.
      * injection Hlo as Hlo. change (lo * 2 ^ (- e) < - M) in Hlo. nia.
      * assert (¬ hi * 2 ^ (- e) < M) as Hn
          by (intros Hc; apply Hhi; f_equal; exact Hc). nia.
Qed.

Lemma div_small (a c : float) (sy : bool) (my : positive) (ey B1 : Z) :
  small B1 (Prim2SF a) → Prim2SF c = S754_finite sy my ey →
  -1074 ≤ B1 - (Z.pos (digits2_pos my) + ey) + 1 ≤ 970 →
  small (B1 - (Z.pos (digits2_pos my) + ey) + 2) (Prim2SF (a / c)).
Proof. intros Ha Hc HB. rewrite div_spec, Hc. apply SFdiv_small; assumption. Qed.

Lemma mul_small (a b : float) (B1 B2 : Z) :
  small B1 (Prim2SF a) → small B2 (Prim2SF b) → -1074 ≤ B1 + B2 ≤ 970 →
  small (B1 + B2 + 1) (Prim2SF (a * b)).
Proof. intros. rewrite mul_spec. apply SFmul_small; assumption. Qed.

Lemma add_small (a b : float) (B : Z) :
  small B (Prim2SF a) → small B (Prim2SF b) → -1074 ≤ B + 1 ≤ 970 →
  small (B + 2) (Prim2SF (a + b)).
Proof. intros. rewrite add_spec. apply SFadd_small; assumption. Qed.

Lemma sub_small (a b : float) (B : Z) :
  small B (Prim2SF a) → small B (Prim2SF b) → -1074 ≤ B + 1 ≤ 970 →
  small (B + 2) (Prim2SF (a - b)).
Proof. intros. rewrite sub_spec. apply SFsub_small; assumption. Qed.

(** [int()] succeeds on a small float. *)
Lemma int_small (f : float) (B : Z) :
  small B (Prim2SF f) → ∃ t, PyNum.int (PyFloat f) = Ok t.
Proof.
  unfold PyNum.int. destruct (Prim2SF f); simpl; try tauto; eauto.
Qed.

Lemma truediv_float_int (a : float) (c : Z) (fc : float) :
  c ≠ 0 → PyNum.float_of_Z c = Ok fc →
  PyNum.truediv (PyFloat a) (PyInt c) = Ok (PyFloat (a / fc)).
Proof.
  intros Hc Hfc. unfold PyNum.truediv, PyNum.is_zero, PyNum.eq.
  apply Z.eqb_neq in Hc. rewrite Hc. simpl. rewrite Hfc. reflexivity.
Qed.

Lemma mul_float_int (a : float) (c : Z) (fc : float) :
  PyNum.float_of_Z c = Ok fc →
  PyNum.mul (PyFloat a) (PyInt c) = Ok (PyFloat (a * fc)).
Proof. intros Hfc. unfold PyNum.mul, PyNum.arith. simpl. rewrite Hfc. reflexivity. Qed.

Lemma add_float_int (a : float) (c : Z) (fc : float) :
  PyNum.float_of_Z c = Ok fc →
  PyNum.add (PyFloat a) (PyInt c) = Ok (PyFloat (a + fc)).
Proof. intros Hfc. unfold PyNum.add, PyNum.arith. simpl. rewrite Hfc. reflexivity. Qed.

Lemma add_int_float (c : Z) (fc a : float) :
  PyNum.float_of_Z c = Ok fc →
  PyNum.add (PyInt c) (PyFloat a) = Ok (PyFloat (fc + a)).
Proof. intros Hfc. unfold PyNum.add, PyNum.arith. simpl. rewrite Hfc. reflexivity. Qed.

Lemma sub_int_float (c : Z) (fc a : float) :
  PyNum.float_of_Z c = Ok fc →
  PyNum.sub (PyInt c) (PyFloat a) = Ok (PyFloat (fc - a)).
Proof. intros Hfc. unfold PyNum.sub, PyNum.arith. simpl. rewrite Hfc. reflexivity. Qed.

Lemma bind_ret {A B} (a : A) (k : A → result B) : Ok a ≫= k = k a.
Proof. reflexivity. Qed.

Ltac closed_arith := vm_compute; repeat split; discriminate.

(** The linear mapping never raises on a float attention within the
    clamp. *)
Lemma mapped_speed_float (a : float) :
  small 7 (Prim2SF a) → ∃ t, mapped_speed_of (PyFloat a)
                             = Ok (Z.max BASE_SPEED (Z.min t MAX_SPEED)).
Proof.
  intros Ha. unfold mapped_speed_of, MAX_ATTENTION_VALUE, MAX_SPEED, BASE_SPEED.
  change (800 - 500) with 300.
  rewrite (truediv_float_int a 100 100%float) by (lia || (vm_compute; reflexivity)).
  rewrite bind_ret.
  rewrite (mul_float_int _ 300 300%float) by (vm_compute; reflexivity).
  rewrite bind_ret.
  rewrite (add_int_float 500 500%float) by (vm_compute; reflexivity).
  rewrite bind_ret.
  assert (H1 : small 2 (Prim2SF (a / 100))).
  { eapply small_weaken;
      [|eapply (div_small a 100 false 7036874417766400 (-46) 7);
        [exact Ha|vm_compute; reflexivity|closed_arith]].
    closed_arith. }
  assert (H2 : small 12 (Prim2SF (a / 100 * 300))).
  { apply (mul_small _ _ 2 9); [exact H1|closed_arith|lia]. }
  assert (H3 : small 14 (Prim2SF (500 + a / 100 * 300))).
  { apply (add_small _ _ 12); [closed_arith|exact H2|lia]. }
  destruct (int_small _ _ H3) as [t Ht]. rewrite Ht. exists t. reflexivity.
Qed.

(** What the clamp of attention and meditation returns for a float: one of
    the two integer bounds, or the float itself when it lies within them. *)
Lemma clamp_percent_float (a : float) :
  clamp_percent (PyFloat a) 100 = PyInt 0
  ∨ clamp_percent (PyFloat a) 100 = PyInt 100
  ∨ clamp_percent (PyFloat a) 100 = PyFloat a ∧ small 7 (Prim2SF a).
Proof.
  unfold clamp_percent, PyNum.min, PyNum.max, PyNum.gt, PyNum.lt.
  destruct (PyNum.Z_compare_float 100 a) as [[]|] eqn:Hhi;
    try (right; left; reflexivity);
    (destruct (PyNum.Z_compare_float 0 a) as [[]|] eqn:Hlo;
     try (left; reflexivity));
    right; right; (split; [reflexivity|]);
    apply (small_between a 0 100 7); try assumption; try lia; congruence.
Qed.

(** What the clamp of the tilt returns for a float. *)
Lemma clamp_tilt_float (z : float) :
  clamp_tilt (PyFloat z) = PyInt (-90)
  ∨ clamp_tilt (PyFloat z) = PyInt 90
  ∨ clamp_tilt (PyFloat z) = PyFloat z ∧ small 7 (Prim2SF z).
Proof.
  unfold clamp_tilt, PyNum.min, PyNum.max, PyNum.gt, PyNum.lt.
  destruct (PyNum.Z_compare_float 90 z) as [[]|] eqn:Hhi;
    try (right; left; reflexivity);
    (destruct (PyNum.Z_compare_float (-90) z) as [[]|] eqn:Hlo;
     try (left; reflexivity));
    right; right; (split; [reflexivity|]);
    apply (small_between z (-90) 90 7); try assumption; try lia; congruence.
Qed.

(** The steering computation never raises on a float tilt within the
    clamp. *)
Lemma steering_float (z : float) :
  small 7 (Prim2SF z) →
  ∃ t, steering_of (PyFloat z)
       = Ok (Z.max MIN_DIRECTION (Z.min t MAX_DIRECTION)).
Proof.
  intros Hz.
  unfold steering_of, DIRECTION_RANGE_PER_SIDE, CENTER_DIRECTION, STEERING_GAIN.
  destruct (PyNum.gt (PyFloat z) (PyInt 0)).
  - rewrite (truediv_float_int z 90 90%float) by (lia || (vm_compute; reflexivity)).
    rewrite bind_ret.
    change (PyNum.mul (PyFloat (z / 90)) (PyFloat 2))
      with (Ok (A:=pynum) (PyFloat (z / 90 * 2))).
    rewrite bind_ret.
    rewrite (mul_float_int _ 400 400%float) by (vm_compute; reflexivity).
    rewrite bind_ret.
    rewrite (sub_int_float 1500 1500%float) by (vm_compute; reflexivity).
    rewrite bind_ret.
    assert (H1 : small 2 (Prim2SF (z / 90))).
    { eapply small_weaken;
        [|eapply (div_small z 90 false 6333186975989760 (-46) 7);
          [exact Hz|vm_compute; reflexivity|closed_arith]].
      closed_arith. }
    assert (H2 : small 5 (Prim2SF (z / 90 * 2))).
    { apply (mul_small _ _ 2 2); [exact H1|closed_arith|lia]. }
    assert (H3 : small 15 (Prim2SF (z / 90 * 2 * 400))).
    { apply (mul_small _ _ 5 9); [exact H2|closed_arith|lia]. }
    assert (H4 : small 17 (Prim2SF (1500 - z / 90 * 2 * 400))).
    { apply (sub_small _ _ 15); [closed_arith|exact H3|lia]. }
    destruct (int_small _ _ H4) as [t Ht]. rewrite Ht. exists t. reflexivity.
  - destruct (PyNum.lt (PyFloat z) (PyInt 0)); [|exists 1500; reflexivity].
    destruct (PyNum.lt (PyFloat z) (PyInt (-75))).
    { exists 1500. vm_compute. reflexivity. }
    rewrite (add_float_int z 75 75%float) by (vm_compute; reflexivity).
    rewrite bind_ret.
    rewrite (truediv_float_int _ 75 75%float) by (lia || (vm_compute; reflexivity)).
    rewrite bind_ret.
    change (PyNum.mul (PyFloat ((z + 75) / 75)) (PyFloat 2))
      with (Ok (A:=pynum) (PyFloat ((z + 75) / 75 * 2))).
    rewrite bind_ret.
    rewrite (mul_float_int _ 400 400%float) by (vm_compute; reflexivity).
    rewrite bind_ret.
    rewrite (add_int_float 1500 1500%float) by (vm_compute; reflexivity).
    rewrite bind_ret.
    assert (H0 : small 9 (Prim2SF (z + 75))).
    { apply (add_small _ _ 7); [exact Hz|closed_arith|lia]. }
    assert (H1 : small 4 (Prim2SF ((z + 75) / 75))).
    { eapply small_weaken;
        [|eapply (div_small _ 75 false 5277655813324800 (-46) 9);
          [exact H0|vm_compute; reflexivity|closed_arith]].
      closed_arith. }
    assert (H2 : small 7 (Prim2SF ((z + 75) / 75 * 2))).
    { apply (mul_small _ _ 4 2); [exact H1|closed_arith|lia]. }
    assert (H3 : small 17 (Prim2SF ((z + 75) / 75 * 2 * 400))).
    { apply (mul_small _ _ 7 9); [exact H2|closed_arith|lia]. }
    assert (H4 : small 19 (Prim2SF (1500 + (z + 75) / 75 * 2 * 400))).
    { apply (add_small _ _ 17); [closed_arith|exact H3|lia]. }
    destruct (int_small _ _ H4) as [t Ht]. rewrite Ht. exists t. reflexivity.
Qed.

(** [calculate_speed] never raises: whatever the two numbers, the speed is
    computed and lies in the speed range. *)
Lemma speed_of_total (attention meditation : pynum) :
  ∃ s, speed_of attention meditation = Ok s ∧ BASE_SPEED ≤ s ≤ MAX_SPEED.
Proof.
  assert (H : ∃ s, speed_of attention meditation = Ok s).
  { unfold speed_of. destruct (PyNum.gt _ _); [eexists; reflexivity|].
    unfold MAX_ATTENTION_VALUE.
    destruct attention as [a|a].
    - rewrite clamp_percent_int. eexists. apply mapped_speed_exact. lia.
    - destruct (clamp_percent_float a) as [-> | [-> | [-> Ha]]].
      + eexists. apply mapped_speed_exact. lia.
      + eexists. apply mapped_speed_exact. lia.
      + destruct (mapped_speed_float a Ha) as [t Ht]. eexists. exact Ht. }
  destruct H as [s Hs]. exists s. split; [exact Hs|].
  eapply speed_of_bounds. exact Hs.
Qed.

(** The steering value is computed whatever the tilt, and lies in the
    steering range. *)
Lemma direction_of_total (gyro_z : pynum) :
  ∃ d, direction_of gyro_z = Ok d ∧ MIN_DIRECTION ≤ d ≤ MAX_DIRECTION.
Proof.
  assert (H : ∃ d, direction_of gyro_z = Ok d).
  { destruct gyro_z as [z|z].
    - destruct (direction_of_int z) as (d & Hd & _). eauto.
    - unfold direction_of.
      destruct (clamp_tilt_float z) as [-> | [-> | [-> Hz]]].
      + destruct (steering_of_int (-90)) as (d & Hd & _); [lia|eauto].
      + destruct (steering_of_int 90) as (d & Hd & _); [lia|eauto].
      + destruct (steering_float z Hz) as [t Ht]. eauto. }
  destruct H as [d Hd]. exists d. split; [exact Hd|].
  eapply direction_of_bounds. exact Hd.
Qed.

Lemma conv_bind_Ok {A B} (m : Conv A) (k : A → Conv B)
    (self self' : BrainDataConverter) (b : B) :
  (m ≫= k) self = (Ok b, self') →
  ∃ a self1, m self = (Ok a, self1) ∧ k a self1 = (Ok b, self').
Proof.
  unfold mbind, Conv_bind. destruct (m self) as [[a|e] self1]; [|discriminate].
  intros H. exists a, self1. auto.
Qed.

Lemma eval_Ok {A} (r : result A) (self self' : BrainDataConverter) (a : A) :
  eval r self = (Ok a, self') → r = Ok a ∧ self' = self.
Proof. unfold eval. intros [= -> ->]. auto. Qed.

(** The facing computed for the value of the [y] axis. *)
Lemma calculate_forward_direction_eq (gyro_y : pyval)
    (self self' : BrainDataConverter) (b : bool) :
  calculate_forward_direction gyro_y self = (Ok b, self') →
  match gyro_y with
  | VNone => b = false
  | VNum y => b = PyNum.lt y (PyInt 10)
  | VStr _ | VDict _ => False
  end.
Proof.
  destruct gyro_y as [|y|?|?]; simpl; unfold mret, Conv_ret, eval;
    intros [= <-]; auto.
Qed.

End ConverterFacts.

(** ** Facts about [convert_essential_data] *)

Module PipelineFacts.
Import Config Converter ConverterPipeline ConverterFacts.

(** A control signal comes out only of a dictionary with the three keys. *)
Lemma convert_Some (essential_data : pyval) (self self' : BrainDataConverter)
    (signal : control_signal) :
  convert_essential_data essential_data self = (Some signal, self') →
  ∃ d attention meditation gyro,
    essential_data = VDict d
    ∧ d !! "attention" = Some attention ∧ d !! "meditation" = Some meditation
    ∧ d !! "gyro" = Some gyro
    ∧ convert_body attention meditation gyro self = (Ok signal, self').
Proof.
  unfold convert_essential_data, has_key, dict_get.
  destruct essential_data as [|n|s|d]; try discriminate.
  destruct (d !! "attention") as [attention|] eqn:Ha; [|discriminate].
  destruct (d !! "meditation") as [meditation|] eqn:Hm; [|discriminate].
  destruct (d !! "gyro") as [gyro|] eqn:Hg; [|discriminate].
  simpl. destruct (_ || _); [discriminate|].
  destruct (convert_body attention meditation gyro self) as [[sig|e] self1] eqn:Hb;
    [|discriminate].
  intros [= -> ->]. exists d, attention, meditation, gyro. auto.
Qed.

(** What the body of the conversion computed, when it returned a signal. *)
Lemma convert_body_Ok (attention meditation gyro : pyval)
    (self self' : BrainDataConverter) (signal : control_signal) :
  convert_body attention meditation gyro self = (Ok signal, self') →
  ∃ a m z,
    attention = VNum a ∧ meditation = VNum m ∧ gyro_axis gyro "z" = VNum z
    ∧ speed_of a m = Ok (speed signal)
    ∧ match gyro_axis gyro "y" with
      | VNone => is_forward signal = false
      | VNum y => is_forward signal = PyNum.lt y (PyInt 10)
      | VStr _ | VDict _ => False
      end.
Proof.
  unfold convert_body.
  intros (a & s1 & (Ha & ->)%eval_Ok & H)%conv_bind_Ok.
  apply conv_bind_Ok in H as (m & s2 & (Hm & ->)%eval_Ok & H).
  apply conv_bind_Ok in H as (sp & s3 & Hsp & H).
  apply conv_bind_Ok in H as (z & s4 & (Hz & ->)%eval_Ok & H).
  apply conv_bind_Ok in H as (dir & s5 & Hdir & H).
  apply conv_bind_Ok in H as (fwd & s6 & Hfwd & H).
  injection H as <- <-.
  destruct attention as [|a'|?|?]; try discriminate. injection Ha as ->.
  destruct meditation as [|m'|?|?]; try discriminate. injection Hm as ->.
  destruct (gyro_axis gyro "z") as [|z'|?|?]; try discriminate.
  injection Hz as ->.
  exists a, m, z. repeat split; simpl.
  - rewrite calculate_speed_eq in Hsp.
    destruct (speed_of a m); [|discriminate]. injection Hsp as -> _. reflexivity.
  - apply calculate_forward_direction_eq in Hfwd. exact Hfwd.
Qed.

(** With numbers for attention, meditation and the two axes, the conversion
    returns a signal. *)
Lemma convert_body_total (a m z : pynum) (gyro : pyval) (gyro_y : pyval)
    (self : BrainDataConverter) :
  gyro_axis gyro "z" = VNum z →
  gyro_axis gyro "y" = gyro_y →
  gyro_y = VNone ∨ (∃ y, gyro_y = VNum y) →
  ∃ signal self',
    convert_body (VNum a) (VNum m) gyro self = (Ok signal, self').
Proof.
  intros Hz Hy Hyv. unfold convert_body. rewrite Hz, Hy.
  unfold mbind at 1, Conv_bind at 1, eval at 1, as_number at 1.
  unfold mbind at 1, Conv_bind at 1, eval at 1, as_number at 1.
  unfold mbind at 1, Conv_bind at 1. rewrite calculate_speed_eq.
  destruct (speed_of_total a m) as (s & -> & _).
  unfold mbind at 1, Conv_bind at 1, eval at 1, as_number at 1.
  unfold mbind at 1, Conv_bind at 1. rewrite calculate_direction_eq.
  destruct (direction_of_total z) as (d & -> & _).
  destruct (_ <? 20);
    destruct Hyv as [-> | [y ->]]; simpl; eauto.
Qed.

End PipelineFacts.

(** ** The speed grows with the attention *)

Module SpeedFacts.
Import Config Converter Enumerate Magnitude FloatBounds ConverterFacts.
Import RealValue RealFacts ShiftFacts RoundFacts MonoFacts.
Import OpDefs OpFacts ArithFacts Order OrderFacts.

(** [int()] of a float that is not negative is the integer part of its
    value. *)
Lemma int_floor (f : float) :
  nonneg_float (Prim2SF f) →
  ∃ t, PyNum.int (PyFloat f) = Ok t
       ∧ (IZR t <= V (Prim2SF f) < IZR t + 1)%R.
Proof.
  unfold PyNum.int.
  destruct (Prim2SF f) as [s|s| |[] m e]; try contradiction; intros _.
  - exists 0. split; [reflexivity|]. simpl. lra.
  - eexists. split; [reflexivity|]. cbn [V].
    destruct (Z.leb_spec 0 e) as [He|He].
    + rewrite (bpow_IZR e He), <- mult_IZR. lra.
    + assert (HP : 0 < 2 ^ (- e)) by (apply Z.pow_pos_nonneg; lia).
      pose proof (Z.div_mod (Z.pos m) (2 ^ (- e)) ltac:(lia)) as Hdm.
      pose proof (Z.mod_pos_bound (Z.pos m) (2 ^ (- e)) HP) as Hr.
      set (t := Z.pos m / 2 ^ (- e)) in *.
      set (r := Z.pos m mod 2 ^ (- e)) in *.
      assert (Hb : bpow e = (/ IZR (2 ^ (- e)))%R).
      { rewrite <- bpow_IZR by lia.
        apply (Rmult_eq_reg_r (bpow (- e))); [|apply bpow_neq].
        rewrite <- bpow_add, Rinv_l by apply bpow_neq.
        replace (e + - e) with 0 by lia. reflexivity. }
      rewrite Hb, Hdm, plus_IZR, mult_IZR.
      apply IZR_lt in HP.
      assert (0 <= IZR r < IZR (2 ^ (- e)))%R as [Hr0 Hr1]
        by (split; [apply IZR_le|apply IZR_lt]; lia).
      set (P := IZR (2 ^ (- e))) in *. set (ρ := IZR r) in *.
      clearbody P ρ.
      split.
      * apply (Rmult_le_reg_r P); [lra|].
        rewrite Rmult_assoc, Rinv_l by lra. nra.
      * apply (Rmult_lt_reg_r P); [lra|].
        rewrite Rmult_assoc, Rinv_l by lra. nra.
Qed.

(** What is computed from more is not less. *)
Lemma approx_mono (v1 v2 : R) (x1 x2 : spec_float) :
  (0 <= v1 <= v2)%R → approx v1 x1 → approx v2 x2 → (V x1 <= V x2)%R.
Proof.
  intros [H0 H12] [N1 [[-> ->]|[P1 R1]]] [N2 [[-> E2]|[P2 R2]]].
  - lra.
  - apply (rounded_nonneg v2); assumption.
  - lra.
  - apply (rounded_mono v1 v2); [lra|assumption|assumption].
Qed.

Lemma approx_nonneg (v : R) (x : spec_float) : approx v x → (0 <= V x)%R.
Proof. intros [N _]. apply V_nonneg. exact N. Qed.

(** A nonnegative float of the machine is computed from its own value. *)
Lemma approx_self (f : float) :
  nonneg_float (Prim2SF f) → approx (V (Prim2SF f)) (Prim2SF f).
Proof.
  intros N. split; [exact N|].
  pose proof (Prim2SF_valid f) as Hv.
  destruct (Prim2SF f) as [s|s| |[] m e]; try contradiction.
  - left. split; reflexivity.
  - right. split; [apply V_finite_pos|].
    apply rounded_canonical.
    apply andb_prop in Hv as [Hv _]. exact Hv.
Qed.

(** Division of a nonnegative float by a positive one. *)
Lemma div_approx (a c : float) (my : positive) (ey B : Z) :
  nonneg_float (Prim2SF a) → small B (Prim2SF a) →
  Prim2SF c = S754_finite false my ey →
  -1074 ≤ B - (Z.pos (digits2_pos my) + ey) + 1 ≤ 970 →
  approx (V (Prim2SF a) / V (Prim2SF c)) (Prim2SF (a / c)).
Proof.
  intros Na Sa Hc HB.
  pose proof (div_small a c false my ey B Sa Hc HB) as Sr.
  rewrite div_spec, Hc in Sr |- *.
  destruct (Prim2SF a) as [s|s| |[] mx ex]; try contradiction.
  - split; [exact I|]. left. split; [|reflexivity].
    simpl V at 1. unfold Rdiv. ring.
  - pose proof (V_finite_pos mx ex). pose proof (V_finite_pos my ey).
    split.
    + eapply nonneg_of_small; [exact Sr|].
      change (SF64div (S754_finite false mx ex) (S754_finite false my ey))
        with (let '(mz, ez, lz) :=
                SFdiv_core_binary prec emax (Z.pos mx) ex (Z.pos my) ey in
              binary_round_aux prec emax false mz ez lz).
      destruct (SFdiv_core_binary _ _ _ _ _ _) as [[mz ez] lz].
      apply binary_round_aux_sign.
    + right. split; [apply Rdiv_lt_0_compat; assumption|].
      apply (SFdiv_rounded mx my ex ey B); assumption.
Qed.

(** Multiplication of a nonnegative float by a positive one. *)
Lemma mul_approx (a c : float) (my : positive) (ey B1 B2 : Z) :
  nonneg_float (Prim2SF a) → small B1 (Prim2SF a) →
  Prim2SF c = S754_finite false my ey → small B2 (Prim2SF c) →
  -1074 ≤ B1 + B2 ≤ 970 →
  approx (V (Prim2SF a) * V (Prim2SF c)) (Prim2SF (a * c)).
Proof.
  intros Na Sa Hc Sc HB.
  pose proof (mul_small a c B1 B2 Sa Sc HB) as Sr.
  rewrite mul_spec, Hc in Sr |- *. rewrite Hc in Sc.
  destruct (Prim2SF a) as [s|s| |[] mx ex]; try contradiction.
  - split; [exact I|]. left. split; [|reflexivity].
    simpl V at 1. ring.
  - pose proof (V_finite_pos mx ex). pose proof (V_finite_pos my ey).
    split.
    + eapply nonneg_of_small; [exact Sr|].
      apply (binary_round_aux_sign false).
    + right. split; [apply Rmult_lt_0_compat; assumption|].
      apply (SFmul_rounded mx my ex ey B1 B2); assumption.
Qed.

(** Addition of a nonnegative float to a positive one. *)
Lemma add_approx (c a : float) (mx : positive) (ex B : Z) :
  Prim2SF c = S754_finite false mx ex → small B (Prim2SF c) →
  nonneg_float (Prim2SF a) → small B (Prim2SF a) →
  -1074 ≤ B + 1 ≤ 970 →
  approx (V (Prim2SF c) + V (Prim2SF a)) (Prim2SF (c + a)).
Proof.
  intros Hc Sc Na Sa HB.
  pose proof (add_small c a B Sc Sa HB) as Sr.
  pose proof (approx_self c) as Self.
  rewrite add_spec, Hc in Sr |- *. rewrite Hc in Sc, Self.
  pose proof (V_finite_pos mx ex).
  destruct (Prim2SF a) as [s|s| |[] my ey]; try contradiction.
  - simpl V at 2. rewrite Rplus_0_r. apply Self. exact I.
  - pose proof (V_finite_pos my ey).
    split.
    + eapply nonneg_of_small; [exact Sr|].
      change (SF64add (S754_finite false mx ex) (S754_finite false my ey))
        with (binary_normalize prec emax
                (Z.pos ((shl_align mx ex (Z.min ex ey)).1
                        + (shl_align my ey (Z.min ex ey)).1))
                (Z.min ex ey) false).
      unfold binary_normalize, binary_round.
      destruct (shl_align _ _ _) as [mz ez].
      apply (binary_round_aux_sign false).
    + right. split; [lra|].
      apply (SFadd_rounded mx my ex ey B); assumption.
Qed.

(** The float the linear mapping truncates. *)
Lemma mapped_float_approx (a : float) :
  nonneg_float (Prim2SF a) → small 7 (Prim2SF a) →
  let r := (a / 100)%float in
  let s := (r * 300)%float in
  let t := (500 + s)%float in
  approx (V (Prim2SF a) / 100) (Prim2SF r)
  ∧ approx (V (Prim2SF r) * 300) (Prim2SF s)
  ∧ approx (500 + V (Prim2SF s)) (Prim2SF t)
  ∧ small 14 (Prim2SF t).
Proof.
  intros Na Sa r s t.
  assert (V100 : V (Prim2SF 100) = 100%R).
  { change (Prim2SF 100) with (S754_finite false 7036874417766400 (-46)).
    cbn [V]. unfold bpow. simpl powerRZ. lra. }
  assert (V300 : V (Prim2SF 300) = 300%R).
  { change (Prim2SF 300) with (S754_finite false 5277655813324800 (-44)).
    cbn [V]. unfold bpow. simpl powerRZ. lra. }
  assert (V500 : V (Prim2SF 500) = 500%R).
  { change (Prim2SF 500) with (S754_finite false 8796093022208000 (-44)).
    cbn [V]. unfold bpow. simpl powerRZ. lra. }
  assert (H1 : small 2 (Prim2SF r)).
  { eapply small_weaken;
      [|eapply (div_small a 100 false 7036874417766400 (-46) 7);
        [exact Sa|vm_compute; reflexivity|closed_arith]].
    closed_arith. }
  assert (A1 : approx (V (Prim2SF a) / 100) (Prim2SF r)).
  { rewrite <- V100.
    apply (div_approx a 100 7036874417766400 (-46) 7);
      [exact Na|exact Sa|vm_compute; reflexivity|closed_arith]. }
  assert (H2 : small 12 (Prim2SF s)).
  { apply (mul_small _ _ 2 9); [exact H1|closed_arith|lia]. }
  assert (A2 : approx (V (Prim2SF r) * 300) (Prim2SF s)).
  { rewrite <- V300.
    apply (mul_approx r 300 5277655813324800 (-44) 2 9);
      [apply A1|exact H1|vm_compute; reflexivity|closed_arith|lia]. }
  assert (H3 : small 14 (Prim2SF t)).
  { apply (add_small _ _ 12); [closed_arith|exact H2|lia]. }
  assert (A3 : approx (500 + V (Prim2SF s)) (Prim2SF t)).
  { rewrite <- V500.
    apply (add_approx 500 s 8796093022208000 (-44) 12);
      [vm_compute; reflexivity|closed_arith|apply A2|exact H2|lia]. }
  split; [exact A1|]. split; [exact A2|]. split; [exact A3|exact H3].
Qed.

(** The value that is truncated grows with the attention. *)
Lemma mapped_float_mono (a1 a2 : float) :
  nonneg_float (Prim2SF a1) → small 7 (Prim2SF a1) →
  nonneg_float (Prim2SF a2) → small 7 (Prim2SF a2) →
  (V (Prim2SF a1) <= V (Prim2SF a2))%R →
  (V (Prim2SF (500 + a1 / 100 * 300)) <= V (Prim2SF (500 + a2 / 100 * 300)))%R.
Proof.
  intros N1 S1 N2 S2 Hle.
  destruct (mapped_float_approx a1 N1 S1) as (R1 & M1 & T1 & _).
  destruct (mapped_float_approx a2 N2 S2) as (R2 & M2 & T2 & _).
  pose proof (V_nonneg _ N1) as P1.
  assert (Hr : (V (Prim2SF (a1 / 100)) <= V (Prim2SF (a2 / 100)))%R).
  { eapply approx_mono; [|exact R1|exact R2]. lra. }
  pose proof (approx_nonneg _ _ R1) as Pr.
  assert (Hs : (V (Prim2SF (a1 / 100 * 300)) <= V (Prim2SF (a2 / 100 * 300)))%R).
  { eapply approx_mono; [|exact M1|exact M2]. lra. }
  pose proof (approx_nonneg _ _ M1) as Ps.
  eapply approx_mono; [|exact T1|exact T2]. lra.
Qed.

(** The speed mapped from a float attention within the clamp is the integer
    part of the float computed. *)
Lemma mapped_speed_floor (a : float) :
  nonneg_float (Prim2SF a) → small 7 (Prim2SF a) →
  ∃ t, mapped_speed_of (PyFloat a)
       = Ok (Z.max BASE_SPEED (Z.min t MAX_SPEED))
       ∧ (IZR t <= V (Prim2SF (500 + a / 100 * 300)) < IZR t + 1)%R.
Proof.
  intros Na Sa.
  destruct (mapped_float_approx a Na Sa) as (_ & _ & [Nt _] & _).
  destruct (int_floor _ Nt) as (t & Ht & Hfloor).
  exists t. split; [|exact Hfloor].
  unfold mapped_speed_of, MAX_ATTENTION_VALUE, MAX_SPEED, BASE_SPEED.
  change (800 - 500) with 300.
  rewrite (truediv_float_int a 100 100%float) by (lia || (vm_compute; reflexivity)).
  rewrite bind_ret.
  rewrite (mul_float_int _ 300 300%float) by (vm_compute; reflexivity).
  rewrite bind_ret.
  rewrite (add_int_float 500 500%float) by (vm_compute; reflexivity).
  rewrite bind_ret. rewrite Ht. reflexivity.
Qed.

(** The mapped speed grows with the value of a float attention. *)
Lemma mapped_speed_float_mono (a1 a2 : float) :
  nonneg_float (Prim2SF a1) → small 7 (Prim2SF a1) →
  nonneg_float (Prim2SF a2) → small 7 (Prim2SF a2) →
  (V (Prim2SF a1) <= V (Prim2SF a2))%R →
  ∃ s1 s2, mapped_speed_of (PyFloat a1) = Ok s1
           ∧ mapped_speed_of (PyFloat a2) = Ok s2
           ∧ s1 ≤ s2.
Proof.
  intros N1 S1 N2 S2 Hle.
  destruct (mapped_speed_floor a1 N1 S1) as (t1 & E1 & [L1 U1]).
  destruct (mapped_speed_floor a2 N2 S2) as (t2 & E2 & [L2 U2]).
  pose proof (mapped_float_mono a1 a2 N1 S1 N2 S2 Hle) as Hm.
  assert (Ht : t1 ≤ t2).
  { assert (IZR t1 < IZR (t2 + 1))%R as H%lt_IZR by (rewrite plus_IZR; lra).
    lia. }
  eexists _, _. split; [exact E1|]. split; [exact E2|].
  unfold BASE_SPEED, MAX_SPEED. lia.
Qed.

(** The integers of the clamp are floats exactly. *)
Lemma float_of_percent (k : Z) :
  0 ≤ k ≤ 100 →
  ∃ f, PyNum.float_of_Z k = Ok f
       ∧ nonneg_float (Prim2SF f) ∧ small 7 (Prim2SF f)
       ∧ V (Prim2SF f) = IZR k.
Proof.
  intros Hk.
  assert (H : exact_float 7 k = true).
  { apply (range_check_spec (exact_float 7) 0 101);
      [vm_compute; reflexivity | lia]. }
  unfold exact_float in H.
  destruct (PyNum.float_of_Z k) as [f|]; [|discriminate].
  exists f. split; [reflexivity|].
  destruct (Prim2SF f) as [s|s| |[] m e]; try discriminate.
  - apply Z.eqb_eq in H as ->. repeat split.
  - apply andb_prop in H as [H Hd]. apply andb_prop in H as [He Hm].
    apply Z.leb_le in He, Hd. apply Z.eqb_eq in Hm.
    split; [exact I|]. split; [exact Hd|].
    cbn [V]. rewrite Hm, mult_IZR, <- bpow_IZR by lia.
    rewrite Rmult_assoc, <- bpow_add.
    replace (- e + e) with 0 by lia. rewrite bpow_0. ring.
Qed.

(** A number whose value lies within the clamp is mapped as a float of that
    value. *)
Lemma mapped_speed_as_float (c : pynum) (w : R) :
  value_of c = Finite w → (0 <= w <= 100)%R →
  ∃ f, nonneg_float (Prim2SF f) ∧ small 7 (Prim2SF f)
       ∧ V (Prim2SF f) = w
       ∧ mapped_speed_of c = mapped_speed_of (PyFloat f).
Proof.
  intros Hc Hw. destruct c as [k|f].
  - injection Hc as <-.
    assert (0 ≤ k ≤ 100) as Hk.
    { split; apply le_IZR; lra. }
    destruct (float_of_percent k Hk) as (f & Hf & Nf & Sf & Vf).
    exists f. repeat split; try assumption.
    unfold mapped_speed_of, PyNum.truediv. cbn [PyNum.to_float].
    rewrite Hf. reflexivity.
  - exists f. cbn [value_of] in Hc.
    destruct (value_finite _ _ Hc) as [-> Hfin].
    assert (N : nonneg_float (Prim2SF f)).
    { destruct (Prim2SF f) as [s|s| |[] m e]; try contradiction; try exact I.
      pose proof (IZR_pos m). pose proof (bpow_pos e). simpl in Hw. nra. }
    repeat split; try assumption.
    destruct (Prim2SF f) as [s|s| |[] m e]; try contradiction; try exact I.
    destruct (mag_finite m e) as [Hlo _]. rewrite digits_pos in Hlo.
    assert (bpow (Z.pos (digits2_pos m) + e - 1) < bpow 7)%R as H%bpow_lt_inv.
    { eapply Rle_lt_trans; [exact Hlo|].
      eapply Rle_lt_trans; [apply Hw|].
      unfold bpow. simpl. lra. }
    simpl. lia.
Qed.

(** The mapped speed grows with the value of the clamped attention. *)
Lemma mapped_speed_mono (c1 c2 : pynum) (w1 w2 : R) :
  value_of c1 = Finite w1 → value_of c2 = Finite w2 →
  (0 <= w1)%R → (w1 <= w2)%R → (w2 <= 100)%R →
  ∃ s1 s2, mapped_speed_of c1 = Ok s1
           ∧ mapped_speed_of c2 = Ok s2
           ∧ s1 ≤ s2.
Proof.
  intros H1 H2 H0 H12 H100.
  destruct (mapped_speed_as_float c1 w1 H1 ltac:(lra)) as (f1 & N1 & S1 & V1 & ->).
  destruct (mapped_speed_as_float c2 w2 H2 ltac:(lra)) as (f2 & N2 & S2 & V2 & ->).
  apply mapped_speed_float_mono; try assumption. lra.
Qed.

(** The clamp to [0, 100], read on the value of the number. *)
Lemma clamp_percent_value (a : pynum) :
  match value_of a with
  | NotANumber | MinusInfinity => clamp_percent a 100 = PyInt 0
  | PlusInfinity => clamp_percent a 100 = PyInt 100
  | Finite v =>
      ((v <= 0)%R ∧ clamp_percent a 100 = PyInt 0)
      ∨ ((100 < v)%R ∧ clamp_percent a 100 = PyInt 100)
      ∨ ((0 < v <= 100)%R ∧ clamp_percent a 100 = a)
  end.
Proof.
  unfold clamp_percent, PyNum.min, PyNum.max, PyNum.gt.
  pose proof (lt_spec (PyInt 100) a) as Hhi.
  pose proof (lt_spec (PyInt 0) a) as Hlo.
  cbn [value_of] in Hhi, Hlo.
  destruct (value_of a) as [| | |v]; cbn [vlt] in Hhi, Hlo.
  - destruct (PyNum.lt (PyInt 100) a); [tauto|].
    destruct (PyNum.lt (PyInt 0) a); [tauto|reflexivity].
  - destruct (PyNum.lt (PyInt 100) a); [tauto|].
    destruct (PyNum.lt (PyInt 0) a); [tauto|reflexivity].
  - destruct (PyNum.lt (PyInt 100) a); [reflexivity|].
    assert (false = true) by tauto. discriminate.
  - destruct (PyNum.lt (PyInt 100) a).
    + right. left. split; [tauto|reflexivity].
    + assert (¬ (100 < v)%R) by (intros H; apply Hhi in H; discriminate).
      destruct (PyNum.lt (PyInt 0) a).
      * right. right. split; [|reflexivity]. split; [tauto|lra].
      * left. split; [|reflexivity].
        assert (¬ (0 < v)%R) by (intros H'; apply Hlo in H'; discriminate).
        lra.
Qed.

(** The clamp is monotone, and its result is a number between 0 and 100. *)
Lemma clamp_percent_mono (a1 a2 : pynum) :
  PyNum.le a1 a2 = true →
  ∃ w1 w2, value_of (clamp_percent a1 100) = Finite w1
           ∧ value_of (clamp_percent a2 100) = Finite w2
           ∧ (0 <= w1)%R ∧ (w1 <= w2)%R ∧ (w2 <= 100)%R.
Proof.
  intros Hle%le_spec.
  pose proof (clamp_percent_value a1) as C1.
  pose proof (clamp_percent_value a2) as C2.
  destruct (value_of a1) as [| | |v1] eqn:E1;
    destruct (value_of a2) as [| | |v2] eqn:E2;
    cbn [vle] in Hle; try contradiction;
    repeat match goal with
           | H : _ ∨ _ |- _ => destruct H as [H|H]
           | H : _ ∧ _ |- _ => destruct H as [? H]
           end;
    rewrite ?C1, ?C2, ?E1, ?E2; cbn [value_of];
    eexists _, _; (split; [reflexivity|]); (split; [reflexivity|]);
    lra.
Qed.

(** With a meditation not above the threshold the speed is the mapped
    one. *)
Lemma meditation_below (meditation : pynum) :
  PyNum.le meditation (PyInt MEDITATION_THRESHOLD) = true →
  PyNum.gt (clamp_percent meditation MAX_MEDITATION_VALUE)
           (PyInt MEDITATION_THRESHOLD) = false.
Proof.
  intros Hle%le_spec. unfold MAX_MEDITATION_VALUE, MEDITATION_THRESHOLD in *.
  pose proof (clamp_percent_value meditation) as C.
  apply not_true_is_false. unfold PyNum.gt. rewrite lt_spec.
  cbn [value_of] in Hle |- *.
  destruct (value_of meditation) as [| | |v] eqn:E; cbn [vle] in Hle;
    try contradiction;
    repeat match goal with
           | H : _ ∨ _ |- _ => destruct H as [H|H]
           | H : _ ∧ _ |- _ => destruct H as [? H]
           end;
    rewrite ?C, ?E; cbn [value_of vlt]; lra.
Qed.

(** A meditation above the threshold is still above it once clamped. *)
Lemma meditation_above (meditation : pynum) :
  PyNum.gt meditation (PyInt MEDITATION_THRESHOLD) = true →
  PyNum.gt (clamp_percent meditation MAX_MEDITATION_VALUE)
           (PyInt MEDITATION_THRESHOLD) = true.
Proof.
  unfold PyNum.gt, MAX_MEDITATION_VALUE, MEDITATION_THRESHOLD.
  rewrite !lt_spec. intros Hgt.
  pose proof (clamp_percent_value meditation) as C.
  cbn [value_of] in Hgt |- *.
  destruct (value_of meditation) as [| | |v] eqn:E; cbn [vlt] in Hgt;
    try contradiction;
    repeat match goal with
           | H : _ ∨ _ |- _ => destruct H as [H|H]
           | H : _ ∧ _ |- _ => destruct H as [? H]
           end;
    rewrite ?C, ?E; cbn [value_of vlt]; lra.
Qed.

End SpeedFacts.

(** ** Properties of the command generator *)

Module GeneratorProps.
Import Config command_map Generator Wire GeneratorFacts.

(** C1. A control triple whose speed is 0 makes one cycle return exactly the
    stop-all command, neither a facing nor a steering command, and leaves
    [_current_speed] at 0 with the rest of the state untouched; this holds in
    every state of the generator, so also on the call that follows a stop:
    the stop-all command is issued again, not suppressed because the current
    speed is already 0. *)
Theorem stop_every_call (g : CommandGenerator) (d d' : Z) (f f' : bool) :
  let first := generate_commands_from_car_control (control_triple 0 d f) g in
  let second := generate_commands_from_car_control (control_triple 0 d' f') first.2 in
  first = (["BSTD"], with_current_speed 0 g)
  ∧ get_stop_all_command = Some "BSTD"
  ∧ is_facing_command "BSTD" = false ∧ is_steering_command "BSTD" = false
  ∧ _current_speed first.2 = 0
  ∧ second.1 = ["BSTD"] ∧ _current_speed second.2 = 0.
Proof.
  assert (H : ∀ g0 d0 f0,
    generate_commands_from_car_control (control_triple 0 d0 f0) g0
    = (["BSTD"], with_current_speed 0 g0)).
  { intros g0 d0 f0.
    unfold generate_commands_from_car_control, control_triple; simpl.
    unfold mbind, Gen_bind. rewrite generate_speed_commands_eq. reflexivity. }
  simpl. rewrite !H. simpl. rewrite stop_all_token. repeat split.
Qed.

(** C2. With a nonzero speed, the call that repeats the triple of the call
    before it returns the empty list. *)
Theorem repeated_triple_sends_nothing
    (g : CommandGenerator) (s d : Z) (f : bool) :
  s ≠ 0 →
  let g' := (generate_commands_from_car_control (control_triple s d f) g).2 in
  (generate_commands_from_car_control (control_triple s d f) g').1 = [].
Proof.
  intros Hs g'.
  destruct (generate_state_after s d f g Hs) as (Hl & Hp & Hc).
  fold g' in Hl, Hp, Hc.
  rewrite (generate_nothing_to_send s d f g' Hs Hl Hp Hc). reflexivity.
Qed.

Lemma repeated_triple_sends_nothing_witness :
  (generate_commands_from_car_control (control_triple 740 1100 true)
     (generate_commands_from_car_control (control_triple 740 1100 true)
        Generator.init).2).1 = [].
Proof. apply (repeated_triple_sends_nothing Generator.init 740 1100 true). lia. Defined.




(** C3. Whenever the list returned by one cycle holds a speed command, a
    facing command and a steering command, the list is exactly these three,
    in the order speed, facing, steering. *)
Theorem speed_then_facing_then_steering
    (g : CommandGenerator) (data : car_control_data) (cs cf ct : string) :
  let out := (generate_commands_from_car_control data g).1 in
  cs ∈ out → is_speed_command cs = true →
  cf ∈ out → is_facing_command cf = true →
  ct ∈ out → is_steering_command ct = true →
  out = [cs; cf; ct].
Proof.
  destruct data as [[s|] [d|] [f|]];
    try (rewrite generate_incomplete by (simpl; auto); simpl;
         intros H; apply elem_of_nil in H; destruct H).
  fold (control_triple s d f).
  destruct (Z.eq_dec s 0) as [->|Hs].
  { rewrite generate_stop. simpl. intros _ _ Hcf Hf.
    apply list_elem_of_singleton in Hcf. subst cf. discriminate. }
  destruct (generate_output s d f g Hs) as (g1 & g2 & Hout). rewrite Hout.
  destruct (speed_token_kind s) as (Ks1 & Ks2 & Ks3).
  destruct (facing_token_kind f) as (Kf1 & Kf2 & Kf3).
  destruct (steering_command_kind d) as (Kt1 & Kt2 & Kt3).
  simpl.
  destruct (speed_step_shape s g Hs) as [-> | [-> _]];
  destruct (facing_step_shape f g1) as [-> | ->];
  destruct (steering_step_shape d g2) as [-> | ->]; simpl;
  intros Hcs Hs' Hcf Hf' Hct Ht';
  repeat match goal with
  | H : _ ∈ [] |- _ => apply elem_of_nil in H; destruct H
  | H : _ ∈ _ :: _ |- _ => apply elem_of_cons in H; destruct H as [H|H]; subst
  end; try congruence.
Qed.

Lemma speed_then_facing_then_steering_witness :
  (generate_commands_from_car_control (control_triple 740 1100 true)
     Generator.init).1
  = ["<SPD-740>"; "<BUPD>"; "<SUP-1100>"].
Proof.
  apply (speed_then_facing_then_steering Generator.init
           (control_triple 740 1100 true) "<SPD-740>" "<BUPD>" "<SUP-1100>");
    vm_compute; first [reflexivity | repeat constructor].
Defined.


(** C7, as the code has it. Every command a cycle can return is one of five
    kinds: the stop-all token [BSTD], which carries no brackets; the
    bracket-delimited tokens [<BUPD>] (forward) and [<BDND>] (backward); a
    bracket-delimited speed command [<SPD-n>] with [n] in [500, 1000]; a
    bracket-delimited steering command [<SUP-n>] with [n] in [500, 2500].
    In the vocabulary itself the start and stop tokens of the four directions
    are bracket-delimited and stop-all is the bare [BSTD]. *)
Theorem emitted_commands_vocabulary
    (g : CommandGenerator) (data : car_control_data) :
  Forall (λ c, wire_command c ∧ (c = "BSTD" ∨ bracket_delimited c = true))
         (generate_commands_from_car_control data g).1
  ∧ Forall (λ name, ∃ c, get_command name = Some c ∧ bracket_delimited c = true)
      ["forward"; "backward"; "left"; "right";
       "stop_forward"; "stop_backward"; "stop_left"; "stop_right"]
  ∧ get_command "stop_all" = Some "BSTD".
Proof.
  split.
  - destruct data as [[s|] [d|] [f|]];
      try (rewrite generate_incomplete by (simpl; auto); constructor).
    fold (control_triple s d f).
    destruct (Z.eq_dec s 0) as [->|Hs].
    { rewrite generate_stop. apply Forall_singleton.
      split; [constructor|left; reflexivity]. }
    destruct (generate_output s d f g Hs) as (g1 & g2 & Hout). rewrite Hout.
    repeat apply Forall_app_2.
    + destruct (speed_step_shape s g Hs) as [-> | [-> Hr]];
        [constructor|apply Forall_singleton].
      split; [constructor; exact Hr|right; apply bracket_delimited_speed].
    + destruct (facing_step_shape f g1) as [-> | ->];
        [constructor|apply Forall_singleton].
      destruct f; (split; [constructor|right; reflexivity]).
    + destruct (steering_step_shape d g2) as [-> | ->];
        [constructor|apply Forall_singleton].
      rewrite get_steering_command_eq.
      split; [constructor; lia|right; apply bracket_delimited_steering].
  - split; [|vm_compute; reflexivity].
    repeat (apply List.Forall_cons;
            [eexists; (split; [vm_compute; reflexivity|reflexivity])|]).
    apply List.Forall_nil.
Qed.

(** C7, as stated, fails on the stop-all command: the cycle for a zero speed
    returns [BSTD], the value of [stop_all] in the vocabulary, and this token
    has no bracket at either end. *)
Lemma stop_all_not_bracket_delimited :
  (generate_commands_from_car_control (control_triple 0 1500 true)
     Generator.init).1 = ["BSTD"]
  ∧ get_stop_all_command = Some "BSTD"
  ∧ bracket_delimited "BSTD" = false.
Proof. vm_compute. repeat split. Qed.

End GeneratorProps.

(** ** Properties of the signal converter *)

Module ConverterProps.
Import Config Converter ConverterPipeline command_map Generator Wire.
Import ConverterFacts PipelineFacts GeneratorFacts SpeedFacts.

(** C4. Steering hysteresis. For every tilt, integer or float, the clamped
    and truncated steering value [d] is computed without an exception. When
    [d] differs from the stored [_previous_direction] by strictly less than
    1% of [MAX_DIRECTION - MIN_DIRECTION], [calculate_direction] returns the
    stored value and leaves the converter unchanged; otherwise it returns
    [d], having stored it in [_previous_direction] (and in the status). *)
Theorem steering_hysteresis (gyro_z : pynum) (self : BrainDataConverter) :
  ∃ d,
    direction_of gyro_z = Ok d
    ∧ MIN_DIRECTION ≤ d ≤ MAX_DIRECTION
    ∧ let previous := _previous_direction self in
      (100 * Z.abs (d - previous) < MAX_DIRECTION - MIN_DIRECTION →
       calculate_direction gyro_z self = (Ok previous, self))
      ∧ (MAX_DIRECTION - MIN_DIRECTION ≤ 100 * Z.abs (d - previous) →
         calculate_direction gyro_z self
         = (Ok d, with_car_status (with_direction d)
                    (with_previous_direction d self))
         ∧ _previous_direction (calculate_direction gyro_z self).2 = d).
Proof.
  destruct (direction_of_total gyro_z) as (d & Hd & Hr).
  exists d. split; [exact Hd|]. split; [exact Hr|].
  rewrite calculate_direction_eq, Hd. unfold MAX_DIRECTION, MIN_DIRECTION.
  destruct (Z.ltb_spec (Z.abs (d - _previous_direction self)) 20) as [Hlt|Hge];
    simpl; split; intros H; try lia; auto.
Qed.

(** C5. When the meditation, clamped to [0, MAX_MEDITATION_VALUE], is above
    [MEDITATION_THRESHOLD], the speed is [BASE_SPEED] whatever the
    attention: [calculate_speed] returns it, and it is the speed of every
    control signal converted from a sample with that meditation. *)
Theorem meditation_above_threshold
    (attention meditation : pynum) (self : BrainDataConverter) :
  PyNum.gt (clamp_percent meditation MAX_MEDITATION_VALUE)
           (PyInt MEDITATION_THRESHOLD) = true →
  calculate_speed attention meditation self
  = (Ok BASE_SPEED, with_car_status (with_speed BASE_SPEED) self)
  ∧ ∀ d conv signal conv',
      d !! "meditation" = Some (VNum meditation) →
      convert_essential_data (VDict d) conv = (Some signal, conv') →
      speed signal = BASE_SPEED.
Proof.
  intros H. split.
  - rewrite calculate_speed_eq. unfold speed_of. rewrite H. reflexivity.
  - intros d conv signal conv' Hm Hc.
    apply convert_Some in Hc as (d' & att & med & g & [= <-] & _ & Hm' & _ & Hb).
    rewrite Hm in Hm'. injection Hm' as <-.
    apply convert_body_Ok in Hb as (a & m & z & _ & [= <-] & _ & Hs & _).
    unfold speed_of in Hs. rewrite H in Hs. injection Hs as <-. reflexivity.
Qed.

Lemma meditation_above_threshold_witness :
  calculate_speed (PyInt 80) (PyInt 97) Converter.init
  = (Ok BASE_SPEED, with_car_status (with_speed BASE_SPEED) Converter.init)
  ∧ ∀ d conv signal conv',
      d !! "meditation" = Some (VNum (PyInt 97)) →
      convert_essential_data (VDict d) conv = (Some signal, conv') →
      speed signal = BASE_SPEED.
Proof.
  apply (meditation_above_threshold (PyInt 80) (PyInt 97) Converter.init).
  reflexivity.
Defined.

(** The same holds of a meditation above the threshold as it is given: the
    clamp keeps it above. *)
Lemma meditation_above_threshold_unclamped
    (attention meditation : pynum) (self : BrainDataConverter) :
  PyNum.gt meditation (PyInt MEDITATION_THRESHOLD) = true →
  calculate_speed attention meditation self
  = (Ok BASE_SPEED, with_car_status (with_speed BASE_SPEED) self).
Proof.
  intros H. rewrite calculate_speed_eq. unfold speed_of.
  rewrite (meditation_above _ H). reflexivity.
Qed.

(** C9. With a meditation not above [MEDITATION_THRESHOLD], the speed does
    not decrease when the attention grows.  For all numbers, integers or
    floats, with [meditation <= MEDITATION_THRESHOLD] and [a1 <= a2] as
    Python compares them, [calculate_speed] returns a speed for both
    attentions, each the linear mapping of the clamped attention, and the
    speed for [a1] is at most the speed for [a2]; so are the speeds of two
    control signals converted from data with these attentions and that
    meditation. *)
Theorem speed_monotone_in_attention (meditation a1 a2 : pynum) :
  PyNum.le meditation (PyInt MEDITATION_THRESHOLD) = true →
  PyNum.le a1 a2 = true →
  (∃ s1 s2,
     (∀ self, calculate_speed a1 meditation self
              = (Ok s1, with_car_status (with_speed s1) self))
     ∧ (∀ self, calculate_speed a2 meditation self
                = (Ok s2, with_car_status (with_speed s2) self))
     ∧ mapped_speed_of (clamp_percent a1 MAX_ATTENTION_VALUE) = Ok s1
     ∧ mapped_speed_of (clamp_percent a2 MAX_ATTENTION_VALUE) = Ok s2
     ∧ s1 ≤ s2)
  ∧ ∀ d1 d2 conv1 conv2 signal1 signal2 conv1' conv2',
      d1 !! "attention" = Some (VNum a1) →
      d1 !! "meditation" = Some (VNum meditation) →
      d2 !! "attention" = Some (VNum a2) →
      d2 !! "meditation" = Some (VNum meditation) →
      convert_essential_data (VDict d1) conv1 = (Some signal1, conv1') →
      convert_essential_data (VDict d2) conv2 = (Some signal2, conv2') →
      speed signal1 ≤ speed signal2.
Proof.
  intros Hm Ha.
  assert (H : ∃ s1 s2,
             speed_of a1 meditation = Ok s1 ∧ speed_of a2 meditation = Ok s2
             ∧ mapped_speed_of (clamp_percent a1 MAX_ATTENTION_VALUE) = Ok s1
             ∧ mapped_speed_of (clamp_percent a2 MAX_ATTENTION_VALUE) = Ok s2
             ∧ s1 ≤ s2).
  { unfold speed_of. rewrite (meditation_below _ Hm).
    destruct (clamp_percent_mono a1 a2 Ha)
      as (w1 & w2 & E1 & E2 & H0 & H12 & H100).
    destruct (mapped_speed_mono _ _ w1 w2 E1 E2 H0 H12 H100)
      as (s1 & s2 & M1 & M2 & Hs).
    exists s1, s2. unfold MAX_ATTENTION_VALUE. auto. }
  destruct H as (s1 & s2 & S1 & S2 & M1 & M2 & Hs). split.
  - exists s1, s2.
    split; [intros self; rewrite calculate_speed_eq, S1; reflexivity|].
    split; [intros self; rewrite calculate_speed_eq, S2; reflexivity|].
    auto.
  - intros d1 d2 conv1 conv2 signal1 signal2 conv1' conv2' A1 D1 A2 D2 C1 C2.
    apply convert_Some in C1
      as (d & att & med & g & [= <-] & Ha1 & Hm1 & _ & B1).
    apply convert_Some in C2
      as (d & att' & med' & g' & [= <-] & Ha2 & Hm2 & _ & B2).
    rewrite A1 in Ha1. rewrite D1 in Hm1. rewrite A2 in Ha2. rewrite D2 in Hm2.
    injection Ha1 as <-. injection Hm1 as <-.
    injection Ha2 as <-. injection Hm2 as <-.
    apply convert_body_Ok in B1 as (a & m & z & [= <-] & [= <-] & _ & Sp1 & _).
    apply convert_body_Ok in B2 as (a & m & z' & [= <-] & [= <-] & _ & Sp2 & _).
    rewrite S1 in Sp1. rewrite S2 in Sp2.
    injection Sp1 as <-. injection Sp2 as <-. exact Hs.
Qed.

Lemma speed_monotone_in_attention_witness :
  (∃ s1 s2,
     (∀ self, calculate_speed (PyFloat 20.5) (PyInt 40) self
              = (Ok s1, with_car_status (with_speed s1) self))
     ∧ (∀ self, calculate_speed (PyInt 57) (PyInt 40) self
                = (Ok s2, with_car_status (with_speed s2) self))
     ∧ mapped_speed_of (clamp_percent (PyFloat 20.5) MAX_ATTENTION_VALUE) = Ok s1
     ∧ mapped_speed_of (clamp_percent (PyInt 57) MAX_ATTENTION_VALUE) = Ok s2
     ∧ s1 ≤ s2)
  ∧ ∀ d1 d2 conv1 conv2 signal1 signal2 conv1' conv2',
      d1 !! "attention" = Some (VNum (PyFloat 20.5)) →
      d1 !! "meditation" = Some (VNum (PyInt 40)) →
      d2 !! "attention" = Some (VNum (PyInt 57)) →
      d2 !! "meditation" = Some (VNum (PyInt 40)) →
      convert_essential_data (VDict d1) conv1 = (Some signal1, conv1') →
      convert_essential_data (VDict d2) conv2 = (Some signal2, conv2') →
      speed signal1 ≤ speed signal2.
Proof.
  apply (speed_monotone_in_attention (PyInt 40) (PyFloat 20.5) (PyInt 57));
    vm_compute; reflexivity.
Defined.

(** C10. Whatever the attention and the meditation, integers or floats,
    NaN and the infinities included, [calculate_speed] returns an integer
    between [BASE_SPEED] and [MAX_SPEED], stored in the status; it is never
    0. Hence every control signal the converter hands out has a nonzero
    speed, and the generator run on it does not return the stop-all
    command. *)
Theorem speed_within_base_and_max
    (attention meditation : pynum) (self : BrainDataConverter) :
  (∃ s, calculate_speed attention meditation self
        = (Ok s, with_car_status (with_speed s) self)
        ∧ BASE_SPEED ≤ s ≤ MAX_SPEED ∧ 500 ≤ s ≤ 800 ∧ s ≠ 0)
  ∧ ∀ essential_data conv signal conv' g,
      convert_essential_data essential_data conv = (Some signal, conv') →
      BASE_SPEED ≤ speed signal ≤ MAX_SPEED
      ∧ "BSTD" ∉ (generate_commands_from_car_control (of_signal signal) g).1.
Proof.
  split.
  - destruct (speed_of_total attention meditation) as (s & Hs & Hr).
    exists s. rewrite calculate_speed_eq, Hs.
    unfold BASE_SPEED, MAX_SPEED in *. repeat split; lia.
  - intros essential_data conv signal conv' g Hc.
    apply convert_Some in Hc as (d & att & med & gyro & _ & _ & _ & _ & Hb).
    apply convert_body_Ok in Hb as (a & m & z & _ & _ & _ & Hs & _).
    apply speed_of_bounds in Hs. split; [exact Hs|].
    assert (Hne : speed signal ≠ 0) by (unfold BASE_SPEED in Hs; lia).
    unfold of_signal.
    destruct (generate_output (speed signal) (direction signal)
                (is_forward signal) g Hne) as (g1 & g2 & ->).
    rewrite !elem_of_app. intros [H|[H|H]].
    + destruct (speed_step_shape (speed signal) g Hne) as [E | [E _]];
        rewrite E in H.
      * apply elem_of_nil in H. exact H.
      * apply list_elem_of_singleton in H. discriminate.
    + destruct (facing_step_shape (is_forward signal) g1) as [E | E];
        rewrite E in H.
      * apply elem_of_nil in H. exact H.
      * apply list_elem_of_singleton in H. destruct (is_forward signal); discriminate.
    + destruct (steering_step_shape (direction signal) g2) as [E | E];
        rewrite E in H.
      * apply elem_of_nil in H. exact H.
      * apply list_elem_of_singleton in H. discriminate.
Qed.

(** C6 does not hold of the code. The sample [{'attention': 50,
    'meditation': 50, 'gyro': {'x': 0, 'z': 0}}] has no [y] in its gyro
    dictionary, and a new converter turns it into the signal
    [{'speed': 650, 'direction': 1500, 'is_forward': True}]: forward, where
    the claim says backward. The default of [calculate_forward_direction]
    is backward, as its comment says, and the same sample with a [y] that
    is [None] gets it; but [gyro.get('y', 0)] hands an absent [y] over as
    0, which never reaches that default and is below the threshold 10. *)
Theorem missing_gyro_y_is_not_backward :
  Samples.gyro_without_y !! "y" = None
  ∧ (convert_essential_data (VDict Samples.sample_without_y) Converter.init).1
    = Some {| speed := 650; direction := 1500; is_forward := true |}
  ∧ (convert_essential_data (VDict Samples.sample_with_none_y) Converter.init).1
    = Some {| speed := 650; direction := 1500; is_forward := false |}
  ∧ (calculate_forward_direction VNone Converter.init).1 = Ok false
  ∧ gyro_axis (VDict Samples.gyro_without_y) "y" = VNum (PyInt 0).
Proof. vm_compute. repeat split; reflexivity. Qed.

(** The same happens on every sample whose gyro dictionary has no [y] key:
    [gyro.get('y', 0)] gives 0, so whenever the conversion returns a signal
    its facing is forward, and with numbers for attention and meditation
    and a [z] that is a number or absent it does return one. Nothing is
    raised: what the body raises is caught and turned into [None]. *)
Lemma absent_gyro_y_gives_forward
    (d g : gmap string pyval) (self : BrainDataConverter) :
  d !! "gyro" = Some (VDict g) → g !! "y" = None →
  (∀ signal self',
     convert_essential_data (VDict d) self = (Some signal, self') →
     is_forward signal = true)
  ∧ (∀ a m,
       d !! "attention" = Some (VNum a) → d !! "meditation" = Some (VNum m) →
       g !! "z" = None ∨ (∃ z, g !! "z" = Some (VNum z)) →
       ∃ signal self',
         convert_essential_data (VDict d) self = (Some signal, self')
         ∧ is_forward signal = true).
Proof.
  intros Hg Hy.
  assert (Hsafe : ∀ signal self',
    convert_essential_data (VDict d) self = (Some signal, self') →
    is_forward signal = true).
  { intros signal self' Hc.
    apply convert_Some in Hc as (d' & att & med & gyro & [= <-] & _ & _ & Hg' & Hb).
    rewrite Hg in Hg'. injection Hg' as <-.
    apply convert_body_Ok in Hb as (a & m & z & _ & _ & _ & _ & Hf).
    unfold gyro_axis, dict_get_default in Hf. rewrite Hy in Hf. exact Hf. }
  split; [exact Hsafe|].
  intros a m Ha Hm Hz.
  assert (Hzv : ∃ z, gyro_axis (VDict g) "z" = VNum z).
  { unfold gyro_axis, dict_get_default.
    destruct Hz as [-> | [z ->]]; simpl; eauto. }
  destruct Hzv as [z Hzv].
  destruct (convert_body_total a m z (VDict g) (VNum (PyInt 0)) self Hzv)
    as (signal & self' & Hb).
  { unfold gyro_axis, dict_get_default. rewrite Hy. reflexivity. }
  { right. eauto. }
  assert (Hc : convert_essential_data (VDict d) self = (Some signal, self')).
  { unfold convert_essential_data, has_key, dict_get.
    rewrite Ha, Hm, Hg. simpl. rewrite Hb. reflexivity. }
  exists signal, self'. split; [exact Hc|]. eapply Hsafe. exact Hc.
Qed.

(** The default of the facing applies to a [y] that is present and [None]:
    such a sample is treated as backward. *)
Lemma none_gyro_y_is_backward
    (d g : gmap string pyval) (self self' : BrainDataConverter)
    (signal : control_signal) :
  d !! "gyro" = Some (VDict g) → g !! "y" = Some VNone →
  convert_essential_data (VDict d) self = (Some signal, self') →
  is_forward signal = false.
Proof.
  intros Hg Hy Hc.
  apply convert_Some in Hc as (d' & att & med & gyro & [= <-] & _ & _ & Hg' & Hb).
  rewrite Hg in Hg'. injection Hg' as <-.
  apply convert_body_Ok in Hb as (a & m & z & _ & _ & _ & _ & Hf).
  unfold gyro_axis, dict_get_default in Hf. rewrite Hy in Hf. exact Hf.
Qed.

End ConverterProps.

(** ** Further facts about the converter, the generator and the connector *)

#[local] Open Scope list_scope.

Module ConverterMoreFacts.
Import Config Converter ConverterPipeline Enumerate ConverterFacts PipelineFacts.
Import ExactFormulas.

Lemma steering_of_formula (z : Z) :
  -90 ≤ z ≤ 90 → steering_of (PyInt z) = Ok (steering_formula z).
Proof.
  intros Hz. apply returns_spec.
  apply (range_check_spec
           (λ z, returns (steering_of (PyInt z)) (steering_formula z)) (-90) 181);
    [vm_compute; reflexivity | lia].
Qed.

Lemma steering_formula_clamp (z : Z) :
  steering_formula (Z.max (-90) (Z.min z 90)) = steering_formula z.
Proof.
  unfold steering_formula. cbv zeta.
  replace (Z.max (-90) (Z.min (Z.max (-90) (Z.min z 90)) 90))
    with (Z.max (-90) (Z.min z 90)) by lia.
  reflexivity.
Qed.

(** The state a call of [calculate_direction] leaves. *)
Lemma calculate_direction_total (gyro_z : pynum) (self : BrainDataConverter) :
  ∃ raw, direction_of gyro_z = Ok raw
         ∧ MIN_DIRECTION ≤ raw ≤ MAX_DIRECTION
         ∧ calculate_direction gyro_z self
           = if Z.abs (raw - _previous_direction self) <? 20
             then (Ok (_previous_direction self), self)
             else (Ok raw, with_car_status (with_direction raw)
                             (with_previous_direction raw self)).
Proof.
  destruct (direction_of_total gyro_z) as (raw & Hraw & Hr).
  exists raw. split; [exact Hraw|]. split; [exact Hr|].
  rewrite calculate_direction_eq, Hraw. reflexivity.
Qed.

End ConverterMoreFacts.

Module ConvertFacts.
Import Config Converter ConverterPipeline Enumerate ConverterFacts PipelineFacts.
Import ExactFormulas ConverterMoreFacts ConvertDefs.

(** The conversion of a dictionary that holds the three keys, none of them
    with the value [None]. *)
Lemma convert_dict_eq (d : gmap string pyval) (att med gyro : pyval)
    (self : BrainDataConverter) :
  d !! "attention" = Some att → d !! "meditation" = Some med →
  d !! "gyro" = Some gyro →
  convert_essential_data (VDict d) self
  = if is_none att || is_none med || is_none gyro then (None, self)
    else match convert_body att med gyro self with
         | (Ok signal, self') => (Some signal, self')
         | (Raise _, self') => (None, self')
         end.
Proof.
  intros Ha Hm Hg. unfold convert_essential_data, has_key, dict_get.
  rewrite Ha, Hm, Hg. reflexivity.
Qed.

(** The body of the conversion on numbers. *)
Lemma convert_body_numbers (a m z : pynum) (gyro : pyval)
    (self : BrainDataConverter) :
  gyro_axis gyro "z" = VNum z →
  ∃ s raw,
    speed_of a m = Ok s ∧ direction_of z = Ok raw
    ∧ BASE_SPEED ≤ s ≤ MAX_SPEED ∧ MIN_DIRECTION ≤ raw ≤ MAX_DIRECTION
    ∧ match gyro_axis gyro "y" with
      | VNone | VNum _ =>
          convert_body (VNum a) (VNum m) gyro self
          = (Ok (converted s raw (gyro_axis gyro "y") self).1,
             (converted s raw (gyro_axis gyro "y") self).2)
      | VStr _ | VDict _ =>
          ∃ e self', convert_body (VNum a) (VNum m) gyro self = (Raise e, self')
      end.
Proof.
  intros Hz.
  destruct (speed_of_total a m) as (s & Hs & Hsr).
  destruct (direction_of_total z) as (raw & Hraw & Hr).
  exists s, raw. repeat (split; [assumption|]).
  unfold convert_body, converted. rewrite Hz.
  destruct (gyro_axis gyro "y") as [|y|?|?];
    unfold mbind at 1, Conv_bind at 1, eval at 1, as_number at 1;
    unfold mbind at 1, Conv_bind at 1, eval at 1, as_number at 1;
    unfold mbind at 1, Conv_bind at 1; rewrite calculate_speed_eq, Hs;
    unfold mbind at 1, Conv_bind at 1, eval at 1, as_number at 1;
    unfold mbind at 1, Conv_bind at 1; rewrite calculate_direction_eq, Hraw;
    cbn [_previous_direction with_car_status];
    destruct (Z.abs (raw - _previous_direction self) <? 20); simpl; eauto.
Qed.

Lemma well_formed_converts (d : gmap string pyval) (self : BrainDataConverter) :
  well_formed d →
  ∃ a m gyro z s raw,
    d !! "attention" = Some (VNum a) ∧ d !! "meditation" = Some (VNum m)
    ∧ d !! "gyro" = Some gyro ∧ gyro_axis gyro "z" = VNum z
    ∧ (gyro_axis gyro "y" = VNone ∨ ∃ y, gyro_axis gyro "y" = VNum y)
    ∧ speed_of a m = Ok s ∧ direction_of z = Ok raw
    ∧ BASE_SPEED ≤ s ≤ MAX_SPEED ∧ MIN_DIRECTION ≤ raw ≤ MAX_DIRECTION
    ∧ convert_essential_data (VDict d) self
      = (Some (converted s raw (gyro_axis gyro "y") self).1,
         (converted s raw (gyro_axis gyro "y") self).2).
Proof.
  intros (a & m & gyro & Ha & Hm & Hg & Hgn & [z Hz] & Hy).
  destruct (convert_body_numbers a m z gyro self Hz)
    as (s & raw & Hs & Hraw & Hsr & Hr & Hb).
  exists a, m, gyro, z, s, raw. repeat (split; [assumption|]).
  rewrite (convert_dict_eq d _ _ _ self Ha Hm Hg).
  assert (is_none gyro = false) as ->
    by (destruct gyro; [congruence|reflexivity..]).
  simpl. destruct Hy as [Hy | [y Hy]]; rewrite Hy in Hb |- *; rewrite Hb;
    reflexivity.
Qed.

Lemma converts_well_formed (v : pyval) (self self' : BrainDataConverter)
    (signal : control_signal) :
  convert_essential_data v self = (Some signal, self') →
  ∃ d, v = VDict d ∧ well_formed d.
Proof.
  intros Hc.
  pose proof Hc as Hc'.
  apply convert_Some in Hc as (d & att & med & gyro & -> & Ha & Hm & Hg & Hb).
  exists d. split; [reflexivity|].
  rewrite (convert_dict_eq d _ _ _ self Ha Hm Hg) in Hc'.
  destruct (is_none att || is_none med || is_none gyro) eqn:Hn; [discriminate|].
  apply convert_body_Ok in Hb as (a & m & z & -> & -> & Hz & _ & Hy).
  exists a, m, gyro. repeat (split; [assumption|]).
  split; [destruct gyro; try discriminate; simpl in Hn; congruence|].
  split; [eauto|].
  destruct (gyro_axis gyro "y") as [|y|?|?]; try contradiction; eauto.
Qed.

End ConvertFacts.

Module ConvertAgainFacts.
Import Config Converter ConverterPipeline ConverterFacts PipelineFacts.

(** The body of the conversion on a numeric attention and meditation, every
    outcome included. *)
Lemma convert_body_cases (a m : pynum) (s : Z) (gyro : pyval)
    (self : BrainDataConverter) :
  speed_of a m = Ok s →
  convert_body (VNum a) (VNum m) gyro self
  = let self1 := with_car_status (with_speed s) self in
    match gyro_axis gyro "z" with
    | VNum z =>
        match direction_of z with
        | Ok raw =>
            let '(d, self2) :=
              if Z.abs (raw - _previous_direction self) <? 20
              then (_previous_direction self, self1)
              else (raw, with_car_status (with_direction raw)
                           (with_previous_direction raw self1)) in
            match gyro_axis gyro "y" with
            | VNone =>
                (Ok {| speed := s; direction := d; is_forward := false |}, self2)
            | VNum y =>
                let f := PyNum.lt y (PyInt 10) in
                (Ok {| speed := s; direction := d; is_forward := f |},
                 with_car_status (with_is_forward f) self2)
            | VStr _ | VDict _ => (Raise TypeError, self2)
            end
        | Raise e => (Raise e, self1)
        end
    | VNone | VStr _ | VDict _ => (Raise TypeError, self1)
    end.
Proof.
  intros Hs. unfold convert_body.
  unfold mbind at 1, Conv_bind at 1, eval at 1, as_number at 1.
  unfold mbind at 1, Conv_bind at 1, eval at 1, as_number at 1.
  unfold mbind at 1, Conv_bind at 1. rewrite calculate_speed_eq, Hs.
  destruct (gyro_axis gyro "z") as [|z|?|?]; try reflexivity.
  unfold mbind at 1, Conv_bind at 1, eval at 1, as_number at 1.
  unfold mbind at 1, Conv_bind at 1. rewrite calculate_direction_eq.
  destruct (direction_of z) as [raw|e]; [|reflexivity].
  cbn [_previous_direction with_car_status].
  destruct (Z.abs (raw - _previous_direction self) <? 20);
    destruct (gyro_axis gyro "y") as [|y|?|?]; reflexivity.
Qed.

(** What a conversion leaves in the converter is a fixed point of the
    conversion of the same values, whatever its outcome. *)
Lemma convert_body_again (att med gyro : pyval) (self : BrainDataConverter) :
  convert_body att med gyro (convert_body att med gyro self).2
  = convert_body att med gyro self.
Proof.
  destruct att as [|a|?|?]; try reflexivity.
  destruct med as [|m|?|?]; try reflexivity.
  destruct (speed_of_total a m) as (s & Hs & _).
  rewrite (convert_body_cases a m s gyro self Hs).
  rewrite (convert_body_cases a m s gyro _ Hs).
  destruct self as [prev gy last [sd ss sf]].
  cbv zeta. cbn [_previous_direction with_car_status with_speed car_status].
  destruct (gyro_axis gyro "z") as [|z|?|?]; try reflexivity.
  destruct (direction_of z) as [raw|e]; [|reflexivity].
  destruct (Z.ltb_spec (Z.abs (raw - prev)) 20) as [Hlt|Hge].
  - destruct (gyro_axis gyro "y") as [|y|?|?];
      cbn -[Z.abs Z.ltb PyNum.lt];
      (destruct (Z.ltb_spec (Z.abs (raw - prev)) 20); [|lia]);
      reflexivity.
  - destruct (gyro_axis gyro "y") as [|y|?|?];
      cbn -[Z.abs Z.ltb PyNum.lt];
      rewrite Z.sub_diag; reflexivity.
Qed.

Lemma convert_again (v : pyval) (self : BrainDataConverter) :
  convert_essential_data v (convert_essential_data v self).2
  = convert_essential_data v self.
Proof.
  unfold convert_essential_data.
  destruct v as [|n|s|d]; try reflexivity.
  destruct (negb (has_key d "attention") || negb (has_key d "meditation")
            || negb (has_key d "gyro")); [reflexivity|].
  cbv zeta.
  destruct (is_none (dict_get d "attention") || is_none (dict_get d "meditation")
            || is_none (dict_get d "gyro")); [reflexivity|].
  pose proof (convert_body_again (dict_get d "attention")
                (dict_get d "meditation") (dict_get d "gyro") self) as H.
  destruct (convert_body (dict_get d "attention") (dict_get d "meditation")
              (dict_get d "gyro") self) as [[signal|e] self'];
    cbn [snd] in H |- *; rewrite H; reflexivity.
Qed.

(** The speed of a control signal is never 0. *)
Lemma signal_speed_range (v : pyval) (self self' : BrainDataConverter)
    (signal : control_signal) :
  convert_essential_data v self = (Some signal, self') →
  BASE_SPEED ≤ speed signal ≤ MAX_SPEED.
Proof.
  intros Hc.
  apply convert_Some in Hc as (d & att & med & gyro & _ & _ & _ & _ & Hb).
  apply convert_body_Ok in Hb as (a & m & z & _ & _ & _ & Hs & _).
  destruct (speed_of_total a m) as (s & Hs' & Hr).
  rewrite Hs in Hs'. injection Hs' as ->. exact Hr.
Qed.

End ConvertAgainFacts.

Module TokenFacts.
Import Config command_map Generator Wire GeneratorFacts.

Lemma append_gt_inj (s t : string) : s +:+ ">" = t +:+ ">" → s = t.
Proof.
  revert t. induction s as [|a s IH]; intros [|b t]; simpl; intros H.
  - reflexivity.
  - injection H as _ H. destruct t; discriminate.
  - injection H as _ H. destruct s; discriminate.
  - injection H as -> H. f_equal. apply IH. exact H.
Qed.

Lemma speed_token_inj (a b : Z) : speed_token a = speed_token b → a = b.
Proof.
  unfold speed_token. simpl. intros [= H].
  apply append_gt_inj in H. apply (inj pretty). exact H.
Qed.

Lemma steering_token_inj (a b : Z) : steering_token a = steering_token b → a = b.
Proof.
  unfold steering_token. simpl. intros [= H].
  apply append_gt_inj in H. apply (inj pretty). exact H.
Qed.

Lemma speed_ne_facing (s : Z) (f : bool) : speed_token s ≠ facing_token f.
Proof. destruct f; discriminate. Qed.


Lemma facing_ne_steering (f : bool) (a : Z) : facing_token f ≠ steering_token a.
Proof. destruct f; discriminate. Qed.

Lemma facing_token_inj (f f' : bool) : facing_token f = facing_token f' → f = f'.
Proof. destruct f, f'; (reflexivity || discriminate). Qed.

(** The steps of a cycle on the fields of the generator. *)
Lemma facing_step_eq (f : bool) (cur : Z) (last : option bool) (prev : option Z) :
  facing_step f {| _current_speed := cur; _last_is_forward := last;
                   _previous_angle := prev |}
  = if decide (last = Some f)
    then ([], {| _current_speed := cur; _last_is_forward := last;
                 _previous_angle := prev |})
    else ([facing_token f],
          {| _current_speed := cur; _last_is_forward := Some f;
             _previous_angle := prev |}).
Proof.
  unfold facing_step. simpl.
  destruct last as [l|]; [|destruct (decide _); [discriminate|reflexivity]].
  destruct (eqb l f) eqn:E.
  - apply eqb_prop in E as ->. rewrite decide_True by reflexivity. reflexivity.
  - rewrite decide_False; [reflexivity|].
    intros [= ->]. rewrite eqb_reflx in E. discriminate.
Qed.

Lemma steering_step_eq (d : Z) (cur : Z) (last : option bool) (prev : option Z) :
  steering_step d {| _current_speed := cur; _last_is_forward := last;
                     _previous_angle := prev |}
  = if decide (prev = Some d)
    then ([], {| _current_speed := cur; _last_is_forward := last;
                 _previous_angle := prev |})
    else ([get_steering_command d],
          {| _current_speed := cur; _last_is_forward := last;
             _previous_angle := Some d |}).
Proof.
  unfold steering_step. simpl.
  destruct prev as [p|]; [|destruct (decide _); [discriminate|reflexivity]].
  destruct (Z.eqb_spec d p) as [->|Hne].
  - rewrite decide_True by reflexivity. reflexivity.
  - rewrite decide_False; [reflexivity|]. intros [= ->]. apply Hne. reflexivity.
Qed.

(** One cycle with a nonzero speed, on the fields of the generator. *)
Lemma generate_cycle_eq (s d : Z) (f : bool) (cur : Z) (last : option bool)
    (prev : option Z) :
  s ≠ 0 →
  generate_commands_from_car_control (control_triple s d f)
    {| _current_speed := cur; _last_is_forward := last; _previous_angle := prev |}
  = ((if (500 <=? s) && (s <=? 1000) && negb (s =? cur)
      then [speed_token s] else [])
     ++ (if decide (last = Some f) then [] else [facing_token f])
     ++ (if decide (prev = Some d) then [] else [get_steering_command d]),
     {| _current_speed :=
          if (500 <=? s) && (s <=? 1000) && negb (s =? cur) then s else cur;
        _last_is_forward := Some f;
        _previous_angle := Some d |})%list.
Proof.
  intros Hs. rewrite generate_decompose by assumption.
  rewrite generate_speed_commands_eq.
  apply Z.eqb_neq in Hs. rewrite Hs. cbn [_current_speed].
  destruct ((500 <=? s) && (s <=? 1000) && negb (s =? cur));
    unfold with_current_speed; cbn [_last_is_forward _previous_angle];
    rewrite facing_step_eq;
    (destruct (decide (last = Some f)) as [->|Hl]);
    rewrite steering_step_eq;
    (destruct (decide (prev = Some d)) as [->|Hp]); reflexivity.
Qed.

End TokenFacts.

Module ConnectorFacts.
Import Generator Connector TraceDefs.

Lemma send_stop_eq (p : serial_port) (w : world) :
  send_stop p w = (Serial.write p (frame "BSTD") w).2.
Proof. reflexivity. Qed.

Lemma calls_write (p : serial_port) (data : string) (w : world) :
  calls (Serial.write p data w).2 = calls w ++ [CallWrite p data].
Proof.
  unfold calls, Serial.write. destruct (Serial.next w) as [ok rest]. simpl.
  rewrite map_app. reflexivity.
Qed.

Lemma calls_close (p : serial_port) (w : world) :
  calls (Serial.close p w).2 = calls w ++ [CallClose p].
Proof.
  unfold calls, Serial.close. destruct (Serial.next w) as [ok rest]. simpl.
  rewrite map_app. reflexivity.
Qed.

Lemma calls_open (p : serial_port) (w : world) :
  calls (Serial.open p w).2 = calls w ++ [CallOpen p].
Proof.
  unfold calls, Serial.open. destruct (Serial.next w) as [ok rest]. simpl.
  rewrite map_app. reflexivity.
Qed.

Lemma trace_write (p : serial_port) (data : string) (w : world) :
  trace (Serial.write p data w).2 = trace w ++ [Wrote p data (Serial.next w).1].
Proof. unfold Serial.write. destruct (Serial.next w). reflexivity. Qed.

Lemma trace_close (p : serial_port) (w : world) :
  trace (Serial.close p w).2 = trace w ++ [Closed p (Serial.next w).1].
Proof. unfold Serial.close. destruct (Serial.next w). reflexivity. Qed.

Lemma trace_open (p : serial_port) (w : world) :
  trace (Serial.open p w).2 = trace w ++ [Opened p (Serial.open p w).1].
Proof. unfold Serial.open. destruct (Serial.next w). reflexivity. Qed.

Lemma disconnect_eq (self : CarConnector) (w : world) :
  ∃ w', disconnect (self, w) = ((), (reset self, w'))
        ∧ calls w' = calls w ++ closing_calls self.
Proof.
  unfold disconnect, closing_calls.
  destruct (serial self) as [p|]; [destruct (running self)|].
  - eexists. split; [reflexivity|].
    rewrite calls_close, send_stop_eq, calls_write, <- app_assoc. reflexivity.
  - eexists. split; [reflexivity|]. rewrite app_nil_r. reflexivity.
  - eexists. split; [reflexivity|]. rewrite app_nil_r. reflexivity.
Qed.

Lemma send_command_refused (command : string) (self : CarConnector) (w : world) :
  is_connected self = false ∨ command = "" →
  send_command command (self, w) = (false, (self, w)).
Proof.
  unfold send_command, is_connected.
  destruct (running self), (serial self), command; simpl; intros [H|H];
    try discriminate; reflexivity.
Qed.

Lemma send_command_connected (command : string) (self : CarConnector)
    (w : world) (p : serial_port) :
  serial self = Some p → running self = true → nonempty command = true →
  ∃ ok w', send_command command (self, w) = (ok, (self, w'))
           ∧ calls w' = calls w ++ [CallWrite p (frame command)].
Proof.
  intros Hs Hr Hc. unfold send_command. rewrite Hr, Hs.
  destruct command as [|a s]; [discriminate|]. simpl.
  destruct (Serial.write p (frame (String a s)) w) as [ok w'] eqn:E.
  exists ok, w'. split; [reflexivity|].
  change w' with (ok, w').2. rewrite <- E. apply calls_write.
Qed.

Lemma send_all_cons (c : string) (commands : list string)
    (x : CarConnector * world) :
  send_all (c :: commands) x = send_all commands (send_command c x).2.
Proof. reflexivity. Qed.

Lemma send_all_connected (commands : list string) (self : CarConnector)
    (w : world) (p : serial_port) :
  serial self = Some p → running self = true →
  ∃ w', send_all commands (self, w) = (self, w')
        ∧ calls w'
          = calls w ++ map (λ c, CallWrite p (frame c))
                         (filter (λ c, nonempty c = true) commands).
Proof.
  intros Hs Hr. revert w.
  induction commands as [|c commands IH]; intros w.
  - exists w. split; [reflexivity|]. simpl. rewrite app_nil_r. reflexivity.
  - rewrite send_all_cons.
    destruct (nonempty c) eqn:Hc.
    + destruct (send_command_connected c self w p Hs Hr Hc) as (ok & w1 & -> & H1).
      cbn [snd]. destruct (IH w1) as (w' & -> & H').
      exists w'. split; [reflexivity|].
      rewrite H', H1, filter_cons_True by exact Hc. cbn [map].
      rewrite <- app_assoc. reflexivity.
    + rewrite send_command_refused by (right; destruct c; [reflexivity|discriminate]).
      cbn [snd]. destruct (IH w) as (w' & -> & H').
      exists w'. split; [reflexivity|].
      rewrite H', filter_cons_False by (rewrite Hc; discriminate). reflexivity.
Qed.

Lemma connect_spec (name : string) (self : CarConnector) (w : world) :
  let p := {| device := name; baud := baud_rate self |} in
  let r := connect name (self, w) in
  let self' := r.2.1 in
  is_connected self' = r.1
  ∧ coherent self'
  ∧ baud_rate self' = baud_rate self
  ∧ (r.1 = true → serial self' = Some p ∧ port self' = Some name)
  ∧ calls r.2.2
    = calls w
      ++ closing_calls self
      ++ [CallOpen p]
      ++ (if r.1 then [CallWrite p (frame "BSTD")] else [])
  ∧ (r.1 = true ↔ Opened p true ∈ drop (length (trace w)) (trace r.2.2)).
Proof.
  cbv zeta. unfold connect.
  assert (Hpre : ∃ w0 evs,
             (match serial self with
              | Some _ => (disconnect (self, w)).2
              | None => (self, w)
              end) = ((match serial self with
                       | Some _ => reset self | None => self end), w0)
             ∧ calls w0 = calls w ++ closing_calls self
             ∧ trace w0 = trace w ++ evs
             ∧ ∀ b q, Opened q b ∉ evs).
  { unfold disconnect, closing_calls.
    destruct (serial self) as [q|] eqn:Hs; [destruct (running self)|].
    - eexists _, [_; _]. split; [reflexivity|]. cbn [snd].
      split; [|split].
      + rewrite calls_close, send_stop_eq, calls_write, <- app_assoc. reflexivity.
      + rewrite trace_close, send_stop_eq, trace_write, <- app_assoc. reflexivity.
      + intros b q0 H.
        repeat (apply elem_of_cons in H as [H|H]; [discriminate H|]).
        exact (proj1 (elem_of_nil _) H).
    - exists w, []. rewrite !app_nil_r. repeat split. intros b q0 H.
      exact (proj1 (elem_of_nil _) H).
    - exists w, []. rewrite !app_nil_r. repeat split. intros b q0 H.
      exact (proj1 (elem_of_nil _) H). }
  destruct Hpre as (w0 & evs & -> & Hc0 & Ht0 & Hno).
  assert (Hb : baud_rate (match serial self with
                          | Some _ => reset self | None => self end)
               = baud_rate self) by (destruct (serial self); reflexivity).
  rewrite Hb.
  set (p := {| device := name; baud := baud_rate self |}).
  pose proof (calls_open p w0) as Hco.
  pose proof (trace_open p w0) as Hto.
  destruct (Serial.open p w0) as [ok w1]. cbn [fst snd] in Hco, Hto.
  destruct ok; cbn [fst snd].
  - split; [reflexivity|]. split; [split; split; discriminate|].
    split; [reflexivity|]. split; [intros _; split; reflexivity|].
    split.
    + rewrite send_stop_eq, calls_write, Hco, Hc0, <- !app_assoc. reflexivity.
    + split; [intros _|reflexivity].
      rewrite send_stop_eq, trace_write, Hto, Ht0, <- !app_assoc, drop_app_length.
      apply elem_of_app. right. apply elem_of_cons. left. reflexivity.
  - split; [reflexivity|]. split; [split; split; reflexivity|].
    split; [destruct (serial self); reflexivity|].
    split; [discriminate|]. split.
    + rewrite Hco, Hc0, <- !app_assoc. reflexivity.
    + split; [discriminate|].
      rewrite Hto, Ht0, <- !app_assoc, drop_app_length. intros H.
      apply elem_of_app in H as [H|H]; [destruct (Hno _ _ H)|].
      apply list_elem_of_singleton in H. discriminate H.
Qed.


End ConnectorFacts.

Module MainFacts.
Import Config command_map Converter ConverterPipeline Generator Wire Connector Main.
Import GeneratorFacts TokenFacts TraceDefs ConnectorFacts ConvertAgainFacts MainDefs.

Lemma send_commands_never (stop : nat → bool) (commands : list string) (k : nat)
    (c : CarConnector * world) :
  never stop → send_commands stop k commands c = send_all commands c.
Proof.
  intros Hn. revert k c.
  induction commands as [|command commands IH]; intros k c; [reflexivity|].
  rewrite send_all_cons. cbn [send_commands]. rewrite Hn, IH.
  destruct command as [|a s]; [|reflexivity].
  destruct c as [self w]. rewrite send_command_refused by (right; reflexivity).
  reflexivity.
Qed.

(** Whatever the flag does, the commands written are some of the commands
    handed over, in their order, and the connector is the same object
    state. *)
Lemma send_commands_calls (stop : nat → bool) (commands : list string) (k : nat)
    (self : CarConnector) (w : world) :
  ∃ sent w',
    send_commands stop k commands (self, w) = (self, w')
    ∧ sublist sent commands
    ∧ Forall (λ c, nonempty c = true) sent
    ∧ (is_connected self = false → sent = [])
    ∧ calls w'
      = calls w ++ match serial self with
                   | Some p => map (λ c, CallWrite p (frame c)) sent
                   | None => []
                   end.
Proof.
  revert k w.
  induction commands as [|command commands IH]; intros k w.
  - exists [], w. split; [reflexivity|]. split; [constructor|].
    split; [constructor|]. split; [reflexivity|].
    destruct (serial self); simpl; rewrite app_nil_r; reflexivity.
  - cbn [send_commands].
    assert (Hskip : ∀ w0, ∃ sent w',
               send_commands stop (S k) commands (self, w0) = (self, w')
               ∧ sublist sent (command :: commands)
               ∧ Forall (λ c, nonempty c = true) sent
               ∧ (is_connected self = false → sent = [])
               ∧ calls w'
                 = calls w0 ++ match serial self with
                               | Some p => map (λ c, CallWrite p (frame c)) sent
                               | None => []
                               end).
    { intros w0. destruct (IH (S k) w0) as (sent & w' & E & Hsub & Hne & Hd & Hc).
      exists sent, w'. split; [exact E|]. split; [constructor; exact Hsub|].
      split; [exact Hne|]. split; [exact Hd|exact Hc]. }
    destruct command as [|a s]; [apply Hskip|].
    destruct (stop k); [apply Hskip|].
    destruct (is_connected self) eqn:Hconn.
    + unfold is_connected in Hconn.
      destruct (serial self) as [p|] eqn:Hs; [|discriminate].
      destruct (send_command_connected (String a s) self w p Hs Hconn eq_refl)
        as (ok & w1 & -> & H1).
      cbn [snd]. destruct (IH (S k) w1) as (sent & w' & E & Hsub & Hne & _ & Hc).
      exists (String a s :: sent), w'. split; [exact E|].
      split; [constructor; exact Hsub|]. split; [constructor; [reflexivity|exact Hne]|].
      split; [discriminate|]. rewrite ?Hs in Hc.
      rewrite Hc, H1, <- app_assoc. reflexivity.
    + rewrite send_command_refused by (left; exact Hconn). cbn [snd].
      apply Hskip.
Qed.

(** A nonzero speed within the converter's range, sent twice. *)
Lemma generate_twice (s d : Z) (f : bool) (g : CommandGenerator) :
  BASE_SPEED ≤ s ≤ MAX_SPEED →
  generate_commands_from_car_control (control_triple s d f)
    (generate_commands_from_car_control (control_triple s d f) g).2
  = ([], (generate_commands_from_car_control (control_triple s d f) g).2).
Proof.
  unfold BASE_SPEED, MAX_SPEED. intros Hs.
  destruct (generate_state_after s d f g) as (Hl & Hp & Hc); [lia|].
  apply generate_nothing_to_send; [lia|exact Hl|exact Hp|exact Hc].
Qed.

Lemma filter_nonempty_all (l : list string) :
  Forall (λ c, nonempty c = true) l → filter (λ c, nonempty c = true) l = l.
Proof.
  induction 1 as [|c l Hc _ IH]; [reflexivity|].
  rewrite filter_cons_True by exact Hc. f_equal. exact IH.
Qed.

Lemma Forall_if_bool {A} (P : A → Prop) (b : bool) (x : A) :
  P x → Forall P (if b then [x] else []).
Proof. intros H. destruct b; repeat constructor. exact H. Qed.

Lemma Forall_if_decide {A} (P : A → Prop) (Q : Prop) (d : Decision Q) (x : A) :
  P x → Forall P (if d then [] else [x]).
Proof. intros H. destruct d; repeat constructor. exact H. Qed.

Lemma length_if_bool {A} (b : bool) (x : A) :
  (length (if b then [x] else []) ≤ 1)%nat.
Proof. destruct b; simpl; lia. Qed.

Lemma length_if_decide {A} (Q : Prop) (d : Decision Q) (x : A) :
  (length (if d then [] else [x]) ≤ 1)%nat.
Proof. destruct d; simpl; lia. Qed.

(** The commands of a cycle on a control signal of the converter. *)
Lemma generate_signal_commands (s d : Z) (f : bool) (g : CommandGenerator) :
  BASE_SPEED ≤ s ≤ MAX_SPEED →
  let out := (generate_commands_from_car_control (control_triple s d f) g).1 in
  (length out ≤ 3)%nat
  ∧ Forall (λ c, c = speed_token s ∨ c = facing_token f
                 ∨ c = steering_token (Z.max 500 (Z.min 2500 d))) out
  ∧ Forall (λ c, nonempty c = true) out.
Proof.
  unfold BASE_SPEED, MAX_SPEED. intros Hs. cbv zeta.
  destruct g as [cur last prev]. rewrite generate_cycle_eq by lia. cbn [fst].
  rewrite get_steering_command_eq.
  set (b := (500 <=? s) && (s <=? 1000) && negb (s =? cur)).
  split; [|split].
  - rewrite !length_app.
    pose proof (length_if_bool b (speed_token s)).
    pose proof (length_if_decide _ (decide (last = Some f)) (facing_token f)).
    pose proof (length_if_decide _ (decide (prev = Some d))
                  (steering_token (Z.max 500 (Z.min 2500 d)))).
    lia.
  - rewrite !Forall_app. split; [|split].
    + apply Forall_if_bool. left. reflexivity.
    + apply Forall_if_decide. right. left. reflexivity.
    + apply Forall_if_decide. right. right. reflexivity.
  - rewrite !Forall_app. split; [|split].
    + apply Forall_if_bool. reflexivity.
    + apply Forall_if_decide. destruct f; reflexivity.
    + apply Forall_if_decide. reflexivity.
Qed.

Lemma body_without_keys (data : gmap string pyval) (stop : nat → bool)
    (st : pair_state) :
  has_key data "attention" && has_key data "meditation" && has_key data "gyro"
  = false →
  run_control_loop_body data stop st = st.
Proof. unfold run_control_loop_body. intros ->. reflexivity. Qed.

Lemma body_with_keys (data : gmap string pyval) (stop : nat → bool)
    (st : pair_state) :
  has_key data "attention" && has_key data "meditation" && has_key data "gyro"
  = true →
  run_control_loop_body data stop st
  = match convert_essential_data (VDict data) (converter st) with
    | (Some signal, conv) =>
        let out :=
          generate_commands_from_car_control (of_signal signal) (generator st) in
        let sent := send_commands stop 0 out.1 (connector st, outside st) in
        {| converter := conv; generator := out.2; connector := sent.1;
           outside := sent.2 |}
    | (None, conv) =>
        {| converter := conv; generator := generator st;
           connector := connector st; outside := outside st |}
    end.
Proof.
  unfold run_control_loop_body. intros ->.
  destruct (convert_essential_data _ _) as [[signal|] conv]; [|reflexivity].
  destruct (generate_commands_from_car_control _ _) as [commands gen].
  cbn [fst snd]. destruct (send_commands _ _ _ _) as [conn w]. reflexivity.
Qed.

End MainFacts.


(** ** Further properties of the converter *)

Module ConverterExtras.
Import Config Converter ConverterPipeline Enumerate ConverterFacts PipelineFacts.
Import ExactFormulas ConverterMoreFacts.

(** X1. Asking for the direction twice with the same tilt gives the same answer:
    the second call returns what the first returned and changes nothing. *)
Theorem calculate_direction_idempotent
    (gyro_z : pynum) (self : BrainDataConverter) :
  let first := calculate_direction gyro_z self in
  calculate_direction gyro_z first.2 = first.
Proof.
  destruct (calculate_direction_total gyro_z self) as (raw & Hraw & _ & H1).
  cbv zeta. rewrite H1.
  destruct (Z.ltb_spec (Z.abs (raw - _previous_direction self)) 20) as [Hlt|Hge].
  - exact H1.
  - cbn [snd].
    destruct (calculate_direction_total gyro_z
                (with_car_status (with_direction raw)
                   (with_previous_direction raw self))) as (raw' & Hraw' & _ & H2).
    rewrite Hraw in Hraw'. injection Hraw' as <-.
    rewrite H2. cbn [_previous_direction with_car_status with_previous_direction].
    rewrite Z.sub_diag. reflexivity.
Qed.

(** X2. Whatever the tilt and the state, [calculate_direction] returns a value
    and that value is the one it leaves in [_previous_direction]; it is less
    than 20 (1% of the range) away from the freshly computed one. The status
    keeps pace: if [car_status['direction']] agreed with
    [_previous_direction] before the call it does after it; and a stored
    direction within the steering range stays within it. *)
Theorem returned_direction_is_stored
    (gyro_z : pynum) (self : BrainDataConverter) :
  ∃ raw d self',
    direction_of gyro_z = Ok raw
    ∧ calculate_direction gyro_z self = (Ok d, self')
    ∧ _previous_direction self' = d
    ∧ Z.abs (raw - d) < 20
    ∧ (status_direction (car_status self) = _previous_direction self →
       status_direction (car_status self') = d)
    ∧ (MIN_DIRECTION ≤ _previous_direction self ≤ MAX_DIRECTION →
       MIN_DIRECTION ≤ d ≤ MAX_DIRECTION).
Proof.
  destruct (calculate_direction_total gyro_z self) as (raw & Hraw & Hr & H1).
  exists raw. rewrite H1.
  destruct (Z.ltb_spec (Z.abs (raw - _previous_direction self)) 20) as [Hlt|Hge].
  - exists (_previous_direction self), self. repeat split; auto; lia.
  - eexists _, _. split; [exact Hraw|]. split; [reflexivity|].
    simpl. repeat split; auto; lia.
Qed.

(** X3. For integer readings the binary64 arithmetic of [calculate_speed] is
    exact: with a clamped meditation above the threshold the speed is
    [BASE_SPEED], otherwise it is [BASE_SPEED] plus the attention's share of
    the speed range, rounded down, that is 500 + 3 * attention on
    [0, 100]. *)
Theorem integer_speed_is_exact
    (attention meditation : Z) (self : BrainDataConverter) :
  let s := if MEDITATION_THRESHOLD
              <? Z.max 0 (Z.min meditation MAX_MEDITATION_VALUE)
           then BASE_SPEED else speed_formula attention in
  calculate_speed (PyInt attention) (PyInt meditation) self
  = (Ok s, with_car_status (with_speed s) self)
  ∧ speed_formula attention = 500 + 3 * Z.max 0 (Z.min attention 100).
Proof.
  assert (Hf : speed_formula attention = 500 + 3 * Z.max 0 (Z.min attention 100)).
  { unfold speed_formula, BASE_SPEED, MAX_SPEED, MAX_ATTENTION_VALUE.
    change (800 - 500) with 300.
    rewrite (Z.mul_comm _ 300). change 300 with (3 * 100).
    rewrite <- Z.mul_assoc, (Z.mul_comm 100), Z.mul_assoc, Z.div_mul by lia.
    reflexivity. }
  cbv zeta. split; [|exact Hf].
  rewrite calculate_speed_eq, speed_of_int, Hf.
  unfold BASE_SPEED, MAX_ATTENTION_VALUE.
  destruct (MEDITATION_THRESHOLD <? _); reflexivity.
Qed.

(** X4. For an integer tilt the binary64 arithmetic of [calculate_direction] is
    exact too: the value computed before the hysteresis test is the one of
    the formula. It is 1500 for a level head and for every tilt of -75 or
    below, 700 for every tilt of 90 or above, below 1500 for a tilt to the
    left and above it for a tilt to the right between -75 and 0; it never
    leaves [700, 2289]. *)
Theorem integer_direction_is_exact (z : Z) :
  direction_of (PyInt z) = Ok (steering_formula z)
  ∧ 700 ≤ steering_formula z ≤ 2289
  ∧ (z ≤ -75 ∨ z = 0 → steering_formula z = CENTER_DIRECTION)
  ∧ (90 ≤ z → steering_formula z = 700)
  ∧ (0 < z → steering_formula z < CENTER_DIRECTION)
  ∧ (-75 < z < 0 → CENTER_DIRECTION < steering_formula z).
Proof.
  split.
  { unfold direction_of. rewrite clamp_tilt_int.
    rewrite steering_of_formula by lia. rewrite steering_formula_clamp.
    reflexivity. }
  unfold steering_formula, CENTER_DIRECTION, DIRECTION_RANGE_PER_SIDE.
  cbv zeta.
  destruct (Z.le_gt_cases z (-75)) as [H1|H1];
    [|destruct (Z.lt_ge_cases z 0) as [H2|H2];
      [|destruct (Z.eq_dec z 0) as [H3|H3];
        [|destruct (Z.lt_ge_cases z 90) as [H4|H4]]]].
  - (* at or beyond -75: the centre *)
    assert (Hm : Z.max (Z.max (-90) (Z.min z 90)) (-75) = -75) by lia.
    assert (Hn : Z.max (-90) (Z.min z 90) < 0) by lia.
    rewrite Hm. apply Z.ltb_lt in Hn as Hn'. rewrite Hn'.
    assert ((0 <? Z.max (-90) (Z.min z 90)) = false) as -> by (apply Z.ltb_ge; lia).
    change ((1500 * 75 + (-75 + 75) * 2 * 400) / 75) with 1500.
    repeat split; intros; lia.
  - (* to the right, short of -75 *)
    replace (Z.max (-90) (Z.min z 90)) with z by lia.
    replace (Z.max z (-75)) with z by lia.
    assert ((0 <? z) = false) as -> by (apply Z.ltb_ge; lia).
    assert ((z <? 0) = true) as -> by (apply Z.ltb_lt; lia).
    assert (1501 ≤ (1500 * 75 + (z + 75) * 2 * 400) / 75)
      by (apply Z.div_le_lower_bound; lia).
    assert ((1500 * 75 + (z + 75) * 2 * 400) / 75 < 2290)
      by (apply Z.div_lt_upper_bound; lia).
    repeat split; intros; lia.
  - subst z. simpl. repeat split; intros; lia.
  - (* to the left, short of 90 *)
    replace (Z.max (-90) (Z.min z 90)) with z by lia.
    assert ((0 <? z) = true) as -> by (apply Z.ltb_lt; lia).
    assert (700 ≤ (1500 * 90 - z * 2 * 400) / 90)
      by (apply Z.div_le_lower_bound; lia).
    assert ((1500 * 90 - z * 2 * 400) / 90 < 1500)
      by (apply Z.div_lt_upper_bound; lia).
    repeat split; intros; lia.
  - (* at or beyond 90 *)
    replace (Z.max (-90) (Z.min z 90)) with 90 by lia.
    change ((0 <? 90)) with true. cbv iota.
    change ((1500 * 90 - 90 * 2 * 400) / 90) with 700.
    repeat split; intros; lia.
Qed.

End ConverterExtras.

(** ** Further properties of the conversion of a sample *)

Module ConvertExtras.
Import Config Converter ConverterPipeline Enumerate ConverterFacts PipelineFacts.
Import ExactFormulas ConverterMoreFacts ConvertDefs ConvertFacts ConvertAgainFacts.
Import SpeedFacts Order OrderFacts.

(** X5. The conversion returns a control signal exactly for the well-formed
    samples; for every other value, a dictionary or not, it returns [None]
    and raises nothing. *)
Theorem conversion_succeeds_iff (v : pyval) (self : BrainDataConverter) :
  ((∃ signal self', convert_essential_data v self = (Some signal, self'))
   ↔ ∃ d, v = VDict d ∧ well_formed d)
  ∧ ((¬ ∃ d, v = VDict d ∧ well_formed d) →
     ∃ self', convert_essential_data v self = (None, self')).
Proof.
  assert (Hiff : (∃ signal self',
                    convert_essential_data v self = (Some signal, self'))
                 ↔ ∃ d, v = VDict d ∧ well_formed d).
  { split.
    - intros (signal & self' & Hc). eapply converts_well_formed. exact Hc.
    - intros (d & -> & Hd).
      destruct (well_formed_converts d self Hd)
        as (a & m & gyro & z & s & raw & _ & _ & _ & _ & _ & _ & _ & _ & _ & Hc).
      eauto. }
  split; [exact Hiff|].
  intros Hn.
  destruct (convert_essential_data v self) as [[signal|] self'] eqn:Hc; [|eauto].
  exfalso. apply Hn, Hiff. eauto.
Qed.

(** X6. Converting the same value again gives the same outcome and changes
    nothing more: what a conversion leaves in the converter is a fixed point
    of the conversion of that value, whether it returned a control signal
    or [None], and whatever it had assigned before an exception stopped
    it. *)
Theorem repeated_sample_same_signal (v : pyval) (self : BrainDataConverter) :
  let first := convert_essential_data v self in
  convert_essential_data v first.2 = first.
Proof. exact (convert_again v self). Qed.

(** X7. The status dictionary mirrors the signals handed out. If
    [car_status['direction']] agrees with [_previous_direction], as it does
    in a new converter, then after a conversion it still does, and the
    status holds the direction and the speed of the signal returned; it
    holds its facing too unless the [y] axis was [None], in which case the
    signal says backward and the status keeps the facing it had. *)
Theorem status_mirrors_signal
    (d : gmap string pyval) (self self' : BrainDataConverter)
    (signal : control_signal) :
  status_direction (car_status self) = _previous_direction self →
  convert_essential_data (VDict d) self = (Some signal, self') →
  status_direction (car_status self') = _previous_direction self'
  ∧ status_direction (car_status self') = direction signal
  ∧ status_speed (car_status self') = speed signal
  ∧ ∀ gyro, d !! "gyro" = Some gyro →
      match gyro_axis gyro "y" with
      | VNone => is_forward signal = false
                 ∧ status_is_forward (car_status self')
                   = status_is_forward (car_status self)
      | _ => status_is_forward (car_status self') = is_forward signal
      end.
Proof.
  intros Hinv Hc.
  destruct (converts_well_formed _ self self' signal Hc) as (d' & [= <-] & Hd).
  destruct (well_formed_converts d self Hd)
    as (a & m & gyro & z & s & raw & Ha & Hm & Hg & Hz & Hy & Hs & Hraw & _ & _
        & H1).
  rewrite H1 in Hc. injection Hc as <- <-.
  unfold converted.
  destruct self as [prev gy last [sd ss sf]]. simpl in Hinv. subst sd.
  cbn [_previous_direction with_car_status with_speed car_status].
  assert (Hsame : ∀ gyro', d !! "gyro" = Some gyro' → gyro' = gyro)
    by (intros gyro' H; congruence).
  destruct (Z.abs (raw - prev) <? 20);
    destruct (gyro_axis gyro "y") as [|y|?|?] eqn:Ey;
    try (destruct Hy as [Hy | [y' Hy]]; discriminate); simpl;
    repeat split; try reflexivity;
    intros gyro' Hg'; rewrite (Hsame gyro' Hg'), Ey; simpl; auto.
Qed.

Lemma status_mirrors_signal_witness :
  ∃ signal self',
    convert_essential_data
      (VDict (<["attention" := VNum (PyInt 50)]>
                (<["meditation" := VNum (PyInt 50)]>
                   (<["gyro" := VDict (<["y" := VNum (PyInt 30)]>
                                         (<["z" := VNum (PyInt 45)]> ∅))]> ∅))))
      Converter.init = (Some signal, self')
    ∧ status_direction (car_status self') = direction signal
    ∧ status_speed (car_status self') = speed signal.
Proof.
  eexists _, _. split; [vm_compute; reflexivity|].
  edestruct (status_mirrors_signal
               (<["attention" := VNum (PyInt 50)]>
                  (<["meditation" := VNum (PyInt 50)]>
                     (<["gyro" := VDict (<["y" := VNum (PyInt 30)]>
                                           (<["z" := VNum (PyInt 45)]> ∅))]> ∅)))
               Converter.init) as (_ & H1 & H2 & _);
    [reflexivity|vm_compute; reflexivity|].
  split; [exact H1|exact H2].
Defined.

(** X8. The attention saturates at both ends of its range. With a meditation not
    above the threshold, every attention that is not above 0 (a negative
    number, a zero, minus infinity, a NaN) gives [BASE_SPEED] and every
    attention of [MAX_ATTENTION_VALUE] or more, plus infinity included,
    gives [MAX_SPEED]. *)
Theorem attention_saturates
    (attention meditation : pynum) (self : BrainDataConverter) :
  PyNum.le meditation (PyInt MEDITATION_THRESHOLD) = true →
  (PyNum.gt attention (PyInt 0) = false →
   calculate_speed attention meditation self
   = (Ok BASE_SPEED, with_car_status (with_speed BASE_SPEED) self))
  ∧ (PyNum.le (PyInt MAX_ATTENTION_VALUE) attention = true →
     calculate_speed attention meditation self
     = (Ok MAX_SPEED, with_car_status (with_speed MAX_SPEED) self)).
Proof.
  intros Hm.
  assert (Hlow : mapped_speed_of (PyInt 0) = Ok BASE_SPEED)
    by (vm_compute; reflexivity).
  assert (Hhigh : mapped_speed_of (PyInt 100) = Ok MAX_SPEED)
    by (vm_compute; reflexivity).
  pose proof (clamp_percent_value attention) as C.
  split; intros Ha; rewrite calculate_speed_eq; unfold speed_of;
    rewrite (meditation_below _ Hm); unfold MAX_ATTENTION_VALUE in *.
  - assert (clamp_percent attention 100 = PyInt 0) as ->; [|rewrite Hlow; reflexivity].
    apply not_true_iff_false in Ha. unfold PyNum.gt in Ha. rewrite lt_spec in Ha.
    cbn [value_of] in Ha.
    destruct (value_of attention) as [| | |v]; cbn [vlt] in Ha; try assumption.
    + exfalso. apply Ha. exact I.
    + destruct C as [[_ C]|[[Hv _]|[[Hv _] _]]]; [exact C| |]; exfalso; lra.
  - apply le_spec in Ha. cbn [value_of] in Ha.
    destruct (value_of attention) as [| | |v] eqn:E; cbn [vle] in Ha;
      try contradiction.
    + rewrite C, Hhigh. reflexivity.
    + destruct C as [[Hv _]|[[_ C]|[[_ Hv] C]]]; [exfalso; lra| |].
      * rewrite C, Hhigh. reflexivity.
      * rewrite C.
        assert (v = 100%R) as -> by lra.
        destruct (mapped_speed_mono attention (PyInt 100) 100 100 E eq_refl)
          as (s1 & s2 & M1 & M2 & H12); try lra.
        destruct (mapped_speed_mono (PyInt 100) attention 100 100 eq_refl E)
          as (s2' & s1' & M2' & M1' & H21); try lra.
        rewrite M1 in M1'. injection M1' as <-.
        rewrite M2 in M2'. injection M2' as <-.
        rewrite Hhigh in M2. injection M2 as <-.
        rewrite M1. assert (s1 = MAX_SPEED) as -> by lia. reflexivity.
Qed.

Lemma attention_saturates_witness :
  calculate_speed (PyFloat (-3.5)) (PyInt 40) Converter.init
  = (Ok BASE_SPEED, with_car_status (with_speed BASE_SPEED) Converter.init)
  ∧ calculate_speed (PyFloat infinity) (PyInt 40) Converter.init
    = (Ok MAX_SPEED, with_car_status (with_speed MAX_SPEED) Converter.init).
Proof.
  destruct (attention_saturates (PyFloat (-3.5)) (PyInt 40) Converter.init)
    as [H _]; [vm_compute; reflexivity|].
  destruct (attention_saturates (PyFloat infinity) (PyInt 40) Converter.init)
    as [_ H']; [vm_compute; reflexivity|].
  split; [apply H|apply H']; vm_compute; reflexivity.
Defined.

End ConvertExtras.

(** ** Further properties of the command generator *)

Module GeneratorExtras.
Import Config command_map Generator Wire GeneratorFacts TokenFacts.

(** X9. Whatever the data and the state, one cycle returns at most three
    commands: at most one speed command (stop-all included), then at most
    one facing command, then at most one steering command, in this order
    also when only two of them are there. *)
Theorem cycle_output_shape (g : CommandGenerator) (data : car_control_data) :
  ∃ sp fc st : list string,
    (generate_commands_from_car_control data g).1 = (sp ++ fc ++ st)%list
    ∧ (length sp ≤ 1)%nat ∧ (length fc ≤ 1)%nat ∧ (length st ≤ 1)%nat
    ∧ Forall (λ c, is_speed_command c = true) sp
    ∧ Forall (λ c, is_facing_command c = true) fc
    ∧ Forall (λ c, is_steering_command c = true) st.
Proof.
  destruct data as [[s|] [d|] [f|]];
    try (rewrite generate_incomplete by (simpl; auto);
         exists [], [], []; repeat split; auto).
  fold (control_triple s d f).
  destruct (Z.eq_dec s 0) as [->|Hs].
  { rewrite generate_stop. exists ["BSTD"], [], [].
    repeat split; auto. }
  destruct g as [cur last prev]. rewrite generate_cycle_eq by assumption.
  eexists _, _, _. split; [reflexivity|].
  destruct ((500 <=? s) && (s <=? 1000) && negb (s =? cur));
    destruct (decide (last = Some f)); destruct (decide (prev = Some d));
    repeat split; simpl; auto;
    repeat constructor; destruct f; reflexivity.
Qed.



(** X11. A stop clears the memory of the speed only. After a cycle with speed 0,
    a cycle with a speed within [500, 1000] sends the speed command again,
    even the speed the generator had before the stop; but a facing and an
    angle already sent before the stop are not sent again, so the resuming
    cycle returns the speed command alone. *)
Theorem resume_after_stop
    (g : CommandGenerator) (s d d0 : Z) (f f0 : bool) :
  500 ≤ s ≤ 1000 →
  _last_is_forward g = Some f → _previous_angle g = Some d →
  let stopped :=
    (generate_commands_from_car_control (control_triple 0 d0 f0) g).2 in
  generate_commands_from_car_control (control_triple s d f) stopped
  = ([speed_token s], with_current_speed s g).
Proof.
  intros Hs Hl Hp. cbv zeta. rewrite generate_stop. cbn [snd].
  destruct g as [cur last prev]. simpl in Hl, Hp. subst last prev.
  unfold with_current_speed. cbn [_last_is_forward _previous_angle].
  rewrite generate_cycle_eq by lia.
  assert ((500 <=? s) && (s <=? 1000) && negb (s =? 0) = true) as ->.
  { rewrite !andb_true_iff, negb_true_iff, !Z.leb_le, Z.eqb_neq. lia. }
  rewrite !decide_True by reflexivity. reflexivity.
Qed.

Lemma resume_after_stop_witness :
  let g := {| _current_speed := 650; _last_is_forward := Some true;
              _previous_angle := Some 1500 |} in
  generate_commands_from_car_control (control_triple 650 1500 true)
    (generate_commands_from_car_control (control_triple 0 1500 true) g).2
  = (["<SPD-650>"], g).
Proof.
  apply (resume_after_stop
           {| _current_speed := 650; _last_is_forward := Some true;
              _previous_angle := Some 1500 |} 650 1500 1500 true true);
    [lia|reflexivity|reflexivity].
Defined.



(** X13. The commands can be told apart and read back: two speed commands, or
    two steering commands, are equal only if their numbers are, and no
    command of one kind equals a command of another kind. *)
Theorem commands_are_unambiguous :
  (∀ a b, speed_token a = speed_token b → a = b)
  ∧ (∀ a b, steering_token a = steering_token b → a = b)
  ∧ (∀ f f', facing_token f = facing_token f' → f = f')
  ∧ (∀ a b f,
       speed_token a ≠ steering_token b ∧ speed_token a ≠ facing_token f
       ∧ facing_token f ≠ steering_token b
       ∧ speed_token a ≠ "BSTD" ∧ steering_token b ≠ "BSTD"
       ∧ facing_token f ≠ "BSTD").
Proof.
  split; [exact speed_token_inj|]. split; [exact steering_token_inj|].
  split; [exact facing_token_inj|].
  intros a b f. pose proof (speed_ne_facing a f). pose proof (facing_ne_steering f b).
  repeat split; try assumption; try discriminate.
  destruct f; discriminate.
Qed.

End GeneratorExtras.

(** ** Properties of the connector *)

Module ConnectorExtras.
Import Generator Connector TraceDefs ConnectorFacts.

(** X14. [connect] returns [True] exactly when the port could be opened, and
    leaves the connector connected exactly then, its attributes coherent
    either way. A connector that was connected first stops the car on the
    old port and closes it; on the new port the first thing written is the
    stop command. A failed opening leaves the connector disconnected, the
    old connection gone. *)
Theorem connect_outcome (name : string) (self : CarConnector) (w : world) :
  let p := {| device := name; baud := baud_rate self |} in
  let r := connect name (self, w) in
  let self' := r.2.1 in
  is_connected self' = r.1
  ∧ coherent self'
  ∧ baud_rate self' = baud_rate self
  ∧ (r.1 = true → serial self' = Some p ∧ port self' = Some name)
  ∧ calls r.2.2
    = calls w
      ++ closing_calls self
      ++ [CallOpen p]
      ++ (if r.1 then [CallWrite p (frame "BSTD")] else [])
  ∧ (r.1 = true ↔ Opened p true ∈ drop (length (trace w)) (trace r.2.2)).
Proof. exact (connect_spec name self w). Qed.

(** X15. A session is bracketed by stop commands. When [connect] succeeds, the
    commands handed to [send_command] afterwards, the empty ones apart, are
    written to the port in their order, each followed by CR LF, between the
    stop command written on connecting and the one [disconnect] writes
    before it closes the port. This holds whichever of the calls on the
    serial library raise. *)
Theorem session_is_bracketed (name : string) (commands : list string)
    (self : CarConnector) (w : world) :
  let p := {| device := name; baud := baud_rate self |} in
  let opened := connect name (self, w) in
  let closed := (disconnect (send_all commands opened.2)).2 in
  opened.1 = true →
  calls closed.2
  = calls w ++ closing_calls self
    ++ [CallOpen p; CallWrite p (frame "BSTD")]
    ++ map (λ c, CallWrite p (frame c)) (filter (λ c, nonempty c = true) commands)
    ++ [CallWrite p (frame "BSTD"); CallClose p]
  ∧ is_connected closed.1 = false.
Proof.
  cbv zeta. intros Hok.
  destruct (connect_spec name self w) as (Hc & _ & _ & Hp & Hcalls & _).
  cbv zeta in Hc, Hp, Hcalls. rewrite Hok in Hc, Hcalls.
  destruct (Hp Hok) as [Hs _].
  destruct (connect name (self, w)) as [ok [self1 w1]]. cbn [fst snd] in *.
  assert (Hr : running self1 = true).
  { unfold is_connected in Hc. rewrite Hs in Hc. exact Hc. }
  destruct (send_all_connected commands self1 w1 _ Hs Hr) as (w2 & -> & H2).
  destruct (disconnect_eq self1 w2) as (w3 & -> & H3). cbn [fst snd].
  split; [|reflexivity].
  rewrite H3, H2, Hcalls. unfold closing_calls at 2. rewrite Hs, Hr.
  rewrite <- !app_assoc. reflexivity.
Qed.

Lemma session_is_bracketed_witness :
  calls (disconnect
           (send_all ["<SPD-650>"; ""; "<BUPD>"]
              (connect "COM3" (Connector.init,
                               {| trace := []; faults := [false; true] |})).2)).2.2
  = (let p := {| device := "COM3"; baud := 9600 |} in
     [CallOpen p; CallWrite p (frame "BSTD"); CallWrite p (frame "<SPD-650>");
      CallWrite p (frame "<BUPD>"); CallWrite p (frame "BSTD"); CallClose p]).
Proof.
  destruct (session_is_bracketed "COM3" ["<SPD-650>"; ""; "<BUPD>"] Connector.init
              {| trace := []; faults := [false; true] |}) as [H _];
    [reflexivity|].
  exact H.
Defined.

(** X16. [disconnect] always leaves the connector disconnected, with no port and
    no port name and the baud rate it had. If it was connected the stop
    command is written and the port closed, whether or not either call
    raises; otherwise nothing is done to the port. Afterwards [send_command]
    refuses every command without writing anything, and a second
    [disconnect] changes nothing. *)
Theorem disconnect_is_final (self : CarConnector) (w : world) :
  let d := (disconnect (self, w)).2 in
  d.1 = reset self
  ∧ is_connected d.1 = false
  ∧ coherent d.1
  ∧ calls d.2 = calls w ++ closing_calls self
  ∧ (is_connected self = false → d.2 = w)
  ∧ (is_connected self = true →
     ∃ p, serial self = Some p
          ∧ closing_calls self = [CallWrite p (frame "BSTD"); CallClose p])
  ∧ (∀ command, send_command command d = (false, d))
  ∧ (disconnect d).2 = d.
Proof.
  cbv zeta.
  destruct (disconnect_eq self w) as (w' & E & Hcalls).
  assert (Hw : is_connected self = false → w' = w).
  { revert E. unfold disconnect, is_connected.
    destruct (serial self); [destruct (running self)|]; intros [= <-] H;
      (discriminate H || reflexivity). }
  rewrite E. cbn [fst snd].
  split; [reflexivity|]. split; [reflexivity|].
  split; [split; split; reflexivity|]. split; [exact Hcalls|].
  split; [exact Hw|]. split.
  { unfold is_connected, closing_calls. destruct (serial self) as [p|];
      [|discriminate]. intros ->. exists p. split; reflexivity. }
  split; [intros command; apply send_command_refused; left; reflexivity|].
  reflexivity.
Qed.

End ConnectorExtras.

(** ** Properties of the control loop *)

Module MainExtras.
Import Config command_map Converter ConverterPipeline Generator Wire Connector Main.
Import GeneratorFacts TokenFacts TraceDefs ConnectorFacts ConvertDefs ConvertFacts.
Import ConverterFacts PipelineFacts ConvertAgainFacts MainDefs MainFacts.

(** X17. With the connector connected and the stop flag down, a pass of the
    control loop on a sample the converter accepts writes to the port
    exactly the commands the generator returns for the converter's signal,
    in their order, each followed by CR LF, and nothing else; the converter
    and the generator are left as the two calls leave them, the connector
    as it was. *)
Theorem pass_sends_generated_commands
    (data : gmap string pyval) (stop : nat → bool) (st : pair_state)
    (p : serial_port) (signal : control_signal) (conv : BrainDataConverter) :
  never stop →
  serial (connector st) = Some p → running (connector st) = true →
  convert_essential_data (VDict data) (converter st) = (Some signal, conv) →
  let out :=
    generate_commands_from_car_control (of_signal signal) (generator st) in
  let st' := run_control_loop_body data stop st in
  converter st' = conv ∧ generator st' = out.2
  ∧ connector st' = connector st
  ∧ calls (outside st')
    = calls (outside st) ++ map (λ c, CallWrite p (frame c)) out.1.
Proof.
  intros Hn Hs Hr Hc. cbv zeta.
  pose proof (signal_speed_range _ _ _ _ Hc) as Hsp.
  pose proof Hc as Hk.
  apply convert_Some in Hk as (d & att & med & gyro & [= <-] & Ha & Hm & Hg & _).
  rewrite body_with_keys by (unfold has_key; rewrite Ha, Hm, Hg; reflexivity).
  rewrite Hc. cbv zeta. cbn [converter generator connector outside].
  rewrite send_commands_never by exact Hn.
  destruct (generate_signal_commands (speed signal) (direction signal)
              (is_forward signal) (generator st) Hsp) as (_ & _ & Hne).
  fold (of_signal signal) in Hne. cbv zeta in Hne.
  destruct (send_all_connected
              (generate_commands_from_car_control (of_signal signal)
                 (generator st)).1 (connector st) (outside st) p Hs Hr)
    as (w' & -> & Hcalls).
  cbn [fst snd]. repeat (split; [reflexivity|]).
  rewrite Hcalls. f_equal. f_equal.
  apply filter_nonempty_all. exact Hne.
Qed.

Lemma pass_sends_generated_commands_witness :
  let data : gmap string pyval :=
    <["attention" := VNum (PyInt 60)]>
      (<["meditation" := VNum (PyFloat 12.5)]>
         (<["gyro" := VDict (<["y" := VNum (PyInt 3)]>
                               (<["z" := VNum (PyInt 45)]> ∅))]> ∅)) in
  let p := {| device := "COM5"; baud := 9600 |} in
  let st := {| converter := Converter.init; generator := Generator.init;
               connector := {| serial := Some p; port := Some "COM5";
                               baud_rate := 9600; running := true |};
               outside := {| trace := []; faults := [true] |} |} in
  calls (outside (run_control_loop_body data (λ _, false) st))
  = [CallWrite p (frame "<SPD-680>"); CallWrite p (frame "<BUPD>");
     CallWrite p (frame "<SUP-1100>")].
Proof.
  cbv zeta.
  edestruct (pass_sends_generated_commands
               (<["attention" := VNum (PyInt 60)]>
                  (<["meditation" := VNum (PyFloat 12.5)]>
                     (<["gyro" := VDict (<["y" := VNum (PyInt 3)]>
                                           (<["z" := VNum (PyInt 45)]> ∅))]> ∅)))
               (λ _, false)
               {| converter := Converter.init; generator := Generator.init;
                  connector := {| serial := Some {| device := "COM5"; baud := 9600 |};
                                  port := Some "COM5";
                                  baud_rate := 9600; running := true |};
                  outside := {| trace := []; faults := [true] |} |})
    as (_ & _ & _ & H);
    [intros k; reflexivity|reflexivity|reflexivity|vm_compute; reflexivity|].
  rewrite H. vm_compute. reflexivity.
Defined.

(** X18. A sample the converter does not accept moves nothing: the pass writes
    nothing to the port and leaves the generator and the connector as they
    were, so that the car keeps the last commands it was sent. *)
Theorem rejected_sample_sends_nothing
    (data : gmap string pyval) (stop : nat → bool) (st : pair_state) :
  ¬ well_formed data →
  let st' := run_control_loop_body data stop st in
  outside st' = outside st ∧ generator st' = generator st
  ∧ connector st' = connector st.
Proof.
  intros Hd. cbv zeta.
  destruct (has_key data "attention" && has_key data "meditation"
            && has_key data "gyro") eqn:Hk.
  - rewrite body_with_keys by exact Hk.
    destruct (convert_essential_data (VDict data) (converter st))
      as [[signal|] conv] eqn:Hc; [|repeat split].
    exfalso. apply Hd.
    destruct (converts_well_formed _ _ _ _ Hc) as (d & [= <-] & Hw). exact Hw.
  - rewrite body_without_keys by exact Hk. repeat split.
Qed.

Lemma rejected_sample_sends_nothing_witness :
  let data : gmap string pyval :=
    <["attention" := VNum (PyInt 60)]>
      (<["meditation" := VStr "high"]>
         (<["gyro" := VDict (<["z" := VNum (PyInt 45)]> ∅)]> ∅)) in
  let st := {| converter := Converter.init; generator := Generator.init;
               connector := {| serial := Some {| device := "COM5"; baud := 9600 |};
                               port := Some "COM5";
                               baud_rate := 9600; running := true |};
               outside := {| trace := []; faults := [] |} |} in
  outside (run_control_loop_body data (λ _, false) st) = outside st.
Proof.
  cbv zeta.
  edestruct (rejected_sample_sends_nothing
               (<["attention" := VNum (PyInt 60)]>
                  (<["meditation" := VStr "high"]>
                     (<["gyro" := VDict (<["z" := VNum (PyInt 45)]> ∅)]> ∅)))
               (λ _, false)
               {| converter := Converter.init; generator := Generator.init;
                  connector := {| serial := Some {| device := "COM5"; baud := 9600 |};
                                  port := Some "COM5";
                                  baud_rate := 9600; running := true |};
                  outside := {| trace := []; faults := [] |} |}) as (H & _).
  - intros (a & m & gyro & _ & Hm & _). vm_compute in Hm. discriminate Hm.
  - exact H.
Defined.

(** X19. A pass of the control loop never stops the car and never says much:
    whatever the sample, the stop flag, the state and the faults of the
    port, it writes at most three commands, all to the connector's port,
    each a speed command within [500, 1000], a facing command or a steering
    command within [500, 2500] followed by CR LF, and never the stop
    command; it writes nothing when the connector is not connected, and it
    never changes the connector. *)
Theorem pass_never_stops_the_car
    (data : gmap string pyval) (stop : nat → bool) (st : pair_state) :
  let st' := run_control_loop_body data stop st in
  connector st' = connector st
  ∧ ∃ sent,
      calls (outside st') = calls (outside st) ++ sent
      ∧ (length sent ≤ 3)%nat
      ∧ (is_connected (connector st) = false → sent = [])
      ∧ ∀ c, c ∈ sent →
          ∃ p command,
            c = CallWrite p (frame command)
            ∧ serial (connector st) = Some p
            ∧ wire_command command ∧ command ≠ "BSTD".
Proof.
  cbv zeta.
  assert (Hnone : ∃ sent : list serial_call,
             calls (outside st) = calls (outside st) ++ sent
             ∧ (length sent ≤ 3)%nat
             ∧ (is_connected (connector st) = false → sent = [])
             ∧ ∀ c, c ∈ sent →
                 ∃ p command,
                   c = CallWrite p (frame command)
                   ∧ serial (connector st) = Some p
                   ∧ wire_command command ∧ command ≠ "BSTD").
  { exists []. rewrite app_nil_r. split; [reflexivity|]. split; [simpl; lia|].
    split; [reflexivity|]. intros c Hin. destruct (proj1 (elem_of_nil _) Hin). }
  destruct (has_key data "attention" && has_key data "meditation"
            && has_key data "gyro") eqn:Hk;
    [|rewrite body_without_keys by exact Hk; split; [reflexivity|exact Hnone]].
  rewrite body_with_keys by exact Hk.
  destruct (convert_essential_data (VDict data) (converter st))
    as [[signal|] conv] eqn:Hc; [|split; [reflexivity|exact Hnone]].
  clear Hnone. cbv zeta. cbn [converter generator connector outside].
  pose proof (signal_speed_range _ _ _ _ Hc) as Hsp.
  destruct (generate_signal_commands (speed signal) (direction signal)
              (is_forward signal) (generator st) Hsp) as (Hlen & Hshape & _).
  fold (of_signal signal) in Hlen, Hshape. cbv zeta in Hlen, Hshape.
  destruct (send_commands_calls stop
              (generate_commands_from_car_control (of_signal signal)
                 (generator st)).1 0 (connector st) (outside st))
    as (sent & w' & -> & Hsub & _ & Hdis & Hcalls).
  cbn [fst snd]. split; [reflexivity|].
  eexists. split; [exact Hcalls|].
  apply sublist_length in Hsub as Hl.
  split; [destruct (serial (connector st)); [rewrite length_map|simpl]; lia|].
  split.
  { intros Hd. rewrite (Hdis Hd). destruct (serial (connector st)); reflexivity. }
  intros c Hin. destruct (serial (connector st)) as [p|];
    [|destruct (proj1 (elem_of_nil _) Hin)].
  apply list_elem_of_fmap in Hin as (command & -> & Hin).
  exists p, command. split; [reflexivity|]. split; [reflexivity|].
  assert (Hin' : command ∈ (generate_commands_from_car_control
                              (of_signal signal) (generator st)).1).
  { eapply elem_of_sublist; eassumption. }
  rewrite Forall_forall in Hshape. apply Hshape in Hin'.
  unfold BASE_SPEED, MAX_SPEED in Hsp.
  destruct Hin' as [-> | [-> | ->]].
  - split; [apply wire_speed; lia|discriminate].
  - destruct (is_forward signal); split; (constructor || discriminate).
  - split; [apply wire_steering; lia|discriminate].
Qed.

(** X20. Holding still silences the loop. A second pass on the same sample
    leaves everything as the first pass left it: nothing more is written,
    whatever the sample and whatever happened to the first pass's writes. A
    command whose write raised, or which the stop flag held back, is
    therefore not sent again while the sample stays the same. *)
Theorem steady_sample_goes_silent
    (data : gmap string pyval) (stop stop' : nat → bool) (st : pair_state) :
  run_control_loop_body data stop' (run_control_loop_body data stop st)
  = run_control_loop_body data stop st.
Proof.
  destruct (has_key data "attention" && has_key data "meditation"
            && has_key data "gyro") eqn:Hk;
    [|rewrite !body_without_keys by exact Hk; reflexivity].
  rewrite (body_with_keys data stop st Hk).
  pose proof (convert_again (VDict data) (converter st)) as Hagain.
  destruct (convert_essential_data (VDict data) (converter st))
    as [[signal|] conv] eqn:Hc; cbn [snd] in Hagain.
  - cbv zeta. rewrite body_with_keys by exact Hk.
    cbn [converter generator connector outside]. rewrite Hagain.
    pose proof (signal_speed_range _ _ _ _ Hc) as Hsp.
    unfold of_signal. rewrite generate_twice by exact Hsp.
    cbv zeta. cbn [fst snd send_commands].
    destruct (send_commands stop 0 _ _) as [conn w]. reflexivity.
  - rewrite body_with_keys by exact Hk.
    cbn [converter generator connector outside]. rewrite Hagain. reflexivity.
Qed.

End MainExtras.
